(** * Necromoire: OSC-like codec, input reassembly, debounce buffer and
    state model of the MaxMSP bridge

    A shallow embedding of [NecromoireMKiTest_Enhanced.py] (and, in
    [Module Legacy], of the older [NecromoireMKiTest.py]), followed by the
    theorems about it.

    Conventions.
    - Python [int] is [Z]; [len] returns a [Z]; indices that Python keeps
      as ints stay in [Z] and are turned into [nat] only to slice.
    - [bytes] is a list of [byte]s.  Decoded text is a list of Unicode code
      points ([text]).  The strings handled by the reassembler and the state
      model are Rocq [string]s, that is sequences of code points below 256:
      on those Python's [int(c, 16)] accepts exactly [0-9a-fA-F].  (Above
      that range [int] also accepts the other Unicode decimal digits; a
      text that holds such characters is outside these strings, and what
      is proved about parsing is proved for the strings they can hold.)
    - A Python exception is a value of [exn] (its message, where it has
      one, without the formatted numbers); a method that may raise while it
      mutates [self] returns the mutated object next to the outcome, so
      that what was written before the [raise] stays written.
    - [time.time()] is an argument ([now]); what an [await]ed collaborator
      receives (the message processor, [send_message]) is returned as a
      list of calls. *)

From stdpp Require Import gmap strings list pretty.
From Stdlib Require Import ZArith Strings.Byte Ascii.
From Stdlib Require String.

Open Scope Z_scope.

(** ** Python values shared by all components *)

Inductive exn :=
| ValueError (msg : string)
| IndexError
| OverflowError
| UnicodeDecodeError.

Inductive result (A : Type) :=
| Ok (a : A)
| Raise (e : exn).
Arguments Ok {A} a.
Arguments Raise {A} e.

Definition bytes := list byte.
Definition text := list N.

Definition len {A} (l : list A) : Z := Z.of_nat (length l).

(** Code points of a string whose characters are below 256. *)
Definition codepoints (s : string) : text :=
  N_of_ascii <$> String.list_ascii_of_string s.

(** [bool(s)] for a [str]: the empty string is falsy. *)
Definition truthy (s : string) : bool :=
  match s with EmptyString => false | String _ _ => true end.

(** [a and b] on two [str] objects. *)
Definition py_and (a b : string) : string := if truthy a then b else a.

(** ** Wire codec ([UDPHandler._decode_osc_message], [_encode_osc_message]) *)

Module Codec.

(** *** The [bytes] and [str] primitives the codec calls *)

(** [data.find(sub, start)] for a one-byte [sub] and [0 <= start]:
    the index of the first occurrence at or after [start], or [-1]. *)
Fixpoint index_of (sub : byte) (l : bytes) : option nat :=
  match l with
  | [] => None
  | b :: r => if Byte.eqb b sub then Some 0%nat else S <$> index_of sub r
  end.

Definition find (data : bytes) (sub : byte) (start : Z) : Z :=
  match index_of sub (drop (Z.to_nat start) data) with
  | Some i => start + Z.of_nat i
  | None => -1
  end.

(** [b % 256] as a byte. *)
Definition byte_of_Z (z : Z) : byte :=
  default x00 (Byte.of_N (Z.to_N (z mod 256))).

(** [int.to_bytes(length, byteorder='big', signed=True)]. *)
Definition to_bytes (length : nat) (v : Z) : result bytes :=
  let half := 2 ^ (8 * Z.of_nat length - 1) in
  if (length =? 0)%nat then (if v =? 0 then Ok [] else Raise OverflowError)
  else if (- half <=? v) && (v <? half)
  then Ok ((λ i, byte_of_Z (Z.shiftr v (8 * Z.of_nat i))) <$> reverse (seq 0 length))
  else Raise OverflowError.

(** The unsigned big-endian reading of a byte string. *)
Definition from_bytes_be (bs : bytes) : Z :=
  foldl (λ acc b, acc * 256 + Z.of_N (Byte.to_N b)) 0 bs.

(** [str.encode('utf-8')] on code points below 256: one byte below 128,
    a two-byte sequence from 128 on. *)
Definition utf8_encode_char (a : ascii) : bytes :=
  let n := Z.of_N (N_of_ascii a) in
  if n <? 128 then [byte_of_Z n]
  else [byte_of_Z (192 + Z.shiftr n 6); byte_of_Z (128 + Z.land n 63)].

Definition utf8_encode (s : string) : bytes :=
  String.list_ascii_of_string s ≫= utf8_encode_char.

(** *** UTF-8 decoding

    A byte-at-a-time decoder over the well-formed UTF-8 byte sequences.
    With [errors='replace'] every maximal ill-formed prefix becomes one
    U+FFFD; in strict mode the first ill-formed byte raises
    [UnicodeDecodeError] ([None] here). *)

Inductive utf8_state :=
| U_start
| U_cont (need : nat) (acc lo hi : N).

Inductive utf8_lead :=
| Lead_ascii (c : N)
| Lead_multi (st : utf8_state)
| Lead_invalid.

Definition lead_of (b : byte) : utf8_lead :=
  let n := Byte.to_N b in
  (if n <? 0x80 then Lead_ascii n
   else if n <? 0xC2 then Lead_invalid
   else if n <? 0xE0 then Lead_multi (U_cont 0 (N.land n 0x1F) 0x80 0xBF)
   else if n =? 0xE0 then Lead_multi (U_cont 1 (N.land n 0x0F) 0xA0 0xBF)
   else if n =? 0xED then Lead_multi (U_cont 1 (N.land n 0x0F) 0x80 0x9F)
   else if n <? 0xF0 then Lead_multi (U_cont 1 (N.land n 0x0F) 0x80 0xBF)
   else if n =? 0xF0 then Lead_multi (U_cont 2 (N.land n 0x07) 0x90 0xBF)
   else if n <? 0xF4 then Lead_multi (U_cont 2 (N.land n 0x07) 0x80 0xBF)
   else if n =? 0xF4 then Lead_multi (U_cont 2 (N.land n 0x07) 0x80 0x8F)
   else Lead_invalid)%N.

Definition replacement_character : N := 0xFFFD%N.

Fixpoint utf8_decode_from (replace : bool) (st : utf8_state) (data : bytes)
  : option text :=
  let on_error (k : option text) : option text :=
    if replace then cons replacement_character <$> k else None in
  match data with
  | [] =>
      match st with
      | U_start => Some []
      | U_cont _ _ _ _ => on_error (Some [])
      end
  | b :: rest =>
      let restart :=
        match lead_of b with
        | Lead_ascii c => cons c <$> utf8_decode_from replace U_start rest
        | Lead_multi st' => utf8_decode_from replace st' rest
        | Lead_invalid => on_error (utf8_decode_from replace U_start rest)
        end in
      match st with
      | U_start => restart
      | U_cont need acc lo hi =>
          let n := Byte.to_N b in
          if ((lo <=? n) && (n <=? hi))%N then
            let acc' := (acc * 64 + N.land n 0x3F)%N in
            match need with
            | O => cons acc' <$> utf8_decode_from replace U_start rest
            | S need' =>
                utf8_decode_from replace (U_cont need' acc' 0x80 0xBF) rest
            end
          else on_error restart
      end
  end.

(** [data.decode('utf-8')]. *)
Definition decode_utf8 (data : bytes) : option text :=
  utf8_decode_from false U_start data.

(** [data.decode('utf-8', errors='replace')]: never raises. *)
Definition decode_utf8_replace (data : bytes) : text :=
  default [] (utf8_decode_from true U_start data).

(** [data.decode('latin-1')]: every byte is its own code point. *)
Definition decode_latin1 (data : bytes) : option text :=
  Some (Byte.to_N <$> data).

(** [s.strip('\x00')]. *)
Fixpoint lstrip_nul (s : text) : text :=
  match s with
  | c :: r => if (c =? 0)%N then lstrip_nul r else s
  | [] => []
  end.

Definition strip_nul (s : text) : text :=
  reverse (lstrip_nul (reverse (lstrip_nul s))).

(** [data.hex()]. *)
Definition hex_digit (n : N) : N :=
  (if n <? 10 then 48 + n else 87 + n)%N.

Definition hex (data : bytes) : text :=
  data ≫= λ b, [hex_digit (Byte.to_N b / 16); hex_digit (Byte.to_N b mod 16)].

(** *** [_decode_osc_message] *)

(** The locals of the method, each as a function of the datagram. *)
Definition address_end (data : bytes) : Z := find data x00 0.

Definition data_offset (data : bytes) : Z :=
  Z.land (address_end data + 4) (Z.lnot 0x03).

Definition data_tag_end (data : bytes) : Z :=
  let e := find data x00 (data_offset data) in
  if e =? -1 then len data else e.

Definition input_offset (data : bytes) : Z :=
  Z.land (data_tag_end data + 4) (Z.lnot 0x03).

Definition input_data_bytes (data : bytes) : bytes :=
  drop (Z.to_nat (input_offset data)) data.

(** The UTF-8, then Latin-1, then hex fallback chain for the payload. *)
Definition decode_input_data (bs : bytes) : text :=
  match decode_utf8 bs with
  | Some t => strip_nul t
  | None =>
      match decode_latin1 bs with
      | Some t => strip_nul t
      | None => hex bs
      end
  end.

(** The body of the outer [try]. *)
Definition decode_osc_message_body (data : bytes) : result (text * text) :=
  if address_end data =? -1
  then Raise (ValueError "No null terminator found for address")
  else
    let address :=
      decode_utf8_replace (take (Z.to_nat (address_end data)) data) in
    if data_offset data >=? len data
    then Raise (ValueError "Insufficient data for type tags")
    else if input_offset data >=? len data
    then Ok (address, [])
    else Ok (address, decode_input_data (input_data_bytes data)).

(** [except Exception]: the error is logged and two empty strings are
    returned. *)
Definition _decode_osc_message (data : bytes) : text * text :=
  match decode_osc_message_body data with
  | Ok r => r
  | Raise _ => ([], [])
  end.

(** *** [_encode_osc_message] *)

Definition _encode_osc_message (address : string) (data : Z) : result bytes :=
  let encoded_addr := utf8_encode address ++ [x00] in
  let padding := (4 - len encoded_addr mod 4) mod 4 in
  let encoded_addr := encoded_addr ++ replicate (Z.to_nat padding) x00 in
  let encoded_data := [x2c; x69; x00; x00] in
  match to_bytes 4 data with
  | Ok value_bytes => Ok (encoded_addr ++ encoded_data ++ value_bytes)
  | Raise e => Raise e
  end.

(** An ASCII address without an embedded NUL. *)
Definition ascii_no_nul (s : string) : Prop :=
  Forall (λ a, (0 < N_of_ascii a < 128)%N) (String.list_ascii_of_string s).

End Codec.


(** ** Input reassembler ([InputState], [UDPHandler._handle_user_input]) *)

Module Reassembly.

Record InputState := {
  uin1 : string;
  uin2 : string;
  timestamp : Z;
  is_complete : bool
}.

(** [InputState()]: the dataclass defaults. *)
Definition InputState_new : InputState :=
  {| uin1 := EmptyString; uin2 := EmptyString;
     timestamp := 0; is_complete := false |}.

Definition add_input (flag data : string) (now : Z) (self : InputState)
  : InputState * bool :=
  let self :=
    if String.eqb flag "/uin1" then
      {| uin1 := data; uin2 := uin2 self;
         timestamp := timestamp self; is_complete := is_complete self |}
    else if String.eqb flag "/uin2" then
      {| uin1 := uin1 self; uin2 := data;
         timestamp := timestamp self; is_complete := is_complete self |}
    else self in
  let self :=
    {| uin1 := uin1 self; uin2 := uin2 self;
       timestamp := now;
       is_complete := truthy (py_and (uin1 self) (uin2 self)) |} in
  (self, is_complete self).

Definition get_combined_hex (self : InputState) : string :=
  uin1 self +:+ uin2 self.

(** The sender of a datagram: [(host, port)]. *)
Definition addr : Type := string * Z.

(** What [_handle_user_input] hands to its collaborators: the combined
    string given to [message_processor], or the timeout task it creates. *)
Inductive effect :=
| Process (combined_hex : string)
| CreateTimeoutTask (session_key : addr).

(** [pending_inputs] is the only attribute of [UDPHandler] the method
    touches; the [InputState] stored under a key is mutated in place, which
    on this map is a re-insertion under the same key. *)
Definition _handle_user_input (flag data : string) (sender : addr) (now : Z)
    (pending_inputs : gmap addr InputState)
  : gmap addr InputState * list effect :=
  let session_key := sender in
  let pending_inputs :=
    match pending_inputs !! session_key with
    | None => <[session_key := InputState_new]> pending_inputs
    | Some _ => pending_inputs
    end in
  let input_state := default InputState_new (pending_inputs !! session_key) in
  let '(input_state, complete) := add_input flag data now input_state in
  let pending_inputs := <[session_key := input_state]> pending_inputs in
  if complete then
    let combined_hex := get_combined_hex input_state in
    (delete session_key pending_inputs, [Process combined_hex])
  else
    (pending_inputs, [CreateTimeoutTask session_key]).

(** [_timeout_incomplete_input] once its [sleep] has elapsed. *)
Definition _timeout_incomplete_input (session_key : addr)
    (pending_inputs : gmap addr InputState) : gmap addr InputState :=
  match pending_inputs !! session_key with
  | Some input_state =>
      if negb (is_complete input_state)
      then delete session_key pending_inputs
      else pending_inputs
  | None => pending_inputs
  end.

(** A fragment as it reaches [_handle_user_input]. *)
Record fragment := {
  f_flag : string;
  f_data : string;
  f_sender : addr;
  f_now : Z
}.

(** Fragments handled one after the other, in arrival order, with no
    timeout task firing in between; the effects are those of each
    fragment, in order. *)
Fixpoint handle_all (fs : list fragment) (pending_inputs : gmap addr InputState)
  : gmap addr InputState * list (list effect) :=
  match fs with
  | [] => (pending_inputs, [])
  | f :: fs' =>
      let '(p, e) :=
        _handle_user_input (f_flag f) (f_data f) (f_sender f) (f_now f)
          pending_inputs in
      let '(p', es) := handle_all fs' p in
      (p', e :: es)
  end.

(** The combined inputs among a list of effects. *)
Definition processed (es : list effect) : list string :=
  es ≫= λ e, match e with Process c => [c] | CreateTimeoutTask _ => [] end.

End Reassembly.

(** ** Debounce buffer ([InputBuffer]) *)

Module Buffer.

Record BufferedEntry := {
  data : string;
  timestamp : Z
}.

Record InputBuffer := {
  buffer : list BufferedEntry;
  buffer_event : bool
}.

Definition InputBuffer_new : InputBuffer :=
  {| buffer := []; buffer_event := false |}.

Definition add_combined_input (combined_hex : string) (now : Z)
    (self : InputBuffer) : InputBuffer :=
  {| buffer := buffer self ++ [{| data := combined_hex; timestamp := now |}];
     buffer_event := true |}.

(** One turn of the loop of [process_buffer], from the moment the lock is
    taken: the new buffer and the calls made to [processor].  [last] is
    [buffer[-1]]; it is looked up only under [if self.buffer]. *)
Definition process_buffer (self : InputBuffer) : InputBuffer * list string :=
  match buffer self with
  | [] => (self, [])
  | _ :: _ =>
      match last (buffer self) with
      | Some entry =>
          let latest_input := data entry in
          ({| buffer := []; buffer_event := false |}, [latest_input])
      | None => (self, [])
      end
  end.

End Buffer.

(** ** State model ([SystemState]) and engine ([DBNEngine]), by value

    Here a [SystemState] is the value it holds; the objects, their
    references and [copy] are in [Module Store] below, which shows that
    the two states of the engine never share storage. *)

Module State.

Record SystemState := {
  sustain : Z;
  density_function : Z;
  key_center : Z;
  ranks : list (list Z)
}.

(** [SystemState()]: the dataclass defaults. *)
Definition SystemState_new : SystemState :=
  {| sustain := 0; density_function := 0; key_center := 0;
     ranks := replicate 8 (replicate 4 0) |}.

(** A method of an object of class [S] that may raise: the outcome, and
    the object as the method left it. *)
Definition method (S A : Type) : Type := S → result A * S.

#[global] Instance method_ret {S} : MRet (method S) :=
  λ A a s, (Ok a, s).
#[global] Instance method_bind {S} : MBind (method S) :=
  λ A B f m s,
    match m s with
    | (Ok a, s') => f a s'
    | (Raise e, s') => (Raise e, s')
    end.

Definition raise {S A} (e : exn) : method S A := λ s, (Raise e, s).
Definition assign {S} (f : S → S) : method S unit := λ s, (Ok tt, f s).
Definition self {S} : method S S := λ s, (Ok s, s).

(** [for x in xs: body(x)]. *)
Fixpoint for_each {S A} (xs : list A) (body : A → method S unit)
  : method S unit :=
  match xs with
  | [] => mret tt
  | x :: xs' => body x ≫= λ _, for_each xs' body
  end.

(** [[f(x) for x in xs]]: the list is built before anything is stored. *)
Fixpoint comprehension {S A B} (f : A → method S B) (xs : list A)
  : method S (list B) :=
  match xs with
  | [] => mret []
  | x :: xs' => y ← f x; ys ← comprehension f xs'; mret (y :: ys)
  end.

(** [int(c, 16)] for a one-character string whose character is a code
    point below 256: there [int] accepts the hexadecimal digits and
    nothing else (sign, underscore and blank alone are rejected, and the
    other decimal digits of Unicode all lie above 255). *)
Definition hex_value (c : ascii) : option Z :=
  let n := Z.of_N (N_of_ascii c) in
  if (48 <=? n) && (n <=? 57) then Some (n - 48)
  else if (97 <=? n) && (n <=? 102) then Some (n - 87)
  else if (65 <=? n) && (n <=? 70) then Some (n - 55)
  else None.

Definition int16 {S} (c : ascii) : method S Z :=
  match hex_value c with
  | Some v => mret v
  | None => raise (ValueError "invalid literal for int() with base 16")
  end.

(** [s[i]] and [s[start:end]]. *)
Definition char_at {S} (s : string) (i : nat) : method S ascii :=
  match String.list_ascii_of_string s !! i with
  | Some c => mret c
  | None => raise IndexError
  end.

Definition slice (s : string) (start_idx end_idx : nat) : list ascii :=
  take (end_idx - start_idx) (drop start_idx (String.list_ascii_of_string s)).

Definition set_sustain (v : Z) (self : SystemState) : SystemState :=
  {| sustain := v; density_function := density_function self;
     key_center := key_center self; ranks := ranks self |}.
Definition set_density_function (v : Z) (self : SystemState) : SystemState :=
  {| sustain := sustain self; density_function := v;
     key_center := key_center self; ranks := ranks self |}.
Definition set_key_center (v : Z) (self : SystemState) : SystemState :=
  {| sustain := sustain self; density_function := density_function self;
     key_center := v; ranks := ranks self |}.

(** [self.ranks[i] = rank]: [IndexError] out of range. *)
Definition set_rank (i : nat) (rank : list Z) : method SystemState unit :=
  λ self,
    if bool_decide (i < length (ranks self))%nat then
      (Ok tt,
       {| sustain := sustain self; density_function := density_function self;
          key_center := key_center self; ranks := <[i := rank]> (ranks self) |})
    else (Raise IndexError, self).

Definition expected_length : Z := 3 + 8 * 4.

Definition update_from_combined_input (combined_hex : string)
  : method SystemState unit :=
  if negb (Z.of_nat (String.length combined_hex) =? expected_length)
  then raise (ValueError "Expected 35 hex chars")
  else
    c ← char_at combined_hex 0; v ← int16 c; assign (set_sustain v);;
    c ← char_at combined_hex 1; v ← int16 c; assign (set_density_function v);;
    c ← char_at combined_hex 2; v ← int16 c; assign (set_key_center v);;
    for_each (seq 0 8) (λ i,
      let start_idx := (3 + i * 4)%nat in
      let end_idx := (start_idx + 4)%nat in
      let rank_hex := slice combined_hex start_idx end_idx in
      rank ← comprehension int16 rank_hex;
      set_rank i rank).

(** A value of the dict [get_changes] returns: an int or a rank. *)
Inductive change :=
| Changed_int (v : Z)
| Changed_rank (rank : list Z).

(** The loop of [get_changes]: one key [rank_<i+1>] for each pair that
    differs. *)
Fixpoint rank_changes (i : nat) (pairs : list (list Z * list Z))
  : list (string * change) :=
  match pairs with
  | [] => []
  | (current_rank, prev_rank) :: rest =>
      (if bool_decide (current_rank ≠ prev_rank)
       then [("rank_" +:+ pretty (i + 1)%nat, Changed_rank current_rank)]
       else [])
      ++ rank_changes (S i) rest
  end.

(** [get_changes]: the dict as the list of its items in insertion order
    (no key is inserted twice, see [get_changes_keys] below). *)
Definition get_changes (self previous_state : SystemState)
  : list (string * change) :=
  (if bool_decide (sustain self ≠ sustain previous_state)
   then [("sustain"%string, Changed_int (sustain self))] else [])
  ++ (if bool_decide (density_function self ≠ density_function previous_state)
      then [("density_function"%string, Changed_int (density_function self))]
      else [])
  ++ (if bool_decide (key_center self ≠ key_center previous_state)
      then [("key_center"%string, Changed_int (key_center self))] else [])
  ++ rank_changes 0 (zip (ranks self) (ranks previous_state)).

(** [copy], by value: the same fields, each rank copied. *)
Definition copy (self : SystemState) : SystemState :=
  {| sustain := sustain self;
     density_function := density_function self;
     key_center := key_center self;
     ranks := (λ rank : list Z, rank) <$> ranks self |}.

Record DBNEngine := {
  current_state : SystemState;
  previous_state : SystemState
}.

Definition DBNEngine_new : DBNEngine :=
  {| current_state := SystemState_new; previous_state := SystemState_new |}.

(** The methods [_run_dbn_algorithm] reaches, in call order. *)
Inductive call :=
| Send_current_values
| Execute_full_dbn
| Substitute_rank (rank_index : Z).

(** [for i, (c, p) in enumerate(zip(...)): if c != p: return i + 1]. *)
Fixpoint scan_ranks (i : nat) (pairs : list (list Z * list Z)) : Z :=
  match pairs with
  | [] => 0
  | (current_rank, prev_rank) :: rest =>
      if bool_decide (current_rank ≠ prev_rank) then Z.of_nat i + 1
      else scan_ranks (S i) rest
  end.

Definition _check_bypass_rank (self : DBNEngine) : Z :=
  scan_ranks 0 (zip (ranks (current_state self)) (ranks (previous_state self))).

Definition _send_current_values (self : DBNEngine)
  : list call * list (string * Z) :=
  let messages :=
    [("/sustain"%string, sustain (current_state self));
     ("/keyCenter"%string, key_center (current_state self))] in
  ([Send_current_values], messages).

Definition _execute_full_dbn (self : DBNEngine)
  : list call * list (string * Z) :=
  let '(calls, messages) := _send_current_values self in
  (Execute_full_dbn :: calls, messages).

Definition _substitute_rank (self : DBNEngine) (rank_index : Z)
  : list call * list (string * Z) :=
  let '(calls, messages) := _send_current_values self in
  (Substitute_rank rank_index :: calls, messages).

Definition _run_dbn_algorithm (self : DBNEngine)
  : list call * list (string * Z) :=
  let bypass_rank := _check_bypass_rank self in
  if bypass_rank =? 0 then _send_current_values self
  else if bypass_rank <? 7 then _execute_full_dbn self
  else _substitute_rank self bypass_rank.

(** What one call of [process_input] did: the methods the dispatch
    reached and the messages given to [send_message], in order, or the
    exception its [except] clause logged. *)
Inductive outcome :=
| Sent (calls : list call) (messages : list (string * Z))
| Logged (e : exn).

Definition messages_of (o : outcome) : list (string * Z) :=
  match o with Sent _ ms => ms | Logged _ => [] end.

Definition process_input (combined_hex : string) (self : DBNEngine)
  : DBNEngine * outcome :=
  let self :=
    {| current_state := current_state self;
       previous_state := copy (current_state self) |} in
  match update_from_combined_input combined_hex (current_state self) with
  | (Ok _, current) =>
      let self :=
        {| current_state := current; previous_state := previous_state self |} in
      let '(calls, messages) := _run_dbn_algorithm self in
      (self, Sent calls messages)
  | (Raise e, current) =>
      ({| current_state := current; previous_state := previous_state self |},
       Logged e)
  end.

End State.


(** ** The same engine over a store of objects

    A [SystemState] object has three int attributes and a reference to a
    list object whose items are references to lists of ints.  Objects of
    the three classes live in three maps; [copy] and the list
    comprehensions of [update_from_combined_input] create new objects. *)

Module Store.

Definition loc := positive.

Record SystemState_obj := {
  o_sustain : Z;
  o_density_function : Z;
  o_key_center : Z;
  o_ranks : loc
}.

#[global] Instance SystemState_obj_inhabited : Inhabited SystemState_obj :=
  populate {| o_sustain := 0; o_density_function := 0; o_key_center := 0;
              o_ranks := 1%positive |}.

Record store := {
  states : gmap loc SystemState_obj;
  rank_lists : gmap loc (list loc);
  int_lists : gmap loc (list Z)
}.

Definition with_states (f : gmap loc SystemState_obj → gmap loc SystemState_obj)
    (σ : store) : store :=
  {| states := f (states σ); rank_lists := rank_lists σ;
     int_lists := int_lists σ |}.
Definition with_rank_lists (f : gmap loc (list loc) → gmap loc (list loc))
    (σ : store) : store :=
  {| states := states σ; rank_lists := f (rank_lists σ);
     int_lists := int_lists σ |}.
Definition with_int_lists (f : gmap loc (list Z) → gmap loc (list Z))
    (σ : store) : store :=
  {| states := states σ; rank_lists := rank_lists σ;
     int_lists := f (int_lists σ) |}.

(** Creating an object: a reference no object of the class has yet. *)
Definition new_int_list (vals : list Z) (σ : store) : loc * store :=
  let l := fresh (dom (int_lists σ)) in
  (l, with_int_lists (insert l vals) σ).

Definition new_rank_list (items : list loc) (σ : store) : loc * store :=
  let l := fresh (dom (rank_lists σ)) in
  (l, with_rank_lists (insert l items) σ).

Definition new_state (o : SystemState_obj) (σ : store) : loc * store :=
  let l := fresh (dom (states σ)) in
  (l, with_states (insert l o) σ).

(** [[rank.copy() for rank in self.ranks]]. *)
Fixpoint copy_ranks (items : list loc) (σ : store) : list loc * store :=
  match items with
  | [] => ([], σ)
  | rank :: rest =>
      let '(l, σ) := new_int_list (int_lists σ !!! rank) σ in
      let '(ls, σ) := copy_ranks rest σ in
      (l :: ls, σ)
  end.

Definition copy (self : loc) (σ : store) : loc * store :=
  let o := states σ !!! self in
  let '(items, σ) := copy_ranks (rank_lists σ !!! o_ranks o) σ in
  let '(ranks, σ) := new_rank_list items σ in
  new_state {| o_sustain := o_sustain o;
               o_density_function := o_density_function o;
               o_key_center := o_key_center o;
               o_ranks := ranks |} σ.

Definition set_sustain (v : Z) (o : SystemState_obj) : SystemState_obj :=
  {| o_sustain := v; o_density_function := o_density_function o;
     o_key_center := o_key_center o; o_ranks := o_ranks o |}.
Definition set_density_function (v : Z) (o : SystemState_obj)
  : SystemState_obj :=
  {| o_sustain := o_sustain o; o_density_function := v;
     o_key_center := o_key_center o; o_ranks := o_ranks o |}.
Definition set_key_center (v : Z) (o : SystemState_obj) : SystemState_obj :=
  {| o_sustain := o_sustain o; o_density_function := o_density_function o;
     o_key_center := v; o_ranks := o_ranks o |}.

(** [self.attr = v]. *)
Definition setattr (self : loc) (f : SystemState_obj → SystemState_obj)
  : State.method store unit :=
  State.assign (λ σ, with_states (insert self (f (states σ !!! self))) σ).

(** [self.ranks[i] = rank], [rank] being the list just built. *)
Definition set_rank (self : loc) (i : nat) (rank : list Z)
  : State.method store unit :=
  λ σ,
    let '(l, σ) := new_int_list rank σ in
    let ranks := o_ranks (states σ !!! self) in
    let items := rank_lists σ !!! ranks in
    if bool_decide (i < length items)%nat
    then (Ok tt, with_rank_lists (insert ranks (<[i := l]> items)) σ)
    else (Raise IndexError, σ).

Definition update_from_combined_input (self : loc) (combined_hex : string)
  : State.method store unit :=
  if negb (Z.of_nat (String.length combined_hex) =? State.expected_length)
  then State.raise (ValueError "Expected 35 hex chars")
  else
    c ← State.char_at combined_hex 0; v ← State.int16 c;
    setattr self (set_sustain v);;
    c ← State.char_at combined_hex 1; v ← State.int16 c;
    setattr self (set_density_function v);;
    c ← State.char_at combined_hex 2; v ← State.int16 c;
    setattr self (set_key_center v);;
    State.for_each (seq 0 8) (λ i,
      let start_idx := (3 + i * 4)%nat in
      let end_idx := (start_idx + 4)%nat in
      let rank_hex := State.slice combined_hex start_idx end_idx in
      rank ← State.comprehension State.int16 rank_hex;
      set_rank self i rank).

(** The value an object holds. *)
Definition read_state (σ : store) (l : loc) : State.SystemState :=
  let o := states σ !!! l in
  {| State.sustain := o_sustain o;
     State.density_function := o_density_function o;
     State.key_center := o_key_center o;
     State.ranks := (λ rank, int_lists σ !!! rank) <$>
                      (rank_lists σ !!! o_ranks o) |}.

(** [l] refers to a [SystemState] whose lists all exist. *)
Definition is_state (σ : store) (l : loc) : Prop :=
  ∃ o items,
    states σ !! l = Some o ∧ rank_lists σ !! o_ranks o = Some items ∧
    Forall (λ rank, is_Some (int_lists σ !! rank)) items.

Record DBNEngine := {
  current_state : loc;
  previous_state : loc
}.

Definition read_engine (σ : store) (self : DBNEngine) : State.DBNEngine :=
  {| State.current_state := read_state σ (current_state self);
     State.previous_state := read_state σ (previous_state self) |}.

(** [DBNEngine.__init__]: two [SystemState()] objects. *)
Fixpoint new_int_lists (vals : list (list Z)) (σ : store) : list loc * store :=
  match vals with
  | [] => ([], σ)
  | v :: rest =>
      let '(l, σ) := new_int_list v σ in
      let '(ls, σ) := new_int_lists rest σ in
      (l :: ls, σ)
  end.

Definition new_default_state (σ : store) : loc * store :=
  let '(items, σ) := new_int_lists (replicate 8 (replicate 4 0)) σ in
  let '(ranks, σ) := new_rank_list items σ in
  new_state {| o_sustain := 0; o_density_function := 0; o_key_center := 0;
               o_ranks := ranks |} σ.

Definition empty_store : store :=
  {| states := ∅; rank_lists := ∅; int_lists := ∅ |}.

Definition DBNEngine_new : DBNEngine * store :=
  let '(c, σ) := new_default_state empty_store in
  let '(p, σ) := new_default_state σ in
  ({| current_state := c; previous_state := p |}, σ).

Definition process_input (combined_hex : string) (self : DBNEngine) (σ : store)
  : DBNEngine * State.outcome * store :=
  let '(snapshot, σ) := copy (current_state self) σ in
  let self :=
    {| current_state := current_state self; previous_state := snapshot |} in
  match update_from_combined_input (current_state self) combined_hex σ with
  | (Ok _, σ) =>
      let '(calls, messages) := State._run_dbn_algorithm (read_engine σ self) in
      (self, State.Sent calls messages, σ)
  | (Raise e, σ) => (self, State.Logged e, σ)
  end.

(** The storage of the object [l]: the object, its list of ranks, and
    the ranks. *)
Definition same_outside (l : loc) (σ σ' : store) : Prop :=
  let ranks := o_ranks (states σ !!! l) in
  let items := rank_lists σ !!! ranks in
  (∀ k, k ≠ l → states σ' !! k = states σ !! k) ∧
  (∀ k, k ≠ ranks → rank_lists σ' !! k = rank_lists σ !! k) ∧
  (∀ k, k ∉ items → int_lists σ' !! k = int_lists σ !! k).

End Store.


(** ** The older variant ([NecromoireMKiTest.py])

    Its state is a set of module globals, each a two-item list
    [[current, next]].  [rank[0] = rank[1]] makes both items one list
    object, but the only later write to [rank[1]] ([route_to_DBN]) stores
    a new list there and never changes the shared one in place, so the
    two items are modelled as two values. *)

Module Legacy.

Record globals := {
  sustain : Z * Z;
  densityFunction : Z * Z;
  keyCenter : Z * Z;
  ranks : list (list Z * list Z)
}.

Definition globals_init : globals :=
  {| sustain := (0, 0); densityFunction := (0, 0); keyCenter := (0, 0);
     ranks := replicate 8 (replicate 4 0, replicate 4 0) |}.

Inductive call :=
| ActuallyRunDBN
| SubsRank
| UpdateNextsToCurrents
| SendValues.

(** [for i, rank in enumerate(ranks, start=1): if rank[0] != rank[1]:
    return i]. *)
Fixpoint scan_ranks (i : Z) (ranks : list (list Z * list Z)) : Z :=
  match ranks with
  | [] => 0
  | rank :: rest =>
      if bool_decide (rank.1 ≠ rank.2) then i else scan_ranks (i + 1) rest
  end.

Definition checkBypass (g : globals) : Z := scan_ranks 1 (ranks g).

Definition sendValues (g : globals) : list call * list (string * Z) :=
  ([SendValues],
   [("/sustain"%string, (sustain g).1); ("/keyCenter"%string, (keyCenter g).1)]).

Definition updateNextsToCurrents (g : globals)
  : globals * (list call * list (string * Z)) :=
  let g :=
    {| sustain := ((sustain g).2, (sustain g).2);
       densityFunction := ((densityFunction g).2, (densityFunction g).2);
       keyCenter := ((keyCenter g).2, (keyCenter g).2);
       ranks := (λ rank : list Z * list Z, (rank.2, rank.2)) <$> ranks g |} in
  let '(calls, messages) := sendValues g in
  (g, (UpdateNextsToCurrents :: calls, messages)).

Definition actuallyRunDBN (g : globals)
  : globals * (list call * list (string * Z)) :=
  let '(g, (calls, messages)) := updateNextsToCurrents g in
  (g, (ActuallyRunDBN :: calls, messages)).

Definition subsRank (g : globals)
  : globals * (list call * list (string * Z)) :=
  let '(g, (calls, messages)) := updateNextsToCurrents g in
  (g, (SubsRank :: calls, messages)).

(** [while c: return f()] returns at once when [c] holds, so each loop is
    a conditional; an int is true when it is not 0. *)
Definition DBN (g : globals) : globals * (list call * list (string * Z)) :=
  let null_means_bypass := checkBypass g in
  if null_means_bypass <? 7 then actuallyRunDBN g
  else if negb (null_means_bypass =? 0) then subsRank g
  else updateNextsToCurrents g.

Definition set_next {A} (v : A) (p : A * A) : A * A := (p.1, v).

(** [route_to_DBN] up to its final [return DBN()]. *)
Definition parse_uin (uin : string) : State.method globals unit :=
  c ← State.char_at uin 0; v ← State.int16 c;
  State.assign (λ g,
    {| sustain := set_next v (sustain g);
       densityFunction := densityFunction g;
       keyCenter := keyCenter g; ranks := ranks g |});;
  c ← State.char_at uin 1; v ← State.int16 c;
  State.assign (λ g,
    {| sustain := sustain g;
       densityFunction := set_next v (densityFunction g);
       keyCenter := keyCenter g; ranks := ranks g |});;
  c ← State.char_at uin 2; v ← State.int16 c;
  State.assign (λ g,
    {| sustain := sustain g; densityFunction := densityFunction g;
       keyCenter := set_next v (keyCenter g); ranks := ranks g |});;
  g ← State.self;
  State.for_each (seq 1 (length (ranks g))) (λ i,
    let start_idx := (3 + (i - 1) * 4)%nat in
    let end_idx := (start_idx + 4)%nat in
    next ← State.comprehension State.int16 (State.slice uin start_idx end_idx);
    State.assign (λ g,
      {| sustain := sustain g; densityFunction := densityFunction g;
         keyCenter := keyCenter g;
         ranks := alter (set_next next) (i - 1)%nat (ranks g) |})).

Definition route_to_DBN (uin : string)
  : State.method globals (list call * list (string * Z)) :=
  parse_uin uin;;
  ((λ g, let '(g, r) := DBN g in (Ok r, g))
     : State.method globals (list call * list (string * Z))).

(** One turn of the loop of [buffer_processor], from the moment the lock
    is taken: the new buffer and the inputs given to [route_to_DBN]. *)
Definition buffer_processor (input_buffer : list string)
  : list string * list string :=
  match input_buffer with
  | [] => (input_buffer, [])
  | _ :: _ =>
      match last input_buffer with
      | Some last_input => ([], [last_input])
      | None => (input_buffer, [])
      end
  end.

End Legacy.


(** ** The controller ([NecromoireController])

    [__init__] wires the three parts: the handler's [message_processor]
    is [_process_combined_input], which appends to the buffer; the
    buffer's [processor] is the engine's [process_input]. *)

Module Controller.

Record NecromoireController := {
  pending_inputs : gmap Reassembly.addr Reassembly.InputState;
  input_buffer : Buffer.InputBuffer;
  dbn_engine : State.DBNEngine
}.

Definition NecromoireController_new : NecromoireController :=
  {| pending_inputs := ∅;
     input_buffer := Buffer.InputBuffer_new;
     dbn_engine := State.DBNEngine_new |}.

(** [_process_combined_input]; [now] is the clock [add_combined_input]
    reads. *)
Definition _process_combined_input (combined_hex : string) (now : Z)
    (self : NecromoireController) : NecromoireController :=
  {| pending_inputs := pending_inputs self;
     input_buffer :=
       Buffer.add_combined_input combined_hex now (input_buffer self);
     dbn_engine := dbn_engine self |}.

(** [udp_handler._handle_user_input] with that [message_processor]. *)
Definition _handle_user_input (f : Reassembly.fragment) (now : Z)
    (self : NecromoireController)
  : NecromoireController * list Reassembly.effect :=
  let '(pending, effects) :=
    Reassembly._handle_user_input
      (Reassembly.f_flag f) (Reassembly.f_data f)
      (Reassembly.f_sender f) (Reassembly.f_now f) (pending_inputs self) in
  let self :=
    {| pending_inputs := pending; input_buffer := input_buffer self;
       dbn_engine := dbn_engine self |} in
  (foldl (λ self combined_hex, _process_combined_input combined_hex now self)
         self (Reassembly.processed effects),
   effects).

(** One turn of [input_buffer.process_buffer] with the engine as its
    [processor]: the outcomes of the calls it makes, in order. *)
Definition process_buffer (self : NecromoireController)
  : NecromoireController * list State.outcome :=
  let '(input_buffer, inputs) := Buffer.process_buffer (input_buffer self) in
  let '(engine, outcomes) :=
    foldl (λ '(engine, outcomes) combined_hex,
             let '(engine, o) := State.process_input combined_hex engine in
             (engine, outcomes ++ [o]))
          (dbn_engine self, []) inputs in
  ({| pending_inputs := pending_inputs self; input_buffer := input_buffer;
      dbn_engine := engine |},
   outcomes).

End Controller.


(** * Notions the theorems are stated with *)

(** Rank [k] (counted from 0) is present on both sides and differs. *)
Definition differs (pairs : list (list Z * list Z)) (k : nat) : Prop :=
  ∃ c p, pairs !! k = Some (c, p) ∧ c ≠ p.

(** The engine that compares what the legacy globals hold: their next
    values are its current state, their current values its previous
    state. *)
Definition engine_of_globals (g : Legacy.globals) : State.DBNEngine :=
  {| State.current_state :=
       {| State.sustain := (Legacy.sustain g).2;
          State.density_function := (Legacy.densityFunction g).2;
          State.key_center := (Legacy.keyCenter g).2;
          State.ranks := snd <$> Legacy.ranks g |};
     State.previous_state :=
       {| State.sustain := (Legacy.sustain g).1;
          State.density_function := (Legacy.densityFunction g).1;
          State.key_center := (Legacy.keyCenter g).1;
          State.ranks := fst <$> Legacy.ranks g |} |}.

(** An engine whose previous state is the default one and whose current
    state differs from it in rank [k] (counted from 0) only. *)
Definition engine_with_rank (k : nat) : State.DBNEngine :=
  {| State.current_state :=
       {| State.sustain := 0; State.density_function := 0;
          State.key_center := 0;
          State.ranks := <[k := [0; 0; 0; 1]]> (replicate 8 (replicate 4 0)) |};
     State.previous_state := State.SystemState_new |}.

(** The routing as the specification words it: indices 1 to 7 take the
    full recompute, index 8 the single-rank substitution, index 0 the
    plain re-emission. *)
Definition routing_as_specified : Prop :=
  ∀ self : State.DBNEngine,
    let index := State._check_bypass_rank self in
    let calls := (State._run_dbn_algorithm self).1 in
    (1 ≤ index ≤ 7 →
     calls = [State.Execute_full_dbn; State.Send_current_values]) ∧
    (index = 8 →
     calls = [State.Substitute_rank 8; State.Send_current_values]) ∧
    (index = 0 → calls = [State.Send_current_values]).

(** The state a fragment leaves recorded for its sender, before the
    entry is removed on completion. *)
Definition recorded (flag data : string) (sender : Reassembly.addr) (now : Z)
    (pending_inputs : gmap Reassembly.addr Reassembly.InputState)
  : Reassembly.InputState :=
  (Reassembly.add_input flag data now
     (default Reassembly.InputState_new (pending_inputs !! sender))).1.

(** [m] re-establishes [I] however it ends. *)
Definition keeps {S A} (I : S → Prop) (m : State.method S A) : Prop :=
  ∀ s r s', I s → m s = (r, s') → I s'.

(** Two methods run in step: from related objects they end the same way,
    on related objects. *)
Definition sim {S1 S2 A} (R : S1 → S2 → Prop)
    (m1 : State.method S1 A) (m2 : State.method S2 A) : Prop :=
  ∀ s1 s2, R s1 s2 → (m1 s1).1 = (m2 s2).1 ∧ R (m1 s1).2 (m2 s2).2.

(** What [Store.update_from_combined_input] may touch.  Relative to the
    store [σ0] it starts from, the method rewrites the object [self]
    (keeping its [ranks] reference), rewrites the list that reference
    names, and creates lists of ints; every item of the list is an old
    item or a list created since. *)
Definition updated_from (self : Store.loc) (σ0 σ : Store.store) : Prop :=
  ∃ o0 o items0 items,
    Store.states σ0 !! self = Some o0 ∧
    Store.states σ = <[self := o]> (Store.states σ0) ∧
    Store.o_ranks o = Store.o_ranks o0 ∧
    Store.rank_lists σ0 !! Store.o_ranks o0 = Some items0 ∧
    Store.rank_lists σ = <[Store.o_ranks o0 := items]> (Store.rank_lists σ0) ∧
    Store.int_lists σ0 ⊆ Store.int_lists σ ∧
    Forall (λ l, is_Some (Store.int_lists σ !! l) ∧
                 (l ∈ items0 ∨ Store.int_lists σ0 !! l = None)) items.

(** The object [self] of the store holds the value [st]. *)
Definition holds (self : Store.loc) (σ : Store.store)
    (st : State.SystemState) : Prop :=
  Store.is_state σ self ∧ Store.read_state σ self = st.

(** The decoding of a frame without payload as the specification words
    it: a frame (its address has a terminator) whose payload offset is at
    or past the end of the buffer decodes, without error, to its address
    and the empty payload. *)
Definition payload_offset_as_specified : Prop :=
  ∀ data : bytes,
    Codec.address_end data ≠ -1 →
    len data ≤ Codec.input_offset data →
    Codec.decode_osc_message_body data =
      Ok (Codec.decode_utf8_replace
            (take (Z.to_nat (Codec.address_end data)) data), []).

(** The characters [int(c, 16)] accepts among the code points below
    256. *)
Definition hex_digits : list ascii :=
  String.list_ascii_of_string "0123456789abcdefABCDEF".

(** A nibble, and a state as the system keeps it: three nibbles and
    eight ranks of four nibbles. *)
Definition nibble (v : Z) : Prop := 0 ≤ v ≤ 15.

Definition well_formed (st : State.SystemState) : Prop :=
  nibble (State.sustain st) ∧ nibble (State.density_function st) ∧
  nibble (State.key_center st) ∧
  length (State.ranks st) = 8%nat ∧
  Forall (λ rank, length rank = 4%nat ∧ Forall nibble rank) (State.ranks st).

(** [m], when it returns, returns a value that satisfies [P]. *)
Definition returns {S A} (m : State.method S A) (P : A → Prop) : Prop :=
  ∀ s a s', m s = (Ok a, s') → P a.

(** The keys [get_changes] uses for the scalar fields. *)
Definition scalar_keys : list string :=
  ["sustain"; "density_function"; "key_center"]%string.

(** An entry of [pending_inputs] that waits for a half: its flag is
    unset and one of its halves is empty. *)
Definition incomplete (st : Reassembly.InputState) : Prop :=
  Reassembly.is_complete st = false ∧
  (Reassembly.uin1 st = EmptyString ∨ Reassembly.uin2 st = EmptyString).

Definition all_incomplete
    (pending_inputs : gmap Reassembly.addr Reassembly.InputState) : Prop :=
  map_Forall (λ _ st, incomplete st) pending_inputs.

(** The event of the buffer is set exactly when the buffer holds
    something. *)
Definition event_matches (b : Buffer.InputBuffer) : Prop :=
  Buffer.buffer_event b = true ↔ Buffer.buffer b ≠ [].

(** Inputs of the examples. *)
Definition example_hex : string := "012000A0000000000000000000000000000".
Definition all_zero_hex : string := "01200000000000000000000000000000000".
Definition invalid_digit_hex : string := "1g200000000000000000000000000000000".

(** * Theorems *)

(** ** Change classification and dispatch *)

Section Classification.
Import State.

Lemma scan_ranks_bounds i pairs :
  scan_ranks i pairs = 0 ∨
  Z.of_nat i + 1 ≤ scan_ranks i pairs ≤ Z.of_nat i + len pairs.
Proof.
  revert i. induction pairs as [|[c p] rest IH]; intros i; simpl; [by left|].
  unfold len in *. case_bool_decide; [right; simpl; lia|].
  destruct (IH (S i)) as [->|?]; [by left|right]. simpl. lia.
Qed.

Lemma scan_ranks_zero i pairs :
  scan_ranks i pairs = 0 ↔ ∀ k, ¬ differs pairs k.
Proof.
  revert i. induction pairs as [|[c p] rest IH]; intros i; simpl.
  - split; [|done]. intros _ k (? & ? & Hk & _). by rewrite lookup_nil in Hk.
  - case_bool_decide as Hcp.
    + split; [lia|]. intros Hno. destruct (Hno 0%nat). by exists c, p.
    + rewrite IH. split.
      * intros Hno [|k] (c' & p' & Hk & Hne); simpl in Hk.
        -- simplify_eq; by try apply Hcp.
        -- apply (Hno k). by exists c', p'.
      * intros Hno k (c' & p' & Hk & Hne). apply (Hno (S k)). by exists c', p'.
Qed.

Lemma scan_ranks_first i pairs k :
  scan_ranks i pairs = Z.of_nat (i + k) + 1 ↔
  differs pairs k ∧ ∀ j, (j < k)%nat → ¬ differs pairs j.
Proof.
  revert i k. induction pairs as [|[c p] rest IH]; intros i k; simpl.
  - split; [lia|]. intros [(? & ? & Hk & _) _]. by rewrite lookup_nil in Hk.
  - case_bool_decide as Hcp.
    + split.
      * intros Hk. assert (k = 0%nat) as -> by lia. split; [by exists c, p|lia].
      * intros [_ Hfirst]. destruct k as [|k]; [f_equal; lia|].
        destruct (Hfirst 0%nat); [lia|]. by exists c, p.
    + destruct k as [|k].
      * split.
        -- intros Hk. destruct (scan_ranks_bounds (S i) rest); lia.
        -- intros [(c' & p' & Hk & Hne) _]. simpl in Hk. simplify_eq; by try destruct Hcp.
      * replace (i + S k)%nat with (S i + k)%nat by lia. rewrite IH. split.
        -- intros [(c' & p' & Hk & Hne) Hfirst]. split; [by exists c', p'|].
           intros [|j] Hj (c'' & p'' & Hj' & Hne'); simpl in Hj'.
           ++ simplify_eq; by try apply Hcp.
           ++ apply (Hfirst j); [lia|]. by exists c'', p''.
        -- intros [(c' & p' & Hk & Hne) Hfirst]. split; [by exists c', p'|].
           intros j Hj (c'' & p'' & Hj' & Hne'). apply (Hfirst (S j)); [lia|].
           by exists c'', p''.
Qed.

Lemma legacy_scan_ranks i (ranks : list (list Z * list Z)) :
  Legacy.scan_ranks (Z.of_nat i + 1) ranks =
  scan_ranks i ((λ rank, (rank.2, rank.1)) <$> ranks).
Proof.
  revert i. induction ranks as [|[c n] rest IH]; intros i; simpl; [done|].
  repeat case_bool_decide; try done; try congruence.
  rewrite <- IH. f_equal. lia.
Qed.

Lemma legacy_checkBypass g :
  Legacy.checkBypass g = _check_bypass_rank (engine_of_globals g).
Proof.
  unfold Legacy.checkBypass, _check_bypass_rank. simpl.
  rewrite (legacy_scan_ranks 0). f_equal.
  induction (Legacy.ranks g) as [|[??] ? IH]; simpl; [done|]. by f_equal.
Qed.

(** C3.  [_check_bypass_rank] scans the ranks of the two states pairwise in
    order and returns the 1-based index of the first rank whose value, as a
    whole list, differs from the previous state's; it returns 0 exactly
    when no rank differs.  The result does not depend on [sustain],
    [density_function] or [key_center].  The legacy [checkBypass] computes
    the same index on the globals. *)
Theorem check_bypass_rank_first_changed :
  (∀ self : DBNEngine,
     let pairs :=
       zip (ranks (current_state self)) (ranks (previous_state self)) in
     (_check_bypass_rank self = 0 ↔ ∀ k, ¬ differs pairs k) ∧
     (∀ k, _check_bypass_rank self = Z.of_nat k + 1 ↔
           differs pairs k ∧ ∀ j, (j < k)%nat → ¬ differs pairs j) ∧
     (_check_bypass_rank self = 0 ∨ 1 ≤ _check_bypass_rank self ≤ len pairs) ∧
     (∀ s d k s' d' k',
        _check_bypass_rank
          {| current_state :=
               {| sustain := s; density_function := d; key_center := k;
                  ranks := ranks (current_state self) |};
             previous_state :=
               {| sustain := s'; density_function := d'; key_center := k';
                  ranks := ranks (previous_state self) |} |}
        = _check_bypass_rank self)) ∧
  (∀ g : Legacy.globals,
     Legacy.checkBypass g = _check_bypass_rank (engine_of_globals g)).
Proof.
  split; [|apply legacy_checkBypass].
  intros self. unfold _check_bypass_rank. simpl. split_and!.
  - apply scan_ranks_zero.
  - intros k. apply (scan_ranks_first 0).
  - destruct (scan_ranks_bounds 0 (zip (ranks (current_state self))
                                      (ranks (previous_state self))));
      [by left|right; lia].
  - done.
Qed.

Lemma check_bypass_rank_examples :
  _check_bypass_rank (engine_with_rank 2) = 3 ∧
  _check_bypass_rank DBNEngine_new = 0 ∧
  _check_bypass_rank (engine_with_rank 7) = 8.
Proof.
  split_and!.
  - apply (proj2 (proj1 (proj2 (proj1 check_bypass_rank_first_changed
                                  (engine_with_rank 2))) 2%nat)).
    split; [by exists [0; 0; 0; 1], [0; 0; 0; 0]|].
    intros [|[|j]] Hj (c & p & Hk & Hne); simpl in Hk; simplify_eq; lia.
  - apply (proj2 (proj1 (proj1 check_bypass_rank_first_changed
                           DBNEngine_new))).
    intros k (c & p & Hk & Hne).
    do 8 (destruct k as [|k]; [simpl in Hk; by simplify_eq|]). done.
  - apply (proj2 (proj1 (proj2 (proj1 check_bypass_rank_first_changed
                                  (engine_with_rank 7))) 7%nat)).
    split; [by exists [0; 0; 0; 1], [0; 0; 0; 0]|].
    intros j Hj (c & p & Hk & Hne).
    do 7 (destruct j as [|j]; [simpl in Hk; by simplify_eq|]). lia.
Defined.

(** When rank 7 is the first changed rank the engine substitutes: the
    routing of indices 1 to 7 to the full recompute does not hold. *)
Lemma routing_as_specified_fails_at_rank_7 :
  _check_bypass_rank (engine_with_rank 6) = 7 ∧
  (_run_dbn_algorithm (engine_with_rank 6)).1
    = [Substitute_rank 7; Send_current_values] ∧
  ¬ routing_as_specified.
Proof.
  split_and!; [done..|]. intros Hspec.
  destruct (Hspec (engine_with_rank 6)) as [Hfull _].
  by specialize (Hfull ltac:(done)).
Qed.

(** C1 (amended).  [_run_dbn_algorithm] re-emits when the index of the first
    changed rank is 0, runs the full algorithm when it is between 1 and 6,
    and substitutes the rank when it is 7 or more (7 or 8 on the eight
    ranks of the system).  The legacy [DBN] routes the indices from 1 on
    in the same way. *)
Theorem run_dbn_algorithm_routing :
  (∀ self : DBNEngine,
     let index := _check_bypass_rank self in
     let calls := (_run_dbn_algorithm self).1 in
     (index = 0 → calls = [Send_current_values]) ∧
     (1 ≤ index ≤ 6 → calls = [Execute_full_dbn; Send_current_values]) ∧
     (7 ≤ index → calls = [Substitute_rank index; Send_current_values])) ∧
  (∀ g : Legacy.globals,
     let index := Legacy.checkBypass g in
     let calls := (Legacy.DBN g).2.1 in
     (1 ≤ index ≤ 6 →
      calls = [Legacy.ActuallyRunDBN;
               Legacy.UpdateNextsToCurrents; Legacy.SendValues]) ∧
     (7 ≤ index →
      calls = [Legacy.SubsRank;
               Legacy.UpdateNextsToCurrents; Legacy.SendValues])).
Proof.
  split.
  - intros self. simpl. unfold _run_dbn_algorithm. split_and!.
    + by intros ->.
    + intros ?. destruct (Z.eqb_spec (_check_bypass_rank self) 0); [lia|].
      destruct (Z.ltb_spec (_check_bypass_rank self) 7); [done|lia].
    + intros ?. destruct (Z.eqb_spec (_check_bypass_rank self) 0); [lia|].
      destruct (Z.ltb_spec (_check_bypass_rank self) 7); [lia|done].
  - intros g. simpl. unfold Legacy.DBN. split; intros ?.
    + by destruct (Z.ltb_spec (Legacy.checkBypass g) 7); [|lia].
    + destruct (Z.ltb_spec (Legacy.checkBypass g) 7); [lia|].
      by destruct (Z.eqb_spec (Legacy.checkBypass g) 0); [lia|].
Qed.

Lemma run_dbn_algorithm_routing_examples :
  (_run_dbn_algorithm DBNEngine_new).1 = [Send_current_values] ∧
  (_run_dbn_algorithm (engine_with_rank 5)).1
    = [Execute_full_dbn; Send_current_values] ∧
  (_run_dbn_algorithm (engine_with_rank 6)).1
    = [Substitute_rank 7; Send_current_values] ∧
  (_run_dbn_algorithm (engine_with_rank 7)).1
    = [Substitute_rank 8; Send_current_values].
Proof.
  split_and!.
  - apply (proj1 (proj1 run_dbn_algorithm_routing DBNEngine_new)).
    reflexivity.
  - apply (proj1 (proj2 (proj1 run_dbn_algorithm_routing
                           (engine_with_rank 5)))).
    vm_compute. split; discriminate.
  - apply (proj2 (proj2 (proj1 run_dbn_algorithm_routing
                           (engine_with_rank 6)))).
    vm_compute. discriminate.
  - apply (proj2 (proj2 (proj1 run_dbn_algorithm_routing
                           (engine_with_rank 7)))).
    vm_compute. discriminate.
Defined.

(** With no rank changed the legacy [DBN] takes its first branch, since
    0 is below 7 as well: its final [return] is never reached. *)
Example legacy_DBN_without_change :
  Legacy.checkBypass Legacy.globals_init = 0 ∧
  (Legacy.DBN Legacy.globals_init).2.1
    = [Legacy.ActuallyRunDBN; Legacy.UpdateNextsToCurrents; Legacy.SendValues].
Proof. done. Qed.

(** C4.  Whatever the index of the first changed rank, the dispatch returns
    the two messages [("/sustain", sustain)] and [("/keyCenter",
    key_center)] of the current state, in this order; each of the three
    methods it can reach returns exactly them. *)
Theorem run_dbn_algorithm_messages (self : DBNEngine) :
  let messages :=
    [("/sustain"%string, sustain (current_state self));
     ("/keyCenter"%string, key_center (current_state self))] in
  (_run_dbn_algorithm self).2 = messages ∧
  (_send_current_values self).2 = messages ∧
  (_execute_full_dbn self).2 = messages ∧
  (∀ rank_index, (_substitute_rank self rank_index).2 = messages).
Proof.
  simpl. unfold _run_dbn_algorithm. split_and!; try done.
  by repeat case_match.
Qed.

End Classification.

(** ** Debounce buffer *)

Section Debounce.
Import Buffer.

(** C8.  A turn of [process_buffer] on a non-empty buffer calls the
    processor once, with the data of the last entry appended, and leaves
    the buffer empty; on an empty buffer it calls nothing and changes
    nothing.  The legacy [buffer_processor] does the same. *)
Theorem process_buffer_forwards_last (self : InputBuffer) :
  (buffer self = [] → process_buffer self = (self, [])) ∧
  (∀ earlier entry,
     buffer self = earlier ++ [entry] →
     process_buffer self
       = ({| buffer := []; buffer_event := false |}, [data entry])) ∧
  (∀ combined_hex now,
     process_buffer (add_combined_input combined_hex now self)
       = ({| buffer := []; buffer_event := false |}, [combined_hex])) ∧
  (Legacy.buffer_processor [] = ([], [])) ∧
  (∀ earlier last_input,
     Legacy.buffer_processor (earlier ++ [last_input]) = ([], [last_input])).
Proof.
  assert (∀ {A} (l : list A) x, last (l ++ [x]) = Some x) as Hlast
    by (intros; apply last_snoc).
  unfold process_buffer, Legacy.buffer_processor. split_and!.
  - by intros ->.
  - intros earlier entry ->. rewrite Hlast. by destruct earlier.
  - intros combined_hex now. simpl. rewrite Hlast. by destruct (buffer self).
  - done.
  - intros earlier last_input. rewrite Hlast. by destruct earlier.
Qed.

Lemma process_buffer_five_pushes :
  process_buffer
    (add_combined_input "5" 4 (add_combined_input "4" 3
      (add_combined_input "3" 2 (add_combined_input "2" 1
        (add_combined_input "1" 0 InputBuffer_new)))))
  = ({| buffer := []; buffer_event := false |}, ["5"%string]) ∧
  process_buffer InputBuffer_new = (InputBuffer_new, []).
Proof.
  split.
  - apply (proj1 (proj2 (process_buffer_forwards_last _))
             [ {| data := "1"; timestamp := 0 |};
               {| data := "2"; timestamp := 1 |};
               {| data := "3"; timestamp := 2 |};
               {| data := "4"; timestamp := 3 |} ]
             {| data := "5"; timestamp := 4 |}).
    reflexivity.
  - apply (proj1 (process_buffer_forwards_last InputBuffer_new)). reflexivity.
Defined.

End Debounce.

(** ** Input reassembly *)

Section Reassembling.
Import Reassembly.

Lemma truthy_spec s : truthy s = true ↔ s ≠ EmptyString.
Proof. by destruct s. Qed.

Lemma truthy_py_and a b : truthy (py_and a b) = truthy a && truthy b.
Proof. unfold py_and. by destruct (truthy a) eqn:?. Qed.

Lemma handle_user_input_step (flag data : string) (sender : addr) (now : Z)
    (pending_inputs : gmap addr InputState) :
  let st := recorded flag data sender now pending_inputs in
  _handle_user_input flag data sender now pending_inputs =
  if truthy (uin1 st) && truthy (uin2 st)
  then (delete sender pending_inputs, [Process (uin1 st +:+ uin2 st)])
  else (<[sender := st]> pending_inputs, [CreateTimeoutTask sender]).
Proof.
  unfold _handle_user_input, recorded.
  destruct (pending_inputs !! sender) as [old|] eqn:Hold; simpl;
    rewrite ?lookup_insert_eq, ?Hold; simpl;
    rewrite truthy_py_and; case_match; simpl;
    rewrite ?insert_insert_eq, ?delete_insert_eq; done.
Qed.

Lemma recorded_halves (flag data : string) (sender : addr) (now : Z)
    (pending_inputs : gmap addr InputState) :
  let old := default InputState_new (pending_inputs !! sender) in
  let st := recorded flag data sender now pending_inputs in
  uin1 st = (if String.eqb flag "/uin1" then data else uin1 old) ∧
  uin2 st = (if String.eqb flag "/uin1" then uin2 old
             else if String.eqb flag "/uin2" then data else uin2 old).
Proof. unfold recorded, add_input. simpl. by repeat case_match. Qed.

(** C6.  From a handler that holds no half for the sender, a [/uin1]
    fragment followed by a [/uin2] fragment (both non-empty) gives exactly
    one combined input, the [/uin1] text followed by the [/uin2] text; so
    do the same two fragments in the other order; and afterwards the
    handler has no entry for the sender. *)
Theorem reassembly_of_two_halves (pending_inputs : gmap addr InputState)
    (sender : addr) (part1 part2 : string) (t1 t2 : Z) :
  let old := default InputState_new (pending_inputs !! sender) in
  uin1 old = EmptyString → uin2 old = EmptyString →
  part1 ≠ EmptyString → part2 ≠ EmptyString →
  let first := {| f_flag := "/uin1"; f_data := part1;
                  f_sender := sender; f_now := t1 |} in
  let second := {| f_flag := "/uin2"; f_data := part2;
                   f_sender := sender; f_now := t2 |} in
  ∀ fs, fs = [first; second] ∨ fs = [second; first] →
    let '(pending_inputs', effects) := handle_all fs pending_inputs in
    processed (concat effects) = [part1 +:+ part2] ∧
    effects = [[CreateTimeoutTask sender]; [Process (part1 +:+ part2)]] ∧
    pending_inputs' !! sender = None ∧
    pending_inputs' = delete sender pending_inputs.
Proof.
  intros old Hold1 Hold2 H1%truthy_spec H2%truthy_spec first second fs Hfs.
  subst old.
  destruct Hfs as [-> | ->]; unfold handle_all;
    rewrite !handle_user_input_step; unfold recorded; simpl;
    rewrite ?Hold1, ?Hold2; simpl; rewrite ?H1, ?H2; simpl;
    rewrite ?andb_false_r; simpl;
    rewrite handle_user_input_step; unfold recorded; simpl;
    rewrite lookup_insert_eq; simpl; rewrite ?H1, ?H2; simpl;
    rewrite delete_insert_eq, lookup_delete_eq; done.
Qed.

Lemma reassembly_ABC_DEF :
  let sender : addr := ("127.0.0.1"%string, 50000) in
  handle_all
    [ {| f_flag := "/uin1"; f_data := "ABC"; f_sender := sender; f_now := 0 |};
      {| f_flag := "/uin2"; f_data := "DEF"; f_sender := sender; f_now := 1 |} ]
    ∅
  = (∅, [[CreateTimeoutTask sender]; [Process "ABCDEF"]]).
Proof.
  intros sender.
  pose proof (reassembly_of_two_halves ∅ sender "ABC" "DEF" 0 1
                eq_refl eq_refl ltac:(discriminate) ltac:(discriminate)
                _ (or_introl eq_refl)) as H.
  destruct (handle_all _ _) as [p es]. destruct H as (_ & -> & _ & ->).
  reflexivity.
Defined.

(** A sender that sends one half only: the timeout task removes the
    entry, and nothing was handed on. *)
Example lone_first_half_times_out :
  let sender : addr := ("127.0.0.1"%string, 50000) in
  let '(pending_inputs, effects) :=
    _handle_user_input "/uin1" "ABC" sender 0 ∅ in
  effects = [CreateTimeoutTask sender] ∧
  is_Some (pending_inputs !! sender) ∧
  _timeout_incomplete_input sender pending_inputs = ∅.
Proof.
  simpl. rewrite handle_user_input_step. unfold recorded. simpl.
  rewrite lookup_empty. simpl. split_and!; [done|by rewrite lookup_insert_eq|].
  unfold _timeout_incomplete_input. rewrite lookup_insert_eq. simpl.
  by rewrite delete_insert_eq, delete_empty.
Qed.

Lemma handle_all_lookup (fs : list fragment)
    (pending_inputs : gmap addr InputState) i f es :
  fs !! i = Some f → (handle_all fs pending_inputs).2 !! i = Some es →
  ∃ pending_inputs',
    es = (_handle_user_input (f_flag f) (f_data f) (f_sender f) (f_now f)
            pending_inputs').2.
Proof.
  revert pending_inputs i.
  induction fs as [|f' fs IH]; intros pending_inputs i Hf Hes; [done|].
  simpl in Hes.
  destruct (_handle_user_input _ _ _ _ pending_inputs) as [p e] eqn:Hstep.
  destruct (handle_all fs p) as [p' es'] eqn:Hrest.
  destruct i as [|i]; simpl in *; simplify_eq.
  - exists pending_inputs. by rewrite Hstep.
  - apply (IH p i); [done|]. by rewrite Hrest.
Qed.

(** C10.  Whether a fragment completes its sender's pair is decided by the
    truthiness of the two halves recorded once the fragment is stored: a
    combined input is handed on exactly when both are non-empty, and it is
    their concatenation.  So a [/uin1] or [/uin2] fragment that carries the
    empty string never completes a pair, whatever was received before, and
    in any run of fragments every combined input comes from a fragment
    with non-empty text. *)
Theorem empty_fragment_never_completes :
  (∀ (flag data : string) (sender : addr) (now : Z)
     (pending_inputs : gmap addr InputState),
     let st := recorded flag data sender now pending_inputs in
     (_handle_user_input flag data sender now pending_inputs).2 =
     if truthy (uin1 st) && truthy (uin2 st)
     then [Process (uin1 st +:+ uin2 st)]
     else [CreateTimeoutTask sender]) ∧
  (∀ (flag : string) (sender : addr) (now : Z)
     (pending_inputs : gmap addr InputState),
     flag = "/uin1"%string ∨ flag = "/uin2"%string →
     (_handle_user_input flag EmptyString sender now pending_inputs).2
       = [CreateTimeoutTask sender]) ∧
  (∀ (fs : list fragment) (pending_inputs : gmap addr InputState) i f es c,
     fs !! i = Some f →
     (handle_all fs pending_inputs).2 !! i = Some es →
     Process c ∈ es →
     f_flag f = "/uin1"%string ∨ f_flag f = "/uin2"%string →
     f_data f ≠ EmptyString ∧
     ∃ part1 part2,
       part1 ≠ EmptyString ∧ part2 ≠ EmptyString ∧ c = part1 +:+ part2 ∧
       (f_flag f = "/uin1"%string → part1 = f_data f) ∧
       (f_flag f = "/uin2"%string → part2 = f_data f)).
Proof.
  assert (∀ (flag data : string) (sender : addr) (now : Z)
            (pending_inputs : gmap addr InputState),
     let st := recorded flag data sender now pending_inputs in
     (_handle_user_input flag data sender now pending_inputs).2 =
     if truthy (uin1 st) && truthy (uin2 st)
     then [Process (uin1 st +:+ uin2 st)]
     else [CreateTimeoutTask sender]) as Hstep.
  { intros. subst st. rewrite handle_user_input_step. by destruct (_ && _). }
  split_and!; [done| |].
  - intros flag sender now pending_inputs Hflag. rewrite Hstep.
    destruct (recorded_halves flag EmptyString sender now pending_inputs)
      as [-> ->].
    destruct Hflag as [-> | ->]; simpl; [done|]. by rewrite andb_false_r.
  - intros fs pending_inputs i f es c Hf Hes Hc Hflag.
    destruct (handle_all_lookup _ _ _ _ _ Hf Hes) as (p & ->).
    rewrite Hstep in Hc.
    pose proof (recorded_halves (f_flag f) (f_data f) (f_sender f) (f_now f) p)
      as Hrec.
    cbv zeta in Hrec, Hc.
    remember (recorded (f_flag f) (f_data f) (f_sender f) (f_now f) p)
      as st eqn:Hst.
    clear Hst. destruct Hrec as [Hu1 Hu2].
    destruct (truthy (uin1 st)) eqn:H1; simpl in Hc;
      [|by apply list_elem_of_singleton in Hc].
    destruct (truthy (uin2 st)) eqn:H2; simpl in Hc;
      [|by apply list_elem_of_singleton in Hc].
    apply list_elem_of_singleton in Hc. simplify_eq.
    apply truthy_spec in H1, H2. split.
    + destruct Hflag as [Hflag | Hflag]; rewrite Hflag in Hu1, Hu2;
        simpl in Hu1, Hu2; congruence.
    + eexists _, _. split_and!; [exact H1|exact H2|done|..];
        intros Hflag'; rewrite Hflag' in Hu1, Hu2; simpl in Hu1, Hu2; done.
Qed.

Lemma empty_first_half_then_second_half :
  let sender : addr := ("127.0.0.1"%string, 50000) in
  (_handle_user_input "/uin1" EmptyString sender 0 ∅).2
    = [CreateTimeoutTask sender] ∧
  (handle_all
     [ {| f_flag := "/uin1"; f_data := EmptyString;
          f_sender := sender; f_now := 0 |};
       {| f_flag := "/uin2"; f_data := "DEF";
          f_sender := sender; f_now := 1 |} ] ∅).2
    = [[CreateTimeoutTask sender]; [CreateTimeoutTask sender]].
Proof.
  intros sender. split; [|reflexivity].
  apply (proj1 (proj2 empty_fragment_never_completes)). by left.
Defined.

End Reassembling.

(** ** Wire codec *)

Section Wire.
Import Codec.

(** [(n + 4) & ~0x03] is the next multiple of 4 strictly above [n]. *)
Lemma align_next_multiple n :
  Z.land (n + 4) (Z.lnot 0x03) = 4 * ((n + 4) / 4).
Proof.
  rewrite <- Z.ldiff_land. change 3 with (Z.ones 2).
  rewrite Z.ldiff_ones_r by lia.
  rewrite Z.shiftl_mul_pow2, Z.shiftr_div_pow2 by lia.
  change (2 ^ 2) with 4. lia.
Qed.

Lemma to_N_byte_of_Z z : Z.of_N (Byte.to_N (byte_of_Z z)) = z mod 256.
Proof.
  unfold byte_of_Z.
  assert (0 ≤ z mod 256 < 256) as Hz by (apply Z.mod_pos_bound; lia).
  destruct (Byte.of_N (Z.to_N (z mod 256))) as [b|] eqn:Hb.
  - apply Byte.to_of_N in Hb. simpl. rewrite Hb. lia.
  - apply Byte.of_N_None_iff in Hb. lia.
Qed.

Lemma index_of_app (sub : byte) (l r : bytes) :
  Forall (λ b, b ≠ sub) l →
  index_of sub (l ++ sub :: r) = Some (length l).
Proof.
  induction 1 as [|b l Hb _ IH]; simpl.
  - by rewrite (Byte.byte_dec_lb eq_refl).
  - destruct (Byte.eqb b sub) eqn:Heq; [by apply Byte.byte_dec_bl in Heq|].
    by rewrite IH.
Qed.

Lemma find_app (sub : byte) (l m r : bytes) :
  Forall (λ b, b ≠ sub) m →
  find (l ++ m ++ sub :: r) sub (len l) = len l + len m.
Proof.
  intros Hm. unfold find, len. rewrite Nat2Z.id, drop_app_length.
  by rewrite index_of_app.
Qed.

(** On an ASCII string the UTF-8 encoding is one byte per character, and
    decoding gives the characters back. *)
Lemma utf8_encode_ascii (s : string) :
  ascii_no_nul s →
  Forall (λ b, (0 < Byte.to_N b < 128)%N) (utf8_encode s) ∧
  Byte.to_N <$> utf8_encode s = codepoints s.
Proof.
  unfold ascii_no_nul, utf8_encode, codepoints.
  induction 1 as [|a l Ha _ [IH1 IH2]]; simpl; [done|].
  unfold utf8_encode_char at 1 3.
  destruct (Z.ltb_spec (Z.of_N (N_of_ascii a)) 128); [|lia]. simpl.
  assert (Byte.to_N (byte_of_Z (Z.of_N (N_of_ascii a))) = N_of_ascii a) as Hb.
  { apply N2Z.inj. rewrite to_N_byte_of_Z. apply Z.mod_small. lia. }
  split; [constructor; [by rewrite Hb|done]|]. rewrite Hb. f_equal. exact IH2.
Qed.

Lemma decode_utf8_ascii (replace : bool) (data : bytes) :
  Forall (λ b, (0 < Byte.to_N b < 128)%N) data →
  utf8_decode_from replace U_start data = Some (Byte.to_N <$> data).
Proof.
  induction 1 as [|b l Hb _ IH]; simpl; [done|].
  unfold lead_of. destruct (N.ltb_spec (Byte.to_N b) 128); [|lia].
  by rewrite IH.
Qed.

Lemma from_bytes_be_to_bytes (value : Z) (payload : bytes) :
  to_bytes 4 value = Ok payload →
  length payload = 4%nat ∧ from_bytes_be payload = value mod 2 ^ 32.
Proof.
  unfold to_bytes. simpl. case_match; [|done]. intros [= <-].
  split; [done|]. unfold from_bytes_be. cbn [foldl].
  change (8 * Z.of_nat 3) with 24. change (8 * Z.of_nat 2) with 16.
  change (8 * Z.of_nat 1) with 8. change (8 * Z.of_nat 0) with 0.
  rewrite !to_N_byte_of_Z. rewrite !Z.shiftr_div_pow2 by lia.
  change (2 ^ 24) with 16777216. change (2 ^ 16) with 65536.
  change (2 ^ 8) with 256. change (2 ^ 0) with 1.
  change (2 ^ 32) with 4294967296. rewrite Z.div_1_r.
  assert (value / 65536 = value / 256 / 256) as ->
    by (by rewrite Z.div_div by lia).
  assert (value / 16777216 = value / 256 / 256 / 256) as ->
    by (by rewrite !Z.div_div by lia).
  pose proof (Z.div_mod value 256 ltac:(lia)).
  pose proof (Z.div_mod (value / 256) 256 ltac:(lia)).
  pose proof (Z.div_mod (value / 256 / 256) 256 ltac:(lia)).
  pose proof (Z.div_mod (value / 256 / 256 / 256) 256 ltac:(lia)).
  pose proof (Z.mod_pos_bound value 256 ltac:(lia)).
  pose proof (Z.mod_pos_bound (value / 256) 256 ltac:(lia)).
  pose proof (Z.mod_pos_bound (value / 256 / 256) 256 ltac:(lia)).
  pose proof (Z.mod_pos_bound (value / 256 / 256 / 256) 256 ltac:(lia)).
  apply Z.mod_unique with (q := value / 256 / 256 / 256 / 256); lia.
Qed.

(** The layout of an encoded frame. *)
Lemma encode_osc_message_layout (address : string) (value : Z) :
  - 2 ^ 31 ≤ value < 2 ^ 31 →
  ∃ (pad : nat) (payload : bytes),
    to_bytes 4 value = Ok payload ∧
    (len (utf8_encode address) + 1 + Z.of_nat pad) mod 4 = 0 ∧
    (pad < 4)%nat ∧
    _encode_osc_message address value =
      Ok (utf8_encode address ++ x00 :: replicate pad x00 ++
          [x2c; x69; x00; x00] ++ payload).
Proof.
  intros Hrange. unfold _encode_osc_message.
  destruct (to_bytes 4 value) as [payload|e] eqn:Hpayload.
  - set (n := len (utf8_encode address ++ [x00])).
    assert (n = len (utf8_encode address) + 1) as Hn
      by (unfold n, len; rewrite length_app; simpl; lia).
    exists (Z.to_nat ((4 - n mod 4) mod 4)), payload.
    pose proof (Z.mod_pos_bound n 4 ltac:(lia)).
    pose proof (Z.mod_pos_bound (4 - n mod 4) 4 ltac:(lia)).
    split_and!; [done|..].
    + rewrite Z2Nat.id by lia. rewrite <- Hn. clearbody n. clear Hrange.
      Z.to_euclidean_division_equations; lia.
    + clear Hrange. lia.
    + by rewrite <- !app_assoc.
  - exfalso. revert Hpayload. unfold to_bytes. simpl.
    change (8 * Z.of_nat 4 - 1) with 31.
    destruct (Z.leb_spec (- 2 ^ 31) value); [|lia].
    by destruct (Z.ltb_spec value (2 ^ 31)); [|lia].
Qed.

(** What the decoder computes on a frame of that layout. *)
Lemma decode_locals_on_layout (addr_bytes payload : bytes) (pad : nat) :
  Forall (λ b, b ≠ x00) addr_bytes →
  (len addr_bytes + 1 + Z.of_nat pad) mod 4 = 0 → (pad < 4)%nat →
  length payload = 4%nat →
  let frame := addr_bytes ++ x00 :: replicate pad x00 ++
               [x2c; x69; x00; x00] ++ payload in
  address_end frame = len addr_bytes ∧
  data_offset frame = len addr_bytes + 1 + Z.of_nat pad ∧
  input_offset frame = len addr_bytes + 1 + Z.of_nat pad + 4 ∧
  len frame = len addr_bytes + 1 + Z.of_nat pad + 8 ∧
  input_data_bytes frame = payload.
Proof.
  intros Hnz Hpad Hlt Hlen frame.
  assert (address_end frame = len addr_bytes) as Hend.
  { unfold address_end. apply (find_app x00 [] addr_bytes _ Hnz). }
  assert (data_offset frame = len addr_bytes + 1 + Z.of_nat pad) as Hoff.
  { unfold data_offset. rewrite Hend, align_next_multiple.
    Z.to_euclidean_division_equations; lia. }
  set (head := addr_bytes ++ x00 :: replicate pad x00).
  assert (len head = len addr_bytes + 1 + Z.of_nat pad) as Hhead.
  { unfold head, len. rewrite length_app. simpl. rewrite length_replicate. lia. }
  assert (frame = head ++ [x2c; x69] ++ x00 :: x00 :: payload) as Hframe.
  { unfold frame, head. by rewrite <- app_assoc. }
  assert (data_tag_end frame = len head + 2) as Htag.
  { unfold data_tag_end. rewrite Hoff, <- Hhead, Hframe, find_app.
    - destruct (Z.eqb_spec (len head + len [x2c; x69]) (-1)); [|done].
      unfold len in *. lia.
    - by repeat constructor. }
  assert (input_offset frame = len head + 4) as Hin.
  { unfold input_offset. rewrite Htag, align_next_multiple.
    rewrite Hhead. Z.to_euclidean_division_equations; lia. }
  split_and!; [done|done|lia| |].
  - rewrite Hframe. unfold len in *. rewrite !length_app. simpl. lia.
  - unfold input_data_bytes. rewrite Hin, Hframe.
    replace (Z.to_nat (len head + 4)) with (length head + 4)%nat
      by (unfold len; lia).
    by rewrite drop_app_add.
Qed.

(** C5.  For an ASCII address without NUL and a 32-bit signed value,
    [_encode_osc_message] succeeds; decoding the frame goes through the
    normal [return] and gives the address back exactly; and the bytes of
    the frame from the payload offset on are the four bytes whose
    big-endian reading is [value] modulo 2^32, that is the two's-complement
    form of [value]. *)
Theorem encode_decode_round_trip (address : string) (value : Z) :
  ascii_no_nul address →
  - 2 ^ 31 ≤ value < 2 ^ 31 →
  ∃ (frame payload : bytes) (input_data : text),
    _encode_osc_message address value = Ok frame ∧
    decode_osc_message_body frame = Ok (codepoints address, input_data) ∧
    (_decode_osc_message frame).1 = codepoints address ∧
    input_data_bytes frame = payload ∧
    to_bytes 4 value = Ok payload ∧
    length payload = 4%nat ∧
    from_bytes_be payload = value mod 2 ^ 32.
Proof.
  intros Hascii Hrange.
  destruct (encode_osc_message_layout address value Hrange)
    as (pad & payload & Hpayload & Hpad & Hlt & Hframe).
  destruct (from_bytes_be_to_bytes _ _ Hpayload) as [Hlen Hvalue].
  destruct (utf8_encode_ascii address Hascii) as [Hbytes Hpoints].
  assert (Forall (λ b, b ≠ x00) (utf8_encode address)) as Hnz.
  { eapply Forall_impl; [exact Hbytes|]. intros b Hb ->. simpl in Hb. lia. }
  destruct (decode_locals_on_layout _ payload pad Hnz Hpad Hlt Hlen)
    as (Hend & Hoff & Hin & Htotal & Hdata).
  set (frame := utf8_encode address ++ _) in *.
  assert (decode_osc_message_body frame
          = Ok (codepoints address, decode_input_data payload)) as Hbody.
  { unfold decode_osc_message_body.
    assert (0 ≤ len (utf8_encode address)) by (unfold len; lia).
    destruct (Z.eqb_spec (address_end frame) (-1)); [lia|].
    destruct (Z.geb_spec (data_offset frame) (len frame)); [lia|].
    destruct (Z.geb_spec (input_offset frame) (len frame)); [lia|].
    rewrite Hdata, Hend. unfold len. rewrite Nat2Z.id.
    unfold frame. rewrite take_app_length.
    unfold decode_utf8_replace. rewrite decode_utf8_ascii by done. simpl.
    by rewrite Hpoints. }
  exists frame, payload, (decode_input_data payload).
  split_and!; try done. unfold _decode_osc_message. by rewrite Hbody.
Qed.

Lemma encode_decode_sustain :
  ∃ frame,
    _encode_osc_message "/sustain" (-2) = Ok frame ∧
    (_decode_osc_message frame).1 = codepoints "/sustain" ∧
    input_data_bytes frame = [xff; xff; xff; xfe].
Proof.
  destruct (encode_decode_round_trip "/sustain" (-2)) as
    (frame & payload & input_data & Hframe & _ & Haddress & Hdata & Hpayload & _).
  - unfold ascii_no_nul. simpl. repeat constructor.
  - split; [by vm_compute | reflexivity].
  - exists frame. injection Hpayload as <-. by split_and!.
Defined.

(** A frame that ends with its padded address: its payload offset (8) is
    past its end (4), and it is rejected, so the decoding of a frame
    without payload does not hold as the specification words it. *)
Lemma payload_offset_as_specified_fails_on_address_only :
  address_end [x2f; x61; x00; x00] = 2 ∧
  input_offset [x2f; x61; x00; x00] = 8 ∧
  len [x2f; x61; x00; x00] = 4 ∧
  decode_osc_message_body [x2f; x61; x00; x00]
    = Raise (ValueError "Insufficient data for type tags") ∧
  _decode_osc_message [x2f; x61; x00; x00] = ([], []) ∧
  ¬ payload_offset_as_specified.
Proof.
  split_and!; [vm_compute; reflexivity..|]. intros Hspec.
  assert (address_end [x2f; x61; x00; x00] ≠ -1) as Hend
    by (vm_compute; discriminate).
  assert (len [x2f; x61; x00; x00] ≤ input_offset [x2f; x61; x00; x00])
    as Hpayload by (vm_compute; discriminate).
  specialize (Hspec [x2f; x61; x00; x00] Hend Hpayload).
  vm_compute in Hspec. discriminate Hspec.
Qed.

(** C7 (amended).  Take a datagram whose payload offset is at or past its
    end.  The decoder returns its address with the empty string, through
    its normal [return], exactly when the address has a terminator and
    the type tags start inside the datagram; when the datagram ends with
    its padded address it is rejected instead: the error is logged and
    two empty strings are returned.  On the layout: after an address
    without NUL, its terminator and the padding to a multiple of 4, any
    non-empty rest gives the address and the empty string, an empty rest
    the two empty strings. *)
Theorem decode_payload_offset_past_end (data : bytes) :
  len data ≤ input_offset data →
  let address :=
    decode_utf8_replace (take (Z.to_nat (address_end data)) data) in
  (decode_osc_message_body data = Ok (address, []) ↔
   address_end data ≠ -1 ∧ data_offset data < len data) ∧
  (address_end data ≠ -1 → data_offset data < len data →
   _decode_osc_message data = (address, [])) ∧
  (address_end data ≠ -1 → len data ≤ data_offset data →
   decode_osc_message_body data
     = Raise (ValueError "Insufficient data for type tags") ∧
   _decode_osc_message data = ([], [])) ∧
  (∀ (addr tags : bytes) (pad : nat),
     data = addr ++ x00 :: replicate pad x00 ++ tags →
     Forall (λ b, b ≠ x00) addr →
     (len addr + 1 + Z.of_nat pad) mod 4 = 0 → (pad < 4)%nat →
     (tags ≠ [] → _decode_osc_message data = (decode_utf8_replace addr, [])) ∧
     (tags = [] → _decode_osc_message data = ([], []))).
Proof.
  intros Hpayload address.
  assert (address_end data ≠ -1 → data_offset data < len data →
          decode_osc_message_body data = Ok (address, [])) as Hnormal.
  { intros Hend Htags. unfold decode_osc_message_body.
    destruct (Z.eqb_spec (address_end data) (-1)); [done|].
    destruct (Z.geb_spec (data_offset data) (len data)); [lia|].
    by destruct (Z.geb_spec (input_offset data) (len data)); [|lia]. }
  assert (address_end data ≠ -1 → len data ≤ data_offset data →
          decode_osc_message_body data
            = Raise (ValueError "Insufficient data for type tags")) as Hreject.
  { intros Hend Htags. unfold decode_osc_message_body.
    destruct (Z.eqb_spec (address_end data) (-1)); [done|].
    by destruct (Z.geb_spec (data_offset data) (len data)); [|lia]. }
  split_and!.
  - split; [|intros [??]; by apply Hnormal].
    unfold decode_osc_message_body.
    destruct (Z.eqb_spec (address_end data) (-1)); [done|].
    destruct (Z.geb_spec (data_offset data) (len data)); [done|]. done.
  - intros Hend Htags. unfold _decode_osc_message. by rewrite Hnormal.
  - intros Hend Htags. unfold _decode_osc_message. by rewrite Hreject.
  - intros addr tags pad Hdata Hnz Hpad Hlt.
    assert (address_end data = len addr) as Hend.
    { rewrite Hdata. unfold address_end. apply (find_app x00 [] addr _ Hnz). }
    assert (data_offset data = len addr + 1 + Z.of_nat pad) as Hoff.
    { unfold data_offset. rewrite Hend, align_next_multiple.
      Z.to_euclidean_division_equations; lia. }
    assert (len data = len addr + 1 + Z.of_nat pad + len tags) as Hlen.
    { rewrite Hdata. unfold len. rewrite length_app. simpl.
      rewrite length_app, length_replicate. lia. }
    assert (0 ≤ len addr) by (unfold len; lia).
    split.
    + intros Htags.
      assert (0 < len tags) by (destruct tags; [done|unfold len; simpl; lia]).
      unfold _decode_osc_message. rewrite Hnormal by lia.
      unfold address. rewrite Hend.
      replace (Z.to_nat (len addr)) with (length addr) by (unfold len; lia).
      by rewrite Hdata, take_app_length.
    + intros ->. unfold _decode_osc_message. rewrite Hreject; [done|lia|].
      unfold len in *. simpl in *. lia.
Qed.

(** [b"/uin1\0\0\0,s\0\0"]: an address and a type tag, no payload. *)
Lemma decode_uin1_without_payload :
  _decode_osc_message
    [x2f; x75; x69; x6e; x31; x00; x00; x00; x2c; x73; x00; x00]
  = (codepoints "/uin1", []).
Proof.
  assert (len [x2f; x75; x69; x6e; x31; x00; x00; x00; x2c; x73; x00; x00]
          ≤ input_offset
              [x2f; x75; x69; x6e; x31; x00; x00; x00; x2c; x73; x00; x00])
    as Hpayload by (vm_compute; discriminate).
  destruct (decode_payload_offset_past_end _ Hpayload)
    as (_ & _ & _ & Hlayout).
  destruct (Hlayout [x2f; x75; x69; x6e; x31] [x2c; x73; x00; x00] 2%nat)
    as [Hdecode _]; [reflexivity| |reflexivity|lia|].
  - repeat constructor; discriminate.
  - rewrite Hdecode by discriminate. reflexivity.
Defined.

End Wire.

(** ** The snapshot taken by [process_input] *)

Section Snapshot.
Import Store.

Lemma new_int_list_spec vals σ l σ' :
  new_int_list vals σ = (l, σ') →
  int_lists σ !! l = None ∧ σ' = with_int_lists (insert l vals) σ.
Proof.
  unfold new_int_list. intros [= <- <-]. split; [|done].
  apply not_elem_of_dom, is_fresh.
Qed.

Lemma new_rank_list_spec items σ l σ' :
  new_rank_list items σ = (l, σ') →
  rank_lists σ !! l = None ∧ σ' = with_rank_lists (insert l items) σ.
Proof.
  unfold new_rank_list. intros [= <- <-]. split; [|done].
  apply not_elem_of_dom, is_fresh.
Qed.

Lemma new_state_spec o σ l σ' :
  new_state o σ = (l, σ') →
  states σ !! l = None ∧ σ' = with_states (insert l o) σ.
Proof.
  unfold new_state. intros [= <- <-]. split; [|done].
  apply not_elem_of_dom, is_fresh.
Qed.

(** The copies of the ranks are new lists that hold the same values, and
    nothing that existed is changed. *)
Lemma copy_ranks_spec items σ items' σ' :
  Forall (λ rank, is_Some (int_lists σ !! rank)) items →
  copy_ranks items σ = (items', σ') →
  states σ' = states σ ∧ rank_lists σ' = rank_lists σ ∧
  int_lists σ ⊆ int_lists σ' ∧
  Forall (λ l, int_lists σ !! l = None ∧ is_Some (int_lists σ' !! l)) items' ∧
  (λ l, int_lists σ' !!! l) <$> items' = (λ rank, int_lists σ !!! rank) <$> items.
Proof.
  intros Hitems. revert σ items' σ' Hitems.
  induction items as [|rank rest IH]; intros σ items' σ' Hitems Hcopy.
  { simpl in Hcopy. by simplify_eq. }
  cbn [copy_ranks] in Hcopy.
  destruct (new_int_list (int_lists σ !!! rank) σ) as [l σ1] eqn:Hnew.
  destruct (copy_ranks rest σ1) as [ls σ2] eqn:Hrest. simplify_eq.
  apply new_int_list_spec in Hnew as [Hfresh ->].
  apply Forall_cons in Hitems as [Hrank Hitems].
  assert (int_lists σ ⊆ <[l := int_lists σ !!! rank]> (int_lists σ)) as Hsub
    by by apply insert_subseteq.
  assert (Forall (λ r, is_Some
            (int_lists (with_int_lists (insert l (int_lists σ !!! rank)) σ)
               !! r)) rest) as Hitems1.
  { eapply Forall_impl; [exact Hitems|]. intros r [v Hv]. exists v. simpl.
    by eapply lookup_weaken. }
  destruct (IH _ _ _ Hitems1 Hrest) as (Hst & Hrl & Hsub' & Hnew & Hvals).
  simpl in *.
  split_and!; [done|done|by etrans| |].
  - constructor.
    + split; [done|]. eexists. eapply lookup_weaken; [|exact Hsub'].
      apply lookup_insert_eq.
    + eapply Forall_impl; [exact Hnew|]. intros k [Hk ?]. split; [|done].
      destruct (int_lists σ !! k) eqn:Hk'; [|done].
      by rewrite (lookup_weaken _ _ _ _ Hk' Hsub) in Hk.
  - f_equal.
    + apply lookup_total_correct. eapply lookup_weaken; [|exact Hsub'].
      apply lookup_insert_eq.
    + etrans; [exact Hvals|]. apply Forall_fmap_ext_1.
      eapply Forall_impl; [exact Hitems|]. intros r [v Hv]. simpl.
      rewrite (lookup_total_correct _ _ _ Hv). apply lookup_total_correct.
      by eapply lookup_weaken.
Qed.

(** Reading a state depends on its own storage only. *)
Lemma read_state_frame σ σ' l o items :
  states σ !! l = Some o → states σ' !! l = Some o →
  rank_lists σ !! o_ranks o = Some items →
  rank_lists σ' !! o_ranks o = Some items →
  Forall (λ rank, int_lists σ' !! rank = int_lists σ !! rank) items →
  read_state σ' l = read_state σ l.
Proof.
  intros Ho Ho' Hitems Hitems' Hranks. unfold read_state.
  rewrite (lookup_total_correct _ _ _ Ho), (lookup_total_correct _ _ _ Ho').
  rewrite (lookup_total_correct _ _ _ Hitems),
    (lookup_total_correct _ _ _ Hitems').
  f_equal. apply Forall_fmap_ext_1. eapply Forall_impl; [exact Hranks|].
  intros rank Hrank. simpl. by rewrite !lookup_total_alt, Hrank.
Qed.

(** What [copy] creates: a state object, a list of ranks and ranks that
    did not exist before, holding the value of [self]. *)
Lemma copy_spec σ self snapshot σ' :
  is_state σ self →
  copy self σ = (snapshot, σ') →
  ∃ o' items',
    states σ !! snapshot = None ∧
    states σ' = <[snapshot := o']> (states σ) ∧
    rank_lists σ !! o_ranks o' = None ∧
    rank_lists σ' = <[o_ranks o' := items']> (rank_lists σ) ∧
    int_lists σ ⊆ int_lists σ' ∧
    Forall (λ l, int_lists σ !! l = None ∧ is_Some (int_lists σ' !! l)) items' ∧
    read_state σ' snapshot = read_state σ self.
Proof.
  intros (o & items & Ho & Hitems & Hranks). unfold copy.
  rewrite (lookup_total_correct _ _ _ Ho), (lookup_total_correct _ _ _ Hitems).
  destruct (copy_ranks items σ) as [items' σ1] eqn:Hcopy.
  destruct (new_rank_list items' σ1) as [ranks' σ2] eqn:Hnew.
  intros Hstate.
  destruct (copy_ranks_spec _ _ _ _ Hranks Hcopy)
    as (Hst & Hrl & Hsub & Hfresh & Hvals).
  apply new_rank_list_spec in Hnew as [Hnone ->].
  apply new_state_spec in Hstate as [Hnone' ->]. simpl in *.
  eexists _, items'. simpl.
  split_and!; [by rewrite <- Hst|by rewrite Hst|by rewrite <- Hrl
              |by rewrite Hrl|done|done|].
  unfold read_state. simpl.
  rewrite lookup_total_insert_eq; simpl. rewrite lookup_total_insert_eq.
  rewrite (lookup_total_correct _ _ _ Ho), (lookup_total_correct _ _ _ Hitems).
  by rewrite Hvals.
Qed.

(** *** Invariants of a method *)

Lemma keeps_ret {S A} (I : S → Prop) (a : A) : keeps I (mret a).
Proof. intros s r s' HI [= <- <-]. done. Qed.

Lemma keeps_raise {S A} (I : S → Prop) e :
  keeps I (State.raise e : State.method S A).
Proof. intros s r s' HI [= <- <-]. done. Qed.

Lemma keeps_bind {S A B} (I : S → Prop) (m : State.method S A)
    (f : A → State.method S B) :
  keeps I m → (∀ a, keeps I (f a)) → keeps I (m ≫= f).
Proof.
  intros Hm Hf s r s' HI. unfold mbind, State.method_bind.
  destruct (m s) as [[a|e] s1] eqn:Hs1.
  - apply (Hf a). by eapply Hm.
  - intros [= <- <-]. by eapply Hm.
Qed.

Lemma keeps_assign {S} (I : S → Prop) (f : S → S) :
  (∀ s, I s → I (f s)) → keeps I (State.assign f).
Proof. intros Hf s r s' HI [= <- <-]. by apply Hf. Qed.

Lemma keeps_int16 {S} (I : S → Prop) c : keeps I (State.int16 c).
Proof. unfold State.int16. case_match; [apply keeps_ret|apply keeps_raise]. Qed.

Lemma keeps_char_at {S} (I : S → Prop) s i : keeps I (State.char_at s i).
Proof. unfold State.char_at. case_match; [apply keeps_ret|apply keeps_raise]. Qed.

Lemma keeps_comprehension {S A B} (I : S → Prop) (f : A → State.method S B) xs :
  (∀ x, keeps I (f x)) → keeps I (State.comprehension f xs).
Proof.
  intros Hf. induction xs as [|x xs IH]; simpl; [apply keeps_ret|].
  apply keeps_bind; [done|]. intros y.
  apply keeps_bind; [done|]. intros ys. apply keeps_ret.
Qed.

Lemma keeps_for_each {S A} (I : S → Prop) xs (body : A → State.method S unit) :
  (∀ x, keeps I (body x)) → keeps I (State.for_each xs body).
Proof.
  intros Hbody. induction xs as [|x xs IH]; simpl; [apply keeps_ret|].
  by apply keeps_bind.
Qed.

Lemma updated_from_refl self σ : is_state σ self → updated_from self σ σ.
Proof.
  intros (o & items & Ho & Hitems & Hranks). exists o, o, items, items.
  split_and!; [done|by rewrite insert_id|done|done|by rewrite insert_id|done|].
  apply Forall_forall. intros l Hl. split; [|by left].
  by eapply (proj1 (Forall_forall _ _) Hranks).
Qed.

Lemma keeps_setattr self σ0 f :
  (∀ o, o_ranks (f o) = o_ranks o) →
  keeps (updated_from self σ0) (setattr self f).
Proof.
  intros Hf. apply keeps_assign.
  intros σ (o0 & o & items0 & items & Ho0 & Hst & Hr & Hitems0 & Hrl & Hsub & Hall).
  exists o0, (f o), items0, items. simpl.
  split_and!; try done; [|by rewrite Hf].
  by rewrite Hst, lookup_total_insert_eq, insert_insert_eq.
Qed.

Lemma keeps_set_rank self σ0 i rank :
  keeps (updated_from self σ0) (set_rank self i rank).
Proof.
  intros σ r σ'
    (o0 & o & items0 & items & Ho0 & Hst & Hr & Hitems0 & Hrl & Hsub & Hall).
  unfold set_rank.
  destruct (new_int_list rank σ) as [l σ1] eqn:Hnew.
  apply new_int_list_spec in Hnew as [Hfresh ->]. simpl.
  rewrite Hst, lookup_total_insert_eq, Hr, Hrl, lookup_total_insert_eq.
  assert (int_lists σ ⊆ <[l := rank]> (int_lists σ)) as Hsub1
    by by apply insert_subseteq.
  assert (int_lists σ0 !! l = None) as Hfresh0.
  { destruct (int_lists σ0 !! l) eqn:Hl; [|done].
    by rewrite (lookup_weaken _ _ _ _ Hl Hsub) in Hfresh. }
  assert (Forall (λ k, is_Some (<[l := rank]> (int_lists σ) !! k) ∧
                       (k ∈ items0 ∨ int_lists σ0 !! k = None)) items) as Hall1.
  { eapply Forall_impl; [exact Hall|]. intros k [[v Hv] Hk]. split; [|done].
    exists v. by eapply lookup_weaken. }
  case_bool_decide; intros [= <- <-].
  - exists o0, o, items0, (<[i := l]> items). simpl.
    split_and!; try done; [by rewrite Hrl, insert_insert_eq|by etrans|].
    apply Forall_insert; [done|]. split; [|by right].
    rewrite lookup_insert_eq. by eexists.
  - exists o0, o, items0, items. simpl. split_and!; try done. by etrans.
Qed.

Lemma keeps_update_from_combined_input self σ0 combined_hex :
  keeps (updated_from self σ0) (update_from_combined_input self combined_hex).
Proof.
  unfold update_from_combined_input. case_match; [apply keeps_raise|].
  repeat first
    [ apply keeps_for_each; intros ?
    | apply keeps_comprehension; intros ?
    | apply keeps_char_at | apply keeps_int16
    | by apply keeps_setattr
    | apply keeps_set_rank
    | apply keeps_bind; [|intros ?] ].
Qed.

(** The snapshot and the state it was taken from never share storage:
    this holds once [process_input] has run, whether the update raised or
    not. *)
Lemma process_input_snapshot σ self combined_hex self' out σ' :
  is_state σ (current_state self) →
  process_input combined_hex self σ = (self', out, σ') →
  current_state self' = current_state self ∧
  read_state σ' (previous_state self') = read_state σ (current_state self) ∧
  ∀ σ'', same_outside (current_state self') σ' σ'' →
         read_state σ'' (previous_state self') =
         read_state σ' (previous_state self').
Proof.
  intros Hstate. unfold process_input.
  destruct (copy (current_state self) σ) as [snapshot σ1] eqn:Hcopy.
  destruct (copy_spec _ _ _ _ Hstate Hcopy)
    as (o' & items' & Hnone & Hst1 & Hnone' & Hrl1 & Hsub1 & Hnew & Hread).
  destruct Hstate as (o & items & Ho & Hitems & Hranks).
  assert (snapshot ≠ current_state self) as Hne by congruence.
  assert (o_ranks o' ≠ o_ranks o) as Hne' by congruence.
  assert (is_state σ1 (current_state self)) as Hstate1.
  { exists o, items. rewrite Hst1, Hrl1, !lookup_insert_ne by done.
    split_and!; [done..|]. eapply Forall_impl; [exact Hranks|].
    intros k [v Hv]. exists v. by eapply lookup_weaken. }
  simpl.
  destruct (update_from_combined_input (current_state self) combined_hex σ1)
    as [r σ2] eqn:Hupdate.
  pose proof (keeps_update_from_combined_input _ _ _ _ _ _
                (updated_from_refl _ _ Hstate1) Hupdate)
    as (o1 & o2 & items1 & items2 & Ho1 & Hst2 & Hr2 & Hitems1 & Hrl2 & Hsub2 & Hall).
  rewrite Hst1, lookup_insert_ne in Ho1 by done.
  assert (o1 = o) as -> by congruence.
  rewrite Hrl1, lookup_insert_ne in Hitems1 by done.
  assert (items1 = items) as -> by congruence.
  assert (states σ2 !! snapshot = Some o') as Hsnap.
  { by rewrite Hst2, lookup_insert_ne, Hst1, lookup_insert_eq. }
  assert (rank_lists σ2 !! o_ranks o' = Some items') as Hsnap'.
  { by rewrite Hrl2, lookup_insert_ne, Hrl1, lookup_insert_eq. }
  assert (states σ1 !! snapshot = Some o') as Hsnap1
    by by rewrite Hst1, lookup_insert_eq.
  assert (rank_lists σ1 !! o_ranks o' = Some items') as Hsnap1'
    by by rewrite Hrl1, lookup_insert_eq.
  set (engine := {| current_state := current_state self;
                    previous_state := snapshot |}).
  assert (current_state engine = current_state self ∧
          read_state σ2 (previous_state engine)
            = read_state σ (current_state self) ∧
          ∀ σ'', same_outside (current_state engine) σ2 σ'' →
                 read_state σ'' (previous_state engine) =
                 read_state σ2 (previous_state engine)) as Hgoal.
  { simpl. split_and!; [done| |].
    - rewrite <- Hread.
      apply (read_state_frame _ _ _ o' items'); try done.
      eapply Forall_impl; [exact Hnew|]. intros l [_ [v Hv]].
      by rewrite Hv, (lookup_weaken _ _ _ _ Hv Hsub2).
    - intros σ'' (Hs & Hr & Hi).
      rewrite Hst2, lookup_total_insert_eq, Hr2 in Hr, Hi.
      rewrite Hrl2, lookup_total_insert_eq in Hi.
      apply (read_state_frame _ _ _ o' items'); try done.
      + by rewrite Hs.
      + by rewrite Hr.
      + apply Forall_forall. intros l Hl. apply Hi. intros Hl2.
        destruct (proj1 (Forall_forall _ _) Hnew l Hl) as [Hl0 [v Hl1]].
        destruct (proj1 (Forall_forall _ _) Hall l Hl2) as [_ [Hold|Hfresh]].
        * destruct (proj1 (Forall_forall _ _) Hranks l Hold) as [w Hw].
          congruence.
        * congruence. }
  destruct r as [[]|e]; [destruct (State._run_dbn_algorithm _)|];
    intros [= <- <- <-]; exact Hgoal.
Qed.

(** C9.  On a successful update the engine's [previous_state] is a new
    object that holds the value [current_state] had before the update, and
    it shares no storage with [current_state]: whatever is later written
    to the current state object, to its list of ranks or to any of its
    ranks, the previous state reads the same. *)
Theorem snapshot_is_independent_copy σ self combined_hex self' calls messages σ' :
  is_state σ (current_state self) →
  process_input combined_hex self σ = (self', State.Sent calls messages, σ') →
  current_state self' = current_state self ∧
  read_state σ' (previous_state self') = read_state σ (current_state self) ∧
  ∀ σ'', same_outside (current_state self') σ' σ'' →
         read_state σ'' (previous_state self') =
         read_state σ' (previous_state self').
Proof. apply process_input_snapshot. Qed.

(** Writing into one of the ranks of [l] stays inside the storage of [l]. *)
Lemma same_outside_write_rank σ l k vals :
  k ∈ rank_lists σ !!! o_ranks (states σ !!! l) →
  same_outside l σ (with_int_lists (insert k vals) σ).
Proof.
  intros Hk. split_and!; [done..|]. intros j Hj. simpl.
  apply lookup_insert_ne. by intros <-.
Qed.

Lemma snapshot_survives_rank_write :
  let engine := DBNEngine_new.1 in
  let σ := DBNEngine_new.2 in
  let engine' := (process_input example_hex engine σ).1.1 in
  let σ' := (process_input example_hex engine σ).2 in
  let σ'' := with_int_lists (insert 25%positive [9; 9; 9; 9]) σ' in
  State.ranks (read_state σ'' (current_state engine')) !! 0%nat
    = Some [9; 9; 9; 9] ∧
  read_state σ' (previous_state engine') = State.SystemState_new ∧
  read_state σ'' (previous_state engine') = State.SystemState_new.
Proof.
  intros engine σ engine' σ' σ''.
  destruct (snapshot_is_independent_copy σ engine example_hex engine'
              [State.Execute_full_dbn; State.Send_current_values]
              [("/sustain"%string, 0); ("/keyCenter"%string, 2)] σ')
    as (_ & Hvalue & Hframe).
  - exists (states σ !!! current_state engine),
      (rank_lists σ !!! o_ranks (states σ !!! current_state engine)).
    split_and!; [vm_compute; reflexivity..|].
    apply (bool_decide_unpack _). vm_compute. exact I.
  - vm_compute. reflexivity.
  - split_and!.
    + vm_compute. reflexivity.
    + rewrite Hvalue. vm_compute. reflexivity.
    + rewrite Hframe; [rewrite Hvalue; vm_compute; reflexivity|].
      apply same_outside_write_rank.
      replace (rank_lists σ' !!! o_ranks (states σ' !!! current_state engine'))
        with [25; 26; 27; 28; 29; 30; 31; 32]%positive
        by (vm_compute; reflexivity).
      apply list_elem_of_here.
Defined.

End Snapshot.

(** ** Invalid input *)

Section InvalidInput.
Import State.

Lemma State_copy_value (self : SystemState) : copy self = self.
Proof. destruct self. unfold copy. simpl. by rewrite list_fmap_id. Qed.

(** The length guard comes before any assignment. *)
Lemma update_wrong_length (combined_hex : string) (self : SystemState) :
  String.length combined_hex ≠ 35%nat →
  update_from_combined_input combined_hex self
    = (Raise (ValueError "Expected 35 hex chars"), self).
Proof.
  intros Hlen. unfold update_from_combined_input, expected_length.
  by destruct (Z.eqb_spec (Z.of_nat (String.length combined_hex)) (3 + 8 * 4));
    [lia|].
Qed.

Lemma process_input_wrong_length (combined_hex : string) (self : DBNEngine) :
  String.length combined_hex ≠ 35%nat →
  process_input combined_hex self
    = ({| current_state := current_state self;
          previous_state := current_state self |},
       Logged (ValueError "Expected 35 hex chars")).
Proof.
  intros Hlen. unfold process_input. simpl.
  by rewrite update_wrong_length, State_copy_value.
Qed.

(** Inversion of a method that returned normally. *)
Lemma bind_ok {S A B} (m : method S A) (f : A → method S B) s b s' :
  (m ≫= f) s = (Ok b, s') →
  ∃ a s1, m s = (Ok a, s1) ∧ f a s1 = (Ok b, s').
Proof.
  unfold mbind, method_bind. destruct (m s) as [[a|e] s1]; [eauto|done].
Qed.

Lemma int16_ok {S} c (s : S) v s' :
  int16 c s = (Ok v, s') → hex_value c = Some v ∧ s' = s.
Proof. unfold int16. by destruct (hex_value c); intros [= <- <-]. Qed.

Lemma char_at_ok {S} str i (s : S) c s' :
  char_at str i s = (Ok c, s') →
  String.list_ascii_of_string str !! i = Some c ∧ s' = s.
Proof. unfold char_at. by destruct (_ !! i); intros [= <- <-]. Qed.

Lemma comprehension_int16_ok {S} cs (s : S) vs s' :
  comprehension int16 cs s = (Ok vs, s') →
  Forall (λ c, is_Some (hex_value c)) cs.
Proof.
  revert s vs s'. induction cs as [|c cs IH]; intros s vs s' Hok; [done|].
  simpl in Hok. apply bind_ok in Hok as (v & s1 & Hc & Hok).
  apply bind_ok in Hok as (vs' & s2 & Hcs & _).
  apply int16_ok in Hc as [Hc _]. constructor; [by eexists|by eapply IH].
Qed.

Lemma for_each_ok {S A} xs (body : A → method S unit) s s' :
  for_each xs body s = (Ok tt, s') →
  Forall (λ x, ∃ s1 s2, body x s1 = (Ok tt, s2)) xs.
Proof.
  revert s. induction xs as [|x xs IH]; intros s Hok; [done|].
  simpl in Hok. apply bind_ok in Hok as ([] & s1 & Hx & Hok).
  constructor; [by eauto|by eapply IH].
Qed.

(** An update that returns has parsed every character it looked at. *)
Lemma update_ok_hex (combined_hex : string) (self self' : SystemState) :
  update_from_combined_input combined_hex self = (Ok tt, self') →
  String.length combined_hex = 35%nat ∧
  (∀ i, (i < 3)%nat →
        ∃ c, String.list_ascii_of_string combined_hex !! i = Some c ∧
             is_Some (hex_value c)) ∧
  (∀ i, (i < 8)%nat →
        Forall (λ c, is_Some (hex_value c))
               (slice combined_hex (3 + i * 4) (3 + i * 4 + 4))).
Proof.
  unfold update_from_combined_input, expected_length.
  destruct (Z.eqb_spec (Z.of_nat (String.length combined_hex)) (3 + 8 * 4));
    [|done].
  cbn [negb]. remember (for_each _ _) as loop eqn:Hloop. intros Hok.
  repeat match type of Hok with
    | (_ ≫= _) _ = _ =>
        let H := fresh "H" in apply bind_ok in Hok as (? & ? & H & Hok)
    end.
  subst loop.
  repeat match goal with
    | H : char_at _ _ _ = _ |- _ => apply char_at_ok in H as [? ->]
    | H : int16 _ _ = _ |- _ => apply int16_ok in H as [? ->]
    end.
  split_and!; [lia| |].
  - intros [|[|[|i]]] Hi; [by eauto..|lia].
  - intros i Hi. apply for_each_ok in Hok.
    assert (i ∈ seq 0 8) as Hin by (apply elem_of_seq; lia).
    destruct (proj1 (Forall_forall _ _) Hok i Hin) as (s1 & s2 & Hbody).
    apply bind_ok in Hbody as (rank & s3 & Hrank & _).
    by eapply comprehension_int16_ok.
Qed.

(** A character that [int(c, 16)] rejects makes the update raise. *)
Lemma update_non_hex_raises (combined_hex : string) (self : SystemState) :
  Exists (λ c, hex_value c = None) (String.list_ascii_of_string combined_hex) →
  ∃ e self',
    update_from_combined_input combined_hex self = (Raise e, self').
Proof.
  intros Hbad.
  destruct (update_from_combined_input combined_hex self)
    as [[[]|e] self'] eqn:Hupdate; [exfalso|by eauto].
  apply update_ok_hex in Hupdate as (Hlen & Hhead & Hranks).
  do 35 (destruct combined_hex as [|? combined_hex]; [done|]).
  destruct combined_hex; [|done]. clear Hlen.
  destruct (Hhead 0%nat ltac:(lia)) as (? & [= <-] & [? ?]).
  destruct (Hhead 1%nat ltac:(lia)) as (? & [= <-] & [? ?]).
  destruct (Hhead 2%nat ltac:(lia)) as (? & [= <-] & [? ?]).
  pose proof (Hranks 0%nat ltac:(lia)) as Hrank0.
  pose proof (Hranks 1%nat ltac:(lia)) as Hrank1.
  pose proof (Hranks 2%nat ltac:(lia)) as Hrank2.
  pose proof (Hranks 3%nat ltac:(lia)) as Hrank3.
  pose proof (Hranks 4%nat ltac:(lia)) as Hrank4.
  pose proof (Hranks 5%nat ltac:(lia)) as Hrank5.
  pose proof (Hranks 6%nat ltac:(lia)) as Hrank6.
  pose proof (Hranks 7%nat ltac:(lia)) as Hrank7.
  clear Hhead Hranks. cbv [slice] in *. simpl in *.
  repeat match goal with
    | H : Forall _ (_ :: _) |- _ =>
        let Hc := fresh "Hc" in
        apply Forall_cons in H as [[? Hc] H]
    end.
  repeat (apply Exists_cons in Hbad as [Hbad|Hbad];
          [simpl in Hbad; congruence|]).
  by apply Exists_nil in Hbad.
Qed.

(** No message leaves the engine for an input of the wrong length or with
    a character that is not a hexadecimal digit. *)
Lemma process_input_invalid_no_messages (combined_hex : string)
    (self : DBNEngine) :
  String.length combined_hex ≠ 35%nat ∨
  Exists (λ c, hex_value c = None) (String.list_ascii_of_string combined_hex) →
  ∃ e, (process_input combined_hex self).2 = Logged e ∧
       messages_of (process_input combined_hex self).2 = [].
Proof.
  intros [Hlen|Hbad].
  - rewrite process_input_wrong_length by done. eauto.
  - unfold process_input. simpl.
    destruct (update_non_hex_raises combined_hex (current_state self) Hbad)
      as (e & self' & ->). eauto.
Qed.

(** The two end-to-end cases of the specification: a valid input against
    the initial state, and an input that is too short. *)
Example process_input_end_to_end :
  (process_input all_zero_hex DBNEngine_new).2
    = Sent [Send_current_values]
           [("/sustain"%string, 0); ("/keyCenter"%string, 2)] ∧
  process_input "01" DBNEngine_new
    = (DBNEngine_new, Logged (ValueError "Expected 35 hex chars")).
Proof. done. Qed.

(** C2 (code defect).  The input ["1g2" + "0" * 32] has the expected length
    and a character that is not a hexadecimal digit.  [process_input]
    logs the error and sends nothing, but [sustain] of the current state,
    0 before the call, is 1 after it: the assignment made before the
    invalid character was reached is not undone. *)
Theorem invalid_digit_leaves_partial_update :
  let result := process_input invalid_digit_hex DBNEngine_new in
  String.length invalid_digit_hex = 35%nat ∧
  Exists (λ c, hex_value c = None)
         (String.list_ascii_of_string invalid_digit_hex) ∧
  result.2 = Logged (ValueError "invalid literal for int() with base 16") ∧
  messages_of result.2 = [] ∧
  sustain (current_state DBNEngine_new) = 0 ∧
  sustain (current_state result.1) = 1 ∧
  current_state result.1 ≠ current_state DBNEngine_new.
Proof.
  split_and!; try done.
  apply Exists_cons_tl, Exists_cons_hd. reflexivity.
Qed.

End InvalidInput.

(** ** The engine by value is the engine over the store, read off *)

Section Refinement.
Import Store.

Lemma sim_ret {S1 S2 A} (R : S1 → S2 → Prop) (a : A) : sim R (mret a) (mret a).
Proof. by intros s1 s2 HR. Qed.

Lemma sim_raise {S1 S2 A} (R : S1 → S2 → Prop) e :
  sim R (State.raise e : State.method S1 A) (State.raise e).
Proof. by intros s1 s2 HR. Qed.

Lemma sim_bind {S1 S2 A B} (R : S1 → S2 → Prop)
    (m1 : State.method S1 A) (m2 : State.method S2 A)
    (f1 : A → State.method S1 B) (f2 : A → State.method S2 B) :
  sim R m1 m2 → (∀ a, sim R (f1 a) (f2 a)) → sim R (m1 ≫= f1) (m2 ≫= f2).
Proof.
  intros Hm Hf s1 s2 HR. unfold mbind, State.method_bind.
  destruct (Hm s1 s2 HR) as [Hr HR'].
  destruct (m1 s1) as [[a1|e1] s1'], (m2 s2) as [[a2|e2] s2'];
    simpl in *; simplify_eq; [by apply Hf|done].
Qed.

Lemma sim_assign {S1 S2} (R : S1 → S2 → Prop) (f1 : S1 → S1) (f2 : S2 → S2) :
  (∀ s1 s2, R s1 s2 → R (f1 s1) (f2 s2)) →
  sim R (State.assign f1) (State.assign f2).
Proof. intros Hf s1 s2 HR. split; [done|by apply Hf]. Qed.

Lemma sim_int16 {S1 S2} (R : S1 → S2 → Prop) c :
  sim R (State.int16 c) (State.int16 c).
Proof. unfold State.int16. case_match; [apply sim_ret|apply sim_raise]. Qed.

Lemma sim_char_at {S1 S2} (R : S1 → S2 → Prop) str i :
  sim R (State.char_at str i) (State.char_at str i).
Proof. unfold State.char_at. case_match; [apply sim_ret|apply sim_raise]. Qed.

Lemma sim_comprehension {S1 S2 A B} (R : S1 → S2 → Prop)
    (f1 : A → State.method S1 B) (f2 : A → State.method S2 B) xs :
  (∀ x, sim R (f1 x) (f2 x)) →
  sim R (State.comprehension f1 xs) (State.comprehension f2 xs).
Proof.
  intros Hf. induction xs as [|x xs IH]; simpl; [apply sim_ret|].
  apply sim_bind; [done|]. intros y.
  apply sim_bind; [done|]. intros ys. apply sim_ret.
Qed.

Lemma sim_for_each {S1 S2 A} (R : S1 → S2 → Prop)
    (b1 : A → State.method S1 unit) (b2 : A → State.method S2 unit) xs :
  (∀ x, sim R (b1 x) (b2 x)) →
  sim R (State.for_each xs b1) (State.for_each xs b2).
Proof.
  intros Hb. induction xs as [|x xs IH]; simpl; [apply sim_ret|].
  by apply sim_bind.
Qed.

Lemma sim_setattr self f g :
  (∀ o, o_ranks (f o) = o_ranks o) →
  (∀ o ranks,
     {| State.sustain := o_sustain (f o);
        State.density_function := o_density_function (f o);
        State.key_center := o_key_center (f o);
        State.ranks := ranks |}
     = g {| State.sustain := o_sustain o;
            State.density_function := o_density_function o;
            State.key_center := o_key_center o;
            State.ranks := ranks |}) →
  sim (holds self) (setattr self f) (State.assign g).
Proof.
  intros Hf Hg. apply sim_assign.
  intros σ st [(o & items & Ho & Hitems & Hranks) <-]. split.
  - exists (f o), items. simpl.
    rewrite (lookup_total_correct _ _ _ Ho), lookup_insert_eq, Hf. done.
  - unfold read_state. simpl.
    rewrite lookup_total_insert_eq, (lookup_total_correct _ _ _ Ho), Hf.
    apply Hg.
Qed.

Lemma sim_set_rank self i rank :
  sim (holds self) (set_rank self i rank) (State.set_rank i rank).
Proof.
  intros σ st [(o & items & Ho & Hitems & Hranks) <-].
  unfold set_rank, State.set_rank.
  destruct (new_int_list rank σ) as [l σ1] eqn:Hnew.
  apply new_int_list_spec in Hnew as [Hfresh ->]. simpl.
  rewrite (lookup_total_correct _ _ _ Ho), (lookup_total_correct _ _ _ Hitems).
  unfold read_state at 1.
  rewrite (lookup_total_correct _ _ _ Ho), (lookup_total_correct _ _ _ Hitems).
  simpl. rewrite length_fmap.
  assert ((λ k, <[l := rank]> (int_lists σ) !!! k) <$> items
          = (λ k, int_lists σ !!! k) <$> items) as Hsame.
  { apply Forall_fmap_ext_1. eapply Forall_impl; [exact Hranks|].
    intros k [v Hv]. simpl. apply lookup_total_insert_ne. congruence. }
  assert (Forall (λ k, is_Some (<[l := rank]> (int_lists σ) !! k)) items)
    as Hranks1.
  { eapply Forall_impl; [exact Hranks|]. intros k [v Hv]. exists v.
    rewrite lookup_insert_ne; [done|congruence]. }
  case_bool_decide; simpl; (split; [done|]); split.
  - exists o, (<[i := l]> items). simpl.
    rewrite lookup_insert_eq. split_and!; [done..|].
    apply Forall_insert; [done|]. rewrite lookup_insert_eq. by eexists.
  - unfold read_state. simpl.
    rewrite (lookup_total_correct _ _ _ Ho), lookup_total_insert_eq.
    f_equal. rewrite list_fmap_insert, lookup_total_insert_eq. f_equal.
    exact Hsame.
  - by exists o, items.
  - unfold read_state. simpl.
    rewrite (lookup_total_correct _ _ _ Ho), (lookup_total_correct _ _ _ Hitems).
    f_equal. exact Hsame.
Qed.

Lemma sim_update_from_combined_input self combined_hex :
  sim (holds self) (update_from_combined_input self combined_hex)
      (State.update_from_combined_input combined_hex).
Proof.
  unfold update_from_combined_input, State.update_from_combined_input.
  case_match; [apply sim_raise|].
  repeat first
    [ apply sim_for_each; intros ?
    | apply sim_comprehension; intros ?
    | apply sim_char_at | apply sim_int16
    | by apply sim_setattr
    | apply sim_set_rank
    | apply sim_bind; [|intros ?] ].
Qed.

(** X1.  One call of [process_input] over the store does to the values of
    the two states what the engine by value does, and ends the same way:
    the in-place writes and the copy never make one state show through
    the other. *)
Theorem store_refines_value σ self combined_hex :
  is_state σ (current_state self) →
  let result := process_input combined_hex self σ in
  (read_engine result.2 result.1.1, result.1.2)
    = State.process_input combined_hex (read_engine σ self) ∧
  is_state result.2 (current_state result.1.1).
Proof.
  intros Hstate result.
  destruct result as [[self' out] σ'] eqn:Hresult. subst result.
  destruct (process_input_snapshot _ _ _ _ _ _ Hstate Hresult)
    as (Hcur & Hprev & _).
  revert Hresult. unfold process_input, State.process_input.
  destruct (copy (current_state self) σ) as [snapshot σ1] eqn:Hcopy.
  destruct (copy_spec _ _ _ _ Hstate Hcopy)
    as (o' & items' & Hnone & Hst1 & Hnone' & Hrl1 & Hsub1 & Hnew & Hread).
  assert (holds (current_state self) σ1 (read_state σ (current_state self)))
    as Hholds.
  { destruct Hstate as (o & items & Ho & Hitems & Hranks).
    assert (snapshot ≠ current_state self) as Hne by congruence.
    assert (o_ranks o' ≠ o_ranks o) as Hne' by congruence.
    assert (states σ1 !! current_state self = Some o) as Ho1
      by by rewrite Hst1, lookup_insert_ne.
    assert (rank_lists σ1 !! o_ranks o = Some items) as Hitems1
      by by rewrite Hrl1, lookup_insert_ne.
    split.
    - exists o, items. split_and!; [done..|].
      eapply Forall_impl; [exact Hranks|]. intros k [v Hv]. exists v.
      by eapply lookup_weaken.
    - apply (read_state_frame _ _ _ o items); try done.
      eapply Forall_impl; [exact Hranks|]. intros k [v Hv].
      by rewrite Hv, (lookup_weaken _ _ _ _ Hv Hsub1). }
  destruct (sim_update_from_combined_input (current_state self) combined_hex
              _ _ Hholds) as [Hr [Hstate2 Hvalue2]].
  simpl. rewrite State_copy_value.
  destruct (update_from_combined_input _ _ σ1) as [r σ2].
  destruct (State.update_from_combined_input _ _) as [r' st2].
  simpl in *. subst r'.
  destruct r as [[]|e].
  - destruct (State._run_dbn_algorithm _) as [calls messages] eqn:Hrun.
    intros [= <- <- <-]. simpl in *. unfold read_engine. simpl.
    rewrite Hvalue2, Hprev in *.
    unfold read_engine in Hrun. simpl in Hrun. rewrite Hvalue2, Hprev in Hrun.
    by rewrite Hrun.
  - intros [= <- <- <-]. simpl in *. unfold read_engine. simpl.
    by rewrite Hvalue2, Hprev.
Qed.

Lemma store_refines_value_example :
  let engine := DBNEngine_new.1 in
  let σ := DBNEngine_new.2 in
  let result := process_input example_hex engine σ in
  (read_engine result.2 result.1.1, result.1.2)
    = State.process_input example_hex State.DBNEngine_new.
Proof.
  intros engine σ result.
  destruct (store_refines_value σ engine example_hex) as [Hvalue _].
  - exists (states σ !!! current_state engine),
      (rank_lists σ !!! o_ranks (states σ !!! current_state engine)).
    split_and!; [vm_compute; reflexivity..|].
    apply (bool_decide_unpack _). vm_compute. exact I.
  - fold result in Hvalue. rewrite Hvalue. vm_compute. reflexivity.
Defined.

End Refinement.

(** ** What a successful update stores *)

Section Parsing.
Import State.

Lemma hex_value_nibble c v : hex_value c = Some v → nibble v.
Proof.
  unfold hex_value, nibble. intros Hv.
  repeat (case_match; simplify_eq); lia.
Qed.

(** The list comprehension, in closed form. *)
Lemma comprehension_int16 {S} cs (s : S) :
  comprehension int16 cs s =
  match mapM hex_value cs with
  | Some vs => (Ok vs, s)
  | None => (Raise (ValueError "invalid literal for int() with base 16"), s)
  end.
Proof.
  induction cs as [|c cs IH]; [done|]. cbn [comprehension].
  unfold mbind at 1, method_bind. unfold int16 at 1.
  destruct (hex_value c) as [v|] eqn:Hv; simpl; rewrite ?Hv; simpl; [|done].
  unfold mbind at 1, method_bind. rewrite IH.
  by destruct (mapM hex_value cs).
Qed.

Lemma set_rank_ok i rank self self' :
  set_rank i rank self = (Ok tt, self') →
  (i < length (ranks self))%nat ∧
  self' = {| sustain := sustain self;
             density_function := density_function self;
             key_center := key_center self;
             ranks := <[i := rank]> (ranks self) |}.
Proof. unfold set_rank. case_bool_decide; by intros [= <-]. Qed.

(** The loop over the ranks, when it returns: the scalar fields are as
    before, the ranks it names hold the parsed groups, the others are as
    before. *)
Lemma for_each_ranks_ok (combined_hex : string) indices self self' :
  for_each indices (λ i,
    rank ← comprehension int16
              (slice combined_hex (3 + i * 4) (3 + i * 4 + 4));
    set_rank i rank) self = (Ok tt, self') →
  sustain self' = sustain self ∧
  density_function self' = density_function self ∧
  key_center self' = key_center self ∧
  length (ranks self') = length (ranks self) ∧
  (∀ i, i ∈ indices →
        (i < length (ranks self))%nat ∧
        ranks self' !! i
          = mapM hex_value (slice combined_hex (3 + i * 4) (3 + i * 4 + 4)) ∧
        is_Some (ranks self' !! i)) ∧
  (∀ j, j ∉ indices → ranks self' !! j = ranks self !! j).
Proof.
  revert self. induction indices as [|i rest IH]; intros self Hok.
  { simpl in Hok. injection Hok as <-. split_and!; try done.
    intros i Hi. by apply elem_of_nil in Hi. }
  cbn [for_each] in Hok. apply bind_ok in Hok as ([] & self1 & Hbody & Hrest).
  apply bind_ok in Hbody as (rank & self0 & Hrank & Hset).
  rewrite comprehension_int16 in Hrank.
  destruct (mapM hex_value _) as [vals|] eqn:Hvals; [|done].
  injection Hrank as -> ->.
  apply set_rank_ok in Hset as [Hi ->].
  destruct (IH _ Hrest) as (Hs & Hd & Hk & Hlen & Hin & Hout). simpl in *.
  rewrite length_insert in Hlen.
  split_and!; try done.
  - intros i' [->|Hi']%elem_of_cons.
    + split; [done|].
      destruct (decide (i ∈ rest)) as [Hirest|Hirest].
      * destruct (Hin i Hirest) as (_ & -> & Hsome).
        split; [done|]. by rewrite Hvals.
      * rewrite (Hout i Hirest), list_lookup_insert_eq by done. by rewrite Hvals.
    + destruct (Hin i' Hi') as (Hlt & ? & ?).
      rewrite length_insert in Hlt. done.
  - intros j Hj. apply not_elem_of_cons in Hj as [Hne Hj].
    rewrite (Hout j Hj). by apply list_lookup_insert_ne.
Qed.

(** The loop returns when every group parses and every rank exists. *)
Lemma for_each_ranks_succeeds (combined_hex : string) indices self :
  (∀ i, i ∈ indices →
        (i < length (ranks self))%nat ∧
        is_Some (mapM hex_value
                   (slice combined_hex (3 + i * 4) (3 + i * 4 + 4)))) →
  ∃ self',
    for_each indices (λ i,
      rank ← comprehension int16
                (slice combined_hex (3 + i * 4) (3 + i * 4 + 4));
      set_rank i rank) self = (Ok tt, self').
Proof.
  revert self. induction indices as [|i rest IH]; intros self Hall.
  { by eexists. }
  destruct (Hall i ltac:(by left)) as [Hi [vals Hvals]].
  cbn [for_each]. unfold mbind at 1, method_bind. unfold mbind at 1, method_bind.
  rewrite comprehension_int16, Hvals. unfold set_rank.
  rewrite bool_decide_eq_true_2 by done.
  apply IH. intros i' Hi'. simpl. rewrite length_insert.
  apply Hall. by right.
Qed.

Lemma slice_hex (combined_hex : string) a b :
  Forall (λ c, is_Some (hex_value c))
         (String.list_ascii_of_string combined_hex) →
  is_Some (mapM hex_value (slice combined_hex a b)).
Proof.
  intros Hall. apply mapM_is_Some. unfold slice.
  by apply Forall_take, Forall_drop.
Qed.

Lemma length_list_ascii_of_string (s : string) :
  length (String.list_ascii_of_string s) = String.length s.
Proof. induction s as [|c s IH]; simpl; [done|by rewrite IH]. Qed.

(** The update, once the length is right: the three leading characters
    are parsed and stored in turn, then the loop runs. *)
Lemma update_unfold (combined_hex : string) (self : SystemState) :
  String.length combined_hex = 35%nat →
  update_from_combined_input combined_hex self =
  let chars := String.list_ascii_of_string combined_hex in
  let loop :=
    for_each (seq 0 8) (λ i,
      rank ← comprehension int16
                (slice combined_hex (3 + i * 4) (3 + i * 4 + 4));
      set_rank i rank) in
  let invalid := ValueError "invalid literal for int() with base 16" in
  match chars !! 0%nat, chars !! 1%nat, chars !! 2%nat with
  | Some c0, Some c1, Some c2 =>
      match hex_value c0 with
      | None => (Raise invalid, self)
      | Some v0 =>
          match hex_value c1 with
          | None => (Raise invalid, set_sustain v0 self)
          | Some v1 =>
              match hex_value c2 with
              | None =>
                  (Raise invalid, set_density_function v1 (set_sustain v0 self))
              | Some v2 =>
                  loop (set_key_center v2
                          (set_density_function v1 (set_sustain v0 self)))
              end
          end
      end
  | _, _, _ => (Raise IndexError, self)
  end.
Proof.
  intros Hlen. unfold update_from_combined_input, expected_length.
  rewrite Hlen. cbn [negb Z.eqb Z.of_nat]. simpl (negb _).
  remember (for_each _ _) as loop eqn:Hloop. cbv zeta.
  assert (length (String.list_ascii_of_string combined_hex) = 35%nat) as Hl
    by by rewrite length_list_ascii_of_string.
  destruct (lookup_lt_is_Some_2 (String.list_ascii_of_string combined_hex) 0)
    as [c0 H0]; [lia|].
  destruct (lookup_lt_is_Some_2 (String.list_ascii_of_string combined_hex) 1)
    as [c1 H1]; [lia|].
  destruct (lookup_lt_is_Some_2 (String.list_ascii_of_string combined_hex) 2)
    as [c2 H2]; [lia|].
  rewrite H0, H1, H2.
  unfold mbind, method_bind, char_at, int16, assign, mret, method_ret, raise.
  rewrite H0, H1, H2.
  destruct (hex_value c0); [|done].
  destruct (hex_value c1); [|done].
  by destruct (hex_value c2).
Qed.

(** The code points below 256 that [int(c, 16)] accepts. *)
Lemma hex_value_digits (c : ascii) : is_Some (hex_value c) ↔ c ∈ hex_digits.
Proof.
  assert (bool_decide (is_Some (hex_value c)) = bool_decide (c ∈ hex_digits))
    as Heq by (by destruct c as [[] [] [] [] [] [] [] []]; vm_compute).
  split; intros H; apply (bool_decide_unpack _).
  - rewrite <- Heq. by apply bool_decide_pack.
  - rewrite Heq. by apply bool_decide_pack.
Qed.

(** X2.  [update_from_combined_input] returns normally exactly when the
    string has 35 characters, [int(c, 16)] accepts each of them, and the
    state has at least eight ranks to assign to.  Among the characters
    below code point 256, the ones a string of this model holds,
    [int(c, 16)] accepts exactly [0-9], [a-f] and [A-F]. *)
Theorem update_succeeds_iff (combined_hex : string) (self : SystemState) :
  ((∃ self', update_from_combined_input combined_hex self = (Ok tt, self')) ↔
   String.length combined_hex = 35%nat ∧
   Forall (λ c, is_Some (hex_value c))
          (String.list_ascii_of_string combined_hex) ∧
   (8 ≤ length (ranks self))%nat) ∧
  (∀ c : ascii, is_Some (hex_value c) ↔ c ∈ hex_digits).
Proof.
  split; [|apply hex_value_digits].
  split.
  - intros [self' Hok].
    pose proof (update_ok_hex _ _ _ Hok) as (Hlen & _ & _).
    split_and!; [done| |].
    + destruct (decide (Exists (λ c, hex_value c = None)
                          (String.list_ascii_of_string combined_hex)))
        as [Hbad|Hgood].
      * destruct (update_non_hex_raises _ self Hbad) as (e & s' & Hraise).
        congruence.
      * apply Forall_Exists_neg in Hgood.
        eapply Forall_impl; [exact Hgood|]. intros c Hc. simpl in Hc.
        by destruct (hex_value c); [eexists|].
    + rewrite update_unfold in Hok by done. cbv zeta in Hok.
      repeat (case_match; try done).
      apply for_each_ranks_ok in Hok as (_ & _ & _ & _ & Hin & _).
      destruct (Hin 7%nat) as [Hlt _]; [apply elem_of_seq; lia|].
      simpl in Hlt. lia.
  - intros (Hlen & Hhex & Hranks).
    rewrite update_unfold by done. cbv zeta.
    assert (length (String.list_ascii_of_string combined_hex) = 35%nat) as Hl
      by by rewrite length_list_ascii_of_string.
    destruct (lookup_lt_is_Some_2 (String.list_ascii_of_string combined_hex) 0)
      as [c0 H0]; [lia|].
    destruct (lookup_lt_is_Some_2 (String.list_ascii_of_string combined_hex) 1)
      as [c1 H1]; [lia|].
    destruct (lookup_lt_is_Some_2 (String.list_ascii_of_string combined_hex) 2)
      as [c2 H2]; [lia|].
    rewrite H0, H1, H2.
    destruct (proj1 (Forall_lookup _ _) Hhex _ _ H0) as [v0 ->].
    destruct (proj1 (Forall_lookup _ _) Hhex _ _ H1) as [v1 ->].
    destruct (proj1 (Forall_lookup _ _) Hhex _ _ H2) as [v2 ->].
    apply for_each_ranks_succeeds. intros i Hi%elem_of_seq. simpl.
    split; [lia|]. by apply slice_hex.
Qed.

Lemma update_succeeds_on_new_state :
  ∃ self',
    update_from_combined_input example_hex SystemState_new = (Ok tt, self').
Proof.
  apply (proj2 (proj1 (update_succeeds_iff example_hex SystemState_new))).
  split_and!; [reflexivity| |simpl; lia].
  apply (bool_decide_unpack _). vm_compute. exact I.
Defined.

(** X3.  After a successful update the three scalar fields hold the values
    of the characters 0, 1 and 2; rank [i], for [i] below 8, holds the
    values of the four characters from position [3 + 4 i] on; these are
    all nibbles; ranks from the ninth on, if any, are as before. *)
Theorem update_stores_positional_parse (combined_hex : string)
    (self self' : SystemState) :
  update_from_combined_input combined_hex self = (Ok tt, self') →
  let chars := String.list_ascii_of_string combined_hex in
  chars !! 0%nat ≫= hex_value = Some (sustain self') ∧
  chars !! 1%nat ≫= hex_value = Some (density_function self') ∧
  chars !! 2%nat ≫= hex_value = Some (key_center self') ∧
  nibble (sustain self') ∧ nibble (density_function self') ∧
  nibble (key_center self') ∧
  (∀ i, (i < 8)%nat →
        ranks self' !! i = mapM hex_value (take 4 (drop (3 + 4 * i) chars)) ∧
        ∃ rank, ranks self' !! i = Some rank ∧
                length rank = 4%nat ∧ Forall nibble rank) ∧
  (∀ j, (8 ≤ j)%nat → ranks self' !! j = ranks self !! j) ∧
  length (ranks self') = length (ranks self).
Proof.
  intros Hok chars.
  pose proof (update_ok_hex _ _ _ Hok) as (Hlen & _ & _).
  assert (length chars = 35%nat) as Hl
    by by unfold chars; rewrite length_list_ascii_of_string.
  rewrite update_unfold in Hok by done. cbv zeta in Hok. fold chars in Hok.
  destruct (chars !! 0%nat) as [c0|] eqn:H0; [|done].
  destruct (chars !! 1%nat) as [c1|] eqn:H1; [|done].
  destruct (chars !! 2%nat) as [c2|] eqn:H2; [|done].
  destruct (hex_value c0) as [v0|] eqn:Hv0; [|done].
  destruct (hex_value c1) as [v1|] eqn:Hv1; [|done].
  destruct (hex_value c2) as [v2|] eqn:Hv2; [|done].
  apply for_each_ranks_ok in Hok as (Hs & Hd & Hk & Hlenr & Hin & Hout).
  simpl in Hs, Hd, Hk, Hlenr. rewrite Hs, Hd, Hk.
  split_and!; try done; try by eapply hex_value_nibble.
  - intros i Hi. destruct (Hin i) as (_ & Hrank & [rank Hsome]);
      [apply elem_of_seq; lia|].
    unfold slice in Hrank.
    replace (3 + i * 4 + 4 - (3 + i * 4))%nat with 4%nat in Hrank by lia.
    replace (3 + i * 4)%nat with (3 + 4 * i)%nat in Hrank by lia.
    split; [done|]. exists rank. split; [done|].
    rewrite Hsome in Hrank. symmetry in Hrank. split.
    + rewrite <- (length_mapM _ _ _ Hrank), length_take, length_drop.
      unfold chars in Hl. rewrite Hl. lia.
    + apply mapM_Some_1 in Hrank. clear -Hrank.
      induction Hrank; constructor; [by eapply hex_value_nibble|done].
  - intros j Hj. apply Hout. rewrite elem_of_seq. lia.
Qed.

Lemma update_example_parse :
  let self' := (update_from_combined_input example_hex SystemState_new).2 in
  sustain self' = 0 ∧ density_function self' = 1 ∧ key_center self' = 2 ∧
  ranks self' !! 0%nat = Some [0; 0; 0; 10].
Proof.
  intros self'.
  destruct (update_stores_positional_parse example_hex SystemState_new self')
    as (Hs & Hd & Hk & _ & _ & _ & Hranks & _).
  { vm_compute. reflexivity. }
  destruct (Hranks 0%nat ltac:(lia)) as [Hrank _].
  split_and!.
  - apply (inj Some). rewrite <- Hs. reflexivity.
  - apply (inj Some). rewrite <- Hd. reflexivity.
  - apply (inj Some). rewrite <- Hk. reflexivity.
  - rewrite Hrank. reflexivity.
Defined.

End Parsing.

(** ** Invariants of the state model *)

Section StateInvariants.
Import State.

Lemma keeps_for_each_in {S A} (I : S → Prop) xs
    (body : A → method S unit) :
  (∀ x, x ∈ xs → keeps I (body x)) → keeps I (for_each xs body).
Proof.
  induction xs as [|x xs IH]; intros Hbody; simpl; [apply keeps_ret|].
  apply keeps_bind; [apply Hbody; by left|]. intros _. apply IH.
  intros y Hy. apply Hbody. by right.
Qed.

Lemma well_formed_set_sustain v self :
  nibble v → well_formed self → well_formed (set_sustain v self).
Proof. intros Hv (? & ? & ? & ? & ?). by split_and!. Qed.

Lemma well_formed_set_density_function v self :
  nibble v → well_formed self → well_formed (set_density_function v self).
Proof. intros Hv (? & ? & ? & ? & ?). by split_and!. Qed.

Lemma well_formed_set_key_center v self :
  nibble v → well_formed self → well_formed (set_key_center v self).
Proof. intros Hv (? & ? & ? & ? & ?). by split_and!. Qed.

(** One turn of the loop keeps the shape of the state: the rank it stores
    is a whole group of four parsed digits. *)
Lemma keeps_well_formed_rank (combined_hex : string) i :
  String.length combined_hex = 35%nat → (i < 8)%nat →
  keeps well_formed
    (rank ← comprehension int16
               (slice combined_hex (3 + i * 4) (3 + i * 4 + 4));
     set_rank i rank).
Proof.
  intros Hlen Hi self r self' Hwf. unfold mbind, method_bind.
  rewrite comprehension_int16.
  destruct (mapM hex_value _) as [vals|] eqn:Hvals; [|by intros [= <- <-]].
  unfold set_rank. case_bool_decide; intros [= <- <-]; [|done].
  destruct Hwf as (? & ? & ? & Hlenr & Hranks).
  split_and!; simpl; try done; [by rewrite length_insert|].
  apply Forall_insert; [done|]. split.
  - rewrite <- (length_mapM _ _ _ Hvals). unfold slice.
    rewrite length_take, length_drop, length_list_ascii_of_string, Hlen. lia.
  - apply mapM_Some_1 in Hvals. clear -Hvals.
    induction Hvals; constructor; [by eapply hex_value_nibble|done].
Qed.

Lemma keeps_well_formed_update (combined_hex : string) :
  keeps well_formed (update_from_combined_input combined_hex).
Proof.
  intros self r self' Hwf.
  destruct (decide (String.length combined_hex = 35%nat)) as [Hlen|Hlen];
    [|rewrite update_wrong_length by done; by intros [= <- <-]].
  rewrite update_unfold by done. cbv zeta.
  destruct (_ !! 0%nat) as [c0|]; [|by intros [= <- <-]].
  destruct (_ !! 1%nat) as [c1|]; [|by intros [= <- <-]].
  destruct (_ !! 2%nat) as [c2|]; [|by intros [= <- <-]].
  destruct (hex_value c0) as [v0|] eqn:Hv0; [|by intros [= <- <-]].
  apply hex_value_nibble in Hv0.
  pose proof (well_formed_set_sustain v0 self Hv0 Hwf) as Hwf0.
  destruct (hex_value c1) as [v1|] eqn:Hv1; [|by intros [= <- <-]].
  apply hex_value_nibble in Hv1.
  pose proof (well_formed_set_density_function v1 _ Hv1 Hwf0) as Hwf1.
  destruct (hex_value c2) as [v2|] eqn:Hv2; [|by intros [= <- <-]].
  apply hex_value_nibble in Hv2.
  pose proof (well_formed_set_key_center v2 _ Hv2 Hwf1) as Hwf2.
  eapply keeps_for_each_in; [|exact Hwf2].
  intros i Hi%elem_of_seq. apply keeps_well_formed_rank; [done|lia].
Qed.

(** X4.  Three nibbles and eight ranks of four nibbles is an invariant of
    [process_input]: from a current state of that shape, whatever the
    input (valid or not), the current and the previous state have that
    shape afterwards. *)
Theorem process_input_keeps_well_formed (combined_hex : string)
    (self : DBNEngine) :
  well_formed (current_state self) →
  well_formed (current_state (process_input combined_hex self).1) ∧
  well_formed (previous_state (process_input combined_hex self).1).
Proof.
  intros Hwf. unfold process_input. simpl. rewrite State_copy_value.
  destruct (update_from_combined_input combined_hex (current_state self))
    as [r current] eqn:Hupdate.
  pose proof (keeps_well_formed_update _ _ _ _ Hwf Hupdate).
  destruct r; [destruct (_run_dbn_algorithm _)|]; by simpl.
Qed.

Lemma well_formed_after_invalid_digit :
  well_formed (current_state (process_input invalid_digit_hex DBNEngine_new).1).
Proof.
  apply (process_input_keeps_well_formed invalid_digit_hex DBNEngine_new).
  unfold well_formed, nibble. simpl. split_and!; try lia.
  repeat constructor; lia.
Defined.

(** The loop, run again on the state it produced, changes nothing. *)
Lemma for_each_ranks_again (combined_hex : string) indices self self' :
  let loop :=
    for_each indices (λ i,
      rank ← comprehension int16
                (slice combined_hex (3 + i * 4) (3 + i * 4 + 4));
      set_rank i rank) in
  loop self = (Ok tt, self') → loop self' = (Ok tt, self').
Proof.
  intros loop Hok.
  pose proof (for_each_ranks_ok _ _ _ _ Hok) as (Hs & Hd & Hk & Hlen & Hin & Hout).
  destruct (for_each_ranks_succeeds combined_hex indices self') as [self'' Hok'].
  { intros i Hi. destruct (Hin i Hi) as (Hlt & Hrank & Hsome).
    split; [lia|]. by rewrite <- Hrank. }
  fold loop in Hok'. rewrite Hok'. f_equal.
  pose proof (for_each_ranks_ok _ _ _ _ Hok')
    as (Hs' & Hd' & Hk' & Hlen' & Hin' & Hout').
  destruct self' as [s' d' k' ranks'], self'' as [s'' d'' k'' ranks''].
  simpl in *. f_equal; try done.
  apply list_eq. intros i.
  destruct (decide (i ∈ indices)) as [Hi|Hi].
  - destruct (Hin i Hi) as (_ & -> & _). by destruct (Hin' i Hi) as (_ & -> & _).
  - by apply Hout'.
Qed.

Lemma update_again (combined_hex : string) (self self' : SystemState) :
  update_from_combined_input combined_hex self = (Ok tt, self') →
  update_from_combined_input combined_hex self' = (Ok tt, self').
Proof.
  intros Hok.
  pose proof (update_ok_hex _ _ _ Hok) as (Hlen & _ & _).
  rewrite update_unfold in Hok |- * by done. cbv zeta in Hok |- *.
  repeat (case_match; try done).
  pose proof (for_each_ranks_ok _ _ _ _ Hok) as (Hs & Hd & Hk & _).
  apply for_each_ranks_again in Hok.
  destruct self' as [s' d' k' ranks']. simpl in *. by subst.
Qed.

Lemma scan_ranks_same i (ranks : list (list Z)) :
  scan_ranks i (zip ranks ranks) = 0.
Proof.
  revert i. induction ranks as [|rank rest IH]; intros i; simpl; [done|].
  by rewrite bool_decide_eq_false_2 by (by intros []).
Qed.

(** X5.  Processing the same valid input a second time finds no changed
    rank: it takes the plain re-emission, sends the same messages, and
    leaves both states equal to the current state. *)
Theorem process_input_again (combined_hex : string) (self self1 : DBNEngine)
    calls messages :
  process_input combined_hex self = (self1, Sent calls messages) →
  process_input combined_hex self1 =
    ({| current_state := current_state self1;
        previous_state := current_state self1 |},
     Sent [Send_current_values] messages).
Proof.
  unfold process_input. simpl. rewrite !State_copy_value.
  destruct (update_from_combined_input combined_hex (current_state self))
    as [[[]|e] current] eqn:Hupdate; [|done].
  destruct (_run_dbn_algorithm _) as [calls' messages'] eqn:Hrun.
  intros [= <- <- <-]. simpl.
  rewrite (update_again _ _ _ Hupdate).
  unfold _run_dbn_algorithm, _check_bypass_rank in *. simpl in *.
  rewrite scan_ranks_same. simpl.
  assert (messages' = [("/sustain"%string, sustain current);
                       ("/keyCenter"%string, key_center current)]) as ->; [|done].
  revert Hrun. unfold _execute_full_dbn, _substitute_rank, _send_current_values.
  simpl. by repeat case_match; intros [= <- <-].
Qed.

Lemma process_example_twice :
  let self1 := (process_input example_hex DBNEngine_new).1 in
  (process_input example_hex self1).2
    = Sent [Send_current_values]
           [("/sustain"%string, 0); ("/keyCenter"%string, 2)].
Proof.
  intros self1.
  by rewrite (process_input_again example_hex DBNEngine_new self1
                [Execute_full_dbn; Send_current_values]
                [("/sustain"%string, 0); ("/keyCenter"%string, 2)]
                eq_refl).
Defined.

End StateInvariants.

(** ** The change set *)

Section Changes.
Import State.

Lemma rank_key_inj (a b : string) :
  ("rank_" +:+ a = "rank_" +:+ b)%string → a = b.
Proof. intros H. vm_compute in H. by injection H. Qed.

Lemma rank_changes_elem i pairs key v :
  (key, v) ∈ rank_changes i pairs ↔
  ∃ k c p, pairs !! k = Some (c, p) ∧ c ≠ p ∧
           key = ("rank_" +:+ pretty (i + k + 1)%nat)%string ∧
           v = Changed_rank c.
Proof.
  revert i. induction pairs as [|[c p] rest IH]; intros i; simpl.
  { split; [by intros ?%elem_of_nil|]. by intros (k & ? & ? & Hk & _). }
  rewrite elem_of_app, IH. split.
  - intros [Hhead|(k & c' & p' & Hk & Hne & -> & ->)].
    + case_bool_decide; [|by apply elem_of_nil in Hhead].
      apply list_elem_of_singleton in Hhead as [= -> ->].
      exists 0%nat, c, p. by rewrite Nat.add_0_r.
    + exists (S k), c', p'. split_and!; try done.
      by replace (i + S k + 1)%nat with (S i + k + 1)%nat by lia.
  - intros ([|k] & c' & p' & Hk & Hne & -> & ->); simpl in Hk.
    + left. simplify_eq. rewrite bool_decide_eq_true_2 by done.
      rewrite Nat.add_0_r. by apply list_elem_of_singleton.
    + right. exists k, c', p'. split_and!; try done.
      by replace (i + S k + 1)%nat with (S i + k + 1)%nat by lia.
Qed.

Lemma rank_changes_keys i pairs :
  NoDup (rank_changes i pairs).*1.
Proof.
  revert i. induction pairs as [|[c p] rest IH]; intros i; simpl;
    [constructor|].
  case_bool_decide; simpl; [|done]. constructor; [|done].
  intros ((key & v) & Hkey & (k & c' & p' & _ & _ & -> & _)%rank_changes_elem)
    %list_elem_of_fmap.
  simpl in Hkey. apply rank_key_inj, (inj pretty) in Hkey. lia.
Qed.

Lemma rank_key_not_scalar (n : nat) :
  ("rank_" +:+ pretty n)%string ∉ scalar_keys.
Proof.
  unfold scalar_keys. generalize (pretty n). intros x.
  rewrite !not_elem_of_cons. split_and!;
    try (intros H; vm_compute in H; discriminate H).
  apply not_elem_of_nil.
Qed.

(** X6.  [get_changes] is empty exactly when the three scalar fields are
    equal and no rank differs; it never holds a key twice; it holds the
    key [rank_<k+1>], with the current rank, exactly when rank [k+1]
    differs from the previous one; and [_check_bypass_rank] is 0 exactly
    when all its keys are scalar fields. *)
Theorem get_changes_reports (self previous_state : SystemState) :
  let pairs := zip (ranks self) (ranks previous_state) in
  (get_changes self previous_state = [] ↔
   sustain self = sustain previous_state ∧
   density_function self = density_function previous_state ∧
   key_center self = key_center previous_state ∧
   ∀ k, ¬ differs pairs k) ∧
  NoDup (get_changes self previous_state).*1 ∧
  (∀ k rank,
     (("rank_" +:+ pretty (k + 1)%nat)%string, Changed_rank rank)
       ∈ get_changes self previous_state ↔
     ∃ p, pairs !! k = Some (rank, p) ∧ rank ≠ p) ∧
  (_check_bypass_rank {| current_state := self;
                         previous_state := previous_state |} = 0 ↔
   ∀ key v, (key, v) ∈ get_changes self previous_state → key ∈ scalar_keys).
Proof.
  intros pairs.
  assert (rank_changes 0 pairs = [] ↔ ∀ k, ¬ differs pairs k) as Hnone.
  { split.
    - intros Hnil k (c & p & Hk & Hne).
      assert ((("rank_" +:+ pretty (0 + k + 1)%nat)%string, Changed_rank c)
                ∈ rank_changes 0 pairs) as Hin
        by (apply rank_changes_elem; by exists k, c, p).
      rewrite Hnil in Hin. by apply elem_of_nil in Hin.
    - intros Hno. destruct (rank_changes 0 pairs) as [|[key v] rest] eqn:Hrc;
        [done|].
      assert ((key, v) ∈ rank_changes 0 pairs) as Hin
        by (rewrite Hrc; by left).
      apply rank_changes_elem in Hin as (k & c & p & Hk & Hne & _).
      destruct (Hno k). by exists c, p. }
  assert (∃ scalars,
    get_changes self previous_state = scalars ++ rank_changes 0 pairs ∧
    (scalars = [] ↔
     sustain self = sustain previous_state ∧
     density_function self = density_function previous_state ∧
     key_center self = key_center previous_state) ∧
    (∀ key v, (key, v) ∈ scalars →
              key ∈ scalar_keys ∧ ∃ z, v = Changed_int z) ∧
    NoDup scalars.*1)
    as (scalars & -> & Hscalars_nil & Hscalars_keys & Hscalars_nodup).
  { eexists. split; [unfold get_changes; rewrite !app_assoc; reflexivity|].
    split_and!.
    - destruct (decide (sustain self = sustain previous_state)) as [Hs|Hs];
        [rewrite (bool_decide_eq_false_2 _ (λ H, H Hs))
        |rewrite (bool_decide_eq_true_2 _ Hs)];
      (destruct (decide (density_function self
                         = density_function previous_state)) as [Hd|Hd];
        [rewrite (bool_decide_eq_false_2 _ (λ H, H Hd))
        |rewrite (bool_decide_eq_true_2 _ Hd)]);
      (destruct (decide (key_center self = key_center previous_state))
        as [Hk|Hk];
        [rewrite (bool_decide_eq_false_2 _ (λ H, H Hk))
        |rewrite (bool_decide_eq_true_2 _ Hk)]);
      cbn [app]; split; first [discriminate | tauto | idtac].
      all: try (intros _; by split_and!).
    - intros key v. unfold scalar_keys. rewrite !elem_of_app.
      intros [[Hin|Hin]|Hin]; revert Hin; case_bool_decide;
        try (by intros ?%elem_of_nil);
        intros [= -> ->]%list_elem_of_singleton; (split; [|by eexists]).
      + apply list_elem_of_here.
      + apply list_elem_of_further, list_elem_of_here.
      + do 2 apply list_elem_of_further. apply list_elem_of_here.
    - repeat case_bool_decide; cbn [app fmap list_fmap fst];
        apply (bool_decide_unpack _); vm_compute; exact I. }
  split_and!.
  - split.
    + intros [Hsc Hrc]%app_eq_nil. apply Hscalars_nil in Hsc as (? & ? & ?).
      split_and!; try done. by apply Hnone.
    + intros (Hs & Hd & Hk & Hno).
      rewrite (proj2 Hscalars_nil), (proj2 Hnone); done.
  - rewrite fmap_app. apply NoDup_app. split_and!;
      [done| |apply rank_changes_keys].
    intros key ((key' & v) & -> & Hin)%list_elem_of_fmap
      ((key'' & v') & Hkey & (k & ? & ? & _ & _ & -> & _)%rank_changes_elem)
      %list_elem_of_fmap.
    simpl in Hkey. destruct (Hscalars_keys _ _ Hin) as [Hkey' _].
    rewrite Hkey in Hkey'. by apply rank_key_not_scalar in Hkey'.
  - intros k rank. rewrite elem_of_app, rank_changes_elem. split.
    + intros [Hin|(k' & c & p & Hk & Hne & Hkey & [= ->])].
      * by destruct (Hscalars_keys _ _ Hin) as [_ [z ?]].
      * apply rank_key_inj, (inj pretty) in Hkey.
        assert (k' = k) as -> by lia. by exists p.
    + intros (p & Hk & Hne). right. by exists k, rank, p.
  - unfold _check_bypass_rank. simpl. fold pairs.
    rewrite scan_ranks_zero, <- Hnone. split.
    + intros Hnil key v. rewrite Hnil, app_nil_r. intros Hin.
      by destruct (Hscalars_keys _ _ Hin).
    + intros Hkeys. destruct (rank_changes 0 pairs) as [|[key v] rest] eqn:Hrc;
        [done|].
      assert ((key, v) ∈ rank_changes 0 pairs) as Hin by (rewrite Hrc; by left).
      pose proof Hin as (k & ? & ? & _ & _ & -> & _)%rank_changes_elem.
      destruct (rank_key_not_scalar (0 + k + 1)).
      apply (Hkeys _ v). rewrite elem_of_app, <- Hrc. by right.
Qed.

End Changes.

(** ** The pending entries of the reassembler *)

Section Pending.
Import Reassembly.

Lemma recorded_incomplete (flag data : string) (sender : addr) (now : Z)
    (pending_inputs : gmap addr InputState) :
  let st := recorded flag data sender now pending_inputs in
  truthy (uin1 st) && truthy (uin2 st) = false → incomplete st.
Proof.
  intros st Hfalse. split.
  - unfold st, recorded, add_input. simpl. rewrite truthy_py_and.
    unfold st, recorded, add_input in Hfalse. simpl in Hfalse. exact Hfalse.
  - apply andb_false_iff in Hfalse as [H|H]; [left|right];
      by destruct (uin1 st), (uin2 st).
Qed.

Lemma handle_keeps_incomplete (flag data : string) (sender : addr) (now : Z)
    (pending_inputs : gmap addr InputState) :
  all_incomplete pending_inputs →
  all_incomplete (_handle_user_input flag data sender now pending_inputs).1.
Proof.
  intros Hall. rewrite handle_user_input_step. cbv zeta.
  destruct (truthy _ && truthy _) eqn:Hcomplete; simpl.
  - by apply map_Forall_delete.
  - apply map_Forall_insert_2; [|done]. by apply recorded_incomplete.
Qed.

Lemma timeout_is_delete (session_key : addr)
    (pending_inputs : gmap addr InputState) :
  all_incomplete pending_inputs →
  _timeout_incomplete_input session_key pending_inputs
    = delete session_key pending_inputs.
Proof.
  intros Hall. unfold _timeout_incomplete_input.
  destruct (pending_inputs !! session_key) as [st|] eqn:Hst.
  - destruct (map_Forall_lookup_1 _ _ _ _ Hall Hst) as [-> _]. done.
  - by rewrite delete_id.
Qed.

Lemma handle_all_keeps_incomplete (fs : list fragment)
    (pending_inputs : gmap addr InputState) :
  all_incomplete pending_inputs →
  all_incomplete (handle_all fs pending_inputs).1.
Proof.
  revert pending_inputs. induction fs as [|f fs IH]; intros p Hall; [done|].
  simpl.
  pose proof (handle_keeps_incomplete (f_flag f) (f_data f) (f_sender f)
                (f_now f) p Hall) as Hstep.
  destruct (_handle_user_input _ _ _ _ p) as [p1 e].
  specialize (IH p1 Hstep). by destruct (handle_all fs p1).
Qed.

(** X7.  Every entry the reassembler keeps is waiting for a half: its
    [is_complete] flag is unset and one half is empty.  This holds for the
    empty map and is kept by every fragment and by every timeout; so a
    timeout task always removes the entry of its sender, whatever the
    fragments handled before. *)
Theorem pending_entries_wait (pending_inputs : gmap addr InputState) :
  all_incomplete pending_inputs →
  (∀ flag data sender now,
     all_incomplete
       (_handle_user_input flag data sender now pending_inputs).1) ∧
  (∀ fs, all_incomplete (handle_all fs pending_inputs).1) ∧
  (∀ session_key,
     _timeout_incomplete_input session_key pending_inputs
       = delete session_key pending_inputs ∧
     _timeout_incomplete_input session_key pending_inputs !! session_key
       = None ∧
     all_incomplete (_timeout_incomplete_input session_key pending_inputs)).
Proof.
  intros Hall. split_and!.
  - intros. by apply handle_keeps_incomplete.
  - intros. by apply handle_all_keeps_incomplete.
  - intros k. rewrite timeout_is_delete by done.
    split_and!; [done|apply lookup_delete_eq|by apply map_Forall_delete].
Qed.

Lemma pending_entries_wait_from_empty :
  (∀ fs, all_incomplete (handle_all fs ∅).1) ∧
  (∀ session_key, _timeout_incomplete_input session_key ∅ = ∅).
Proof.
  destruct (pending_entries_wait ∅) as (_ & Hall & Htimeout).
  { apply map_Forall_empty. }
  split; [done|]. intros k. destruct (Htimeout k) as [-> _].
  apply delete_empty.
Defined.

(** X8.  Senders do not interfere: a fragment changes no entry but its
    sender's, and what it hands on depends on its sender's entry only. *)
Theorem senders_are_isolated (flag data : string) (sender : addr) (now : Z)
    (pending_inputs : gmap addr InputState) :
  (∀ other, other ≠ sender →
     (_handle_user_input flag data sender now pending_inputs).1 !! other
       = pending_inputs !! other) ∧
  (∀ pending_inputs' : gmap addr InputState,
     pending_inputs' !! sender = pending_inputs !! sender →
     (_handle_user_input flag data sender now pending_inputs').2
       = (_handle_user_input flag data sender now pending_inputs).2 ∧
     (_handle_user_input flag data sender now pending_inputs').1 !! sender
       = (_handle_user_input flag data sender now pending_inputs).1 !! sender).
Proof.
  split.
  - intros other Hne. rewrite handle_user_input_step. cbv zeta.
    destruct (truthy _ && truthy _); simpl;
      [by rewrite lookup_delete_ne|by rewrite lookup_insert_ne].
  - intros p' Hsame. rewrite !handle_user_input_step. cbv zeta.
    unfold recorded. rewrite Hsame.
    destruct (truthy _ && truthy _); simpl;
      [by rewrite !lookup_delete_eq|by rewrite !lookup_insert_eq].
Qed.

(** X9.  A half that is sent again replaces the stored one: after
    [/uin1 a], [/uin1 b] and [/uin2 c] from a sender with no half stored,
    the one combined input is [b] followed by [c]. *)
Theorem later_half_replaces (pending_inputs : gmap addr InputState)
    (sender : addr) (a b c : string) (t1 t2 t3 : Z) :
  let old := default InputState_new (pending_inputs !! sender) in
  uin1 old = EmptyString → uin2 old = EmptyString →
  b ≠ EmptyString → c ≠ EmptyString →
  (handle_all
     [ {| f_flag := "/uin1"; f_data := a; f_sender := sender; f_now := t1 |};
       {| f_flag := "/uin1"; f_data := b; f_sender := sender; f_now := t2 |};
       {| f_flag := "/uin2"; f_data := c; f_sender := sender; f_now := t3 |} ]
     pending_inputs).2
  = [[CreateTimeoutTask sender]; [CreateTimeoutTask sender];
     [Process (b +:+ c)]].
Proof.
  intros old Hold1 Hold2 Hb%truthy_spec Hc%truthy_spec. subst old.
  unfold handle_all.
  rewrite handle_user_input_step; unfold recorded; simpl.
  rewrite Hold2, andb_false_r. simpl.
  rewrite handle_user_input_step; unfold recorded; simpl.
  rewrite lookup_insert_eq. simpl. rewrite ?Hold2, ?andb_false_r. simpl.
  rewrite handle_user_input_step; unfold recorded; simpl.
  rewrite lookup_insert_eq. simpl. by rewrite Hb, Hc.
Qed.

Lemma later_half_replaces_example :
  let sender : addr := ("127.0.0.1"%string, 50000) in
  (handle_all
     [ {| f_flag := "/uin1"; f_data := "AAA"; f_sender := sender; f_now := 0 |};
       {| f_flag := "/uin1"; f_data := "ABC"; f_sender := sender; f_now := 1 |};
       {| f_flag := "/uin2"; f_data := "DEF"; f_sender := sender; f_now := 2 |} ]
     ∅).2
  = [[CreateTimeoutTask sender]; [CreateTimeoutTask sender];
     [Process "ABCDEF"]].
Proof.
  intros sender.
  apply (later_half_replaces ∅ sender "AAA" "ABC" "DEF" 0 1 2);
    reflexivity || discriminate.
Defined.

(** X10.  A half that arrives after the timeout of the other half does not
    complete with it: from a map whose entries all wait, [/uin1 a], the
    timeout of the sender, then [/uin2 c] hand nothing on, and the entry
    left holds [c] alone. *)
Theorem half_after_timeout_starts_afresh
    (pending_inputs : gmap addr InputState)
    (sender : addr) (a c : string) (t1 t2 : Z) :
  all_incomplete pending_inputs →
  let after_first :=
    (_handle_user_input "/uin1" a sender t1 pending_inputs).1 in
  let after_timeout := _timeout_incomplete_input sender after_first in
  let second := _handle_user_input "/uin2" c sender t2 after_timeout in
  after_timeout = delete sender pending_inputs ∧
  second.2 = [CreateTimeoutTask sender] ∧
  ∃ st, second.1 !! sender = Some st ∧
        uin1 st = EmptyString ∧ uin2 st = c.
Proof.
  intros Hall after_first after_timeout second.
  assert (after_timeout = delete sender pending_inputs) as Hdel.
  { unfold after_timeout, after_first.
    rewrite timeout_is_delete by by apply handle_keeps_incomplete.
    rewrite handle_user_input_step. cbv zeta.
    destruct (truthy _ && truthy _); simpl;
      [by rewrite delete_delete_eq|by rewrite delete_insert_eq]. }
  split; [done|]. unfold second. rewrite Hdel, handle_user_input_step.
  unfold recorded. rewrite lookup_delete_eq. simpl.
  split; [done|]. eexists. by rewrite lookup_insert_eq.
Qed.

Lemma half_after_timeout_example :
  let sender : addr := ("127.0.0.1"%string, 50000) in
  (_handle_user_input "/uin2" "DEF" sender 1
     (_timeout_incomplete_input sender
        (_handle_user_input "/uin1" "ABC" sender 0 ∅).1)).2
  = [CreateTimeoutTask sender].
Proof.
  intros sender.
  destruct (half_after_timeout_starts_afresh ∅ sender "ABC" "DEF" 0 1)
    as (_ & Heffects & _); [apply map_Forall_empty|exact Heffects].
Defined.

End Pending.

(** ** The event of the debounce buffer *)

Section BufferEvent.
Import Buffer.

(** X11.  The event flag of the buffer is set exactly when the buffer is
    not empty: this holds for a new buffer and is kept by every push and
    every turn of the flush loop.  A turn that follows another with no
    push in between calls the processor with nothing. *)
Theorem buffer_event_matches (self : InputBuffer) :
  event_matches InputBuffer_new ∧
  (∀ combined_hex now,
     event_matches (add_combined_input combined_hex now self)) ∧
  (event_matches self → event_matches (process_buffer self).1) ∧
  (process_buffer (process_buffer self).1).2 = [] ∧
  (event_matches self → buffer_event self = true →
   ∃ latest, (process_buffer self).2 = [latest]).
Proof.
  unfold event_matches. split_and!.
  - done.
  - intros combined_hex now. simpl. split; [|done].
    intros _. by destruct (buffer self).
  - intros Hinv. unfold process_buffer.
    destruct (buffer self) as [|entry rest] eqn:Hbuf;
      [simpl; by rewrite Hbuf|].
    destruct (last (entry :: rest)) eqn:Hlast; simpl; [by split|].
    by rewrite Hbuf.
  - unfold process_buffer.
    destruct (buffer self) as [|entry rest] eqn:Hbuf; simpl;
      [by rewrite Hbuf|].
    destruct (last (entry :: rest)) eqn:Hlast; simpl; [done|].
    rewrite Hbuf. by rewrite Hlast.
  - intros Hinv Hevent. apply Hinv in Hevent. unfold process_buffer.
    destruct (buffer self) as [|entry rest] eqn:Hbuf; [done|].
    destruct (last (entry :: rest)) eqn:Hlast; [by eexists|].
    by apply last_None in Hlast.
Qed.

Lemma buffer_event_after_push :
  ∃ latest,
    (process_buffer (add_combined_input "A" 0 InputBuffer_new)).2 = [latest].
Proof.
  destruct (buffer_event_matches (add_combined_input "A" 0 InputBuffer_new))
    as (_ & _ & _ & _ & Hcalls).
  apply Hcalls; [|reflexivity].
  apply (proj1 (proj2 (buffer_event_matches InputBuffer_new))).
Defined.

End BufferEvent.

(** ** More on the wire codec *)

Section WireFrames.
Import Codec.

Lemma to_bytes_4 (value : Z) :
  to_bytes 4 value =
  if (- 2 ^ 31 <=? value) && (value <? 2 ^ 31)
  then Ok [byte_of_Z (Z.shiftr value 24); byte_of_Z (Z.shiftr value 16);
           byte_of_Z (Z.shiftr value 8); byte_of_Z (Z.shiftr value 0)]
  else Raise OverflowError.
Proof. reflexivity. Qed.

Lemma index_of_none (sub : byte) (l : bytes) :
  Forall (λ b, b ≠ sub) l → index_of sub l = None.
Proof.
  induction 1 as [|b l Hb _ IH]; simpl; [done|].
  destruct (Byte.eqb b sub) eqn:Heq; [by apply Byte.byte_dec_bl in Heq|].
  by rewrite IH.
Qed.

(** X12.  An encoded frame is a whole number of 4-byte words: the address
    with its terminator is padded to the next multiple of 4, and the type
    tag and the value add 8 bytes. *)
Theorem encode_frame_aligned (address : string) (value : Z) (frame : bytes) :
  _encode_osc_message address value = Ok frame →
  len frame mod 4 = 0 ∧
  len frame = 4 * ((len (utf8_encode address) + 4) / 4) + 8 ∧
  len (utf8_encode address) + 1 ≤ len frame - 8 < len (utf8_encode address) + 5.
Proof.
  unfold _encode_osc_message. rewrite to_bytes_4.
  destruct (_ && _); [|done]. intros [= <-].
  unfold len. rewrite !length_app, length_replicate. cbn [length].
  rewrite !Nat2Z.inj_add, Z2Nat.id
    by (apply Z.mod_pos_bound; lia).
  set (n := Z.of_nat (length (utf8_encode address))).
  assert (0 ≤ n) by (unfold n; lia). clearbody n.
  change (Z.of_nat 1) with 1. change (Z.of_nat 4) with 4.
  split_and!; Z.to_euclidean_division_equations; lia.
Qed.

Lemma encode_sustain_aligned :
  ∃ frame, _encode_osc_message "/sustain" 5 = Ok frame ∧ len frame = 20.
Proof.
  eexists. split; [reflexivity|].
  destruct (encode_frame_aligned "/sustain" 5 _ eq_refl) as (_ & -> & _).
  reflexivity.
Defined.

(** X13.  [_encode_osc_message] raises [OverflowError] exactly when the
    value is not a 32-bit signed integer, and returns a frame otherwise,
    whatever the address. *)
Theorem encode_overflow_iff (address : string) (value : Z) :
  (_encode_osc_message address value = Raise OverflowError ↔
   value < - 2 ^ 31 ∨ 2 ^ 31 ≤ value) ∧
  ((∃ frame, _encode_osc_message address value = Ok frame) ↔
   - 2 ^ 31 ≤ value < 2 ^ 31).
Proof.
  unfold _encode_osc_message. rewrite to_bytes_4.
  destruct (Z.leb_spec (- 2 ^ 31) value), (Z.ltb_spec value (2 ^ 31));
    simpl; (split; split; try done; try lia; try by eauto);
    try (by intros [? ?]).
Qed.

(** X14.  A datagram with no NUL byte (the empty datagram among them) has
    no address terminator, and one that ends with its padded address has
    no type tags: both are logged as errors and decode to two empty
    strings. *)
Theorem decode_malformed (data : bytes) :
  (Forall (λ b, b ≠ x00) data →
   decode_osc_message_body data
     = Raise (ValueError "No null terminator found for address") ∧
   _decode_osc_message data = ([], [])) ∧
  (address_end data ≠ -1 → len data ≤ data_offset data →
   decode_osc_message_body data
     = Raise (ValueError "Insufficient data for type tags") ∧
   _decode_osc_message data = ([], [])).
Proof.
  unfold _decode_osc_message, decode_osc_message_body. split.
  - intros Hnz. unfold address_end, find. simpl.
    by rewrite index_of_none.
  - intros Hend Hoff.
    destruct (Z.eqb_spec (address_end data) (-1)); [done|].
    by destruct (Z.geb_spec (data_offset data) (len data)); [|lia].
Qed.

Lemma decode_malformed_examples :
  _decode_osc_message [] = ([], []) ∧
  _decode_osc_message [x2f; x75; x69; x6e] = ([], []) ∧
  _decode_osc_message [x2f; x75; x69; x6e; x00; x00; x00; x00] = ([], []).
Proof.
  split_and!.
  - apply (proj1 (decode_malformed [])). constructor.
  - apply (proj1 (decode_malformed [x2f; x75; x69; x6e])).
    repeat constructor; discriminate.
  - apply (proj2 (decode_malformed
                    [x2f; x75; x69; x6e; x00; x00; x00; x00]));
      vm_compute; discriminate.
Defined.

Lemma decode_utf8_below_128 (replace : bool) (data : bytes) :
  Forall (λ b, (Byte.to_N b < 128)%N) data →
  utf8_decode_from replace U_start data = Some (Byte.to_N <$> data).
Proof.
  induction 1 as [|b l Hb _ IH]; simpl; [done|].
  unfold lead_of. destruct (N.ltb_spec (Byte.to_N b) 128); [|lia].
  by rewrite IH.
Qed.

Lemma lstrip_nul_zeros n (s : text) :
  lstrip_nul (replicate n 0%N ++ s) = lstrip_nul s.
Proof. induction n as [|n IH]; simpl; [done|exact IH]. Qed.

Lemma lstrip_nul_nonzero (s : text) :
  Forall (λ c, c ≠ 0%N) s → lstrip_nul s = s.
Proof.
  destruct 1 as [|c s Hc _]; simpl; [done|].
  by destruct (N.eqb_spec c 0).
Qed.

Lemma strip_nul_padded (s : text) n :
  Forall (λ c, c ≠ 0%N) s → strip_nul (s ++ replicate n 0%N) = s.
Proof.
  intros Hs. unfold strip_nul.
  assert (lstrip_nul (reverse (s ++ replicate n 0%N)) = reverse s) as Hrev.
  { rewrite reverse_app, reverse_replicate, lstrip_nul_zeros.
    by apply lstrip_nul_nonzero, Forall_reverse. }
  destruct Hs as [|c s Hc Hs].
  - simpl. rewrite <- (app_nil_r (replicate n 0%N)), lstrip_nul_zeros. done.
  - simpl. destruct (N.eqb_spec c 0); [done|].
    change (c :: s ++ replicate n 0%N) with ((c :: s) ++ replicate n 0%N).
    by rewrite Hrev, reverse_involutive.
Qed.

(** X15.  A string message as the sender lays it out: the address, its
    terminator and padding to a multiple of 4; a type tag, its terminator
    and padding to a multiple of 4; the text, followed by any number of
    NULs.  For an ASCII address and an ASCII text (no NUL in either) the
    decoder returns exactly the address and the text. *)
Theorem decode_string_frame (addr tag txt : bytes) (pad1 pad2 trailing : nat) :
  Forall (λ b, (0 < Byte.to_N b < 128)%N) addr →
  Forall (λ b, b ≠ x00) tag →
  Forall (λ b, (0 < Byte.to_N b < 128)%N) txt →
  (len addr + 1 + Z.of_nat pad1) mod 4 = 0 → (pad1 < 4)%nat →
  (len tag + 1 + Z.of_nat pad2) mod 4 = 0 → (pad2 < 4)%nat →
  _decode_osc_message
    (addr ++ x00 :: replicate pad1 x00 ++
     tag ++ x00 :: replicate pad2 x00 ++
     txt ++ replicate trailing x00)
  = (Byte.to_N <$> addr, Byte.to_N <$> txt).
Proof.
  intros Haddr Htag Htxt Hpad1 Hlt1 Hpad2 Hlt2.
  set (head := addr ++ x00 :: replicate pad1 x00).
  set (tags := tag ++ x00 :: replicate pad2 x00).
  set (payload := txt ++ replicate trailing x00).
  set (frame := addr ++ _).
  assert (Forall (λ b, b ≠ x00) addr) as Hnz.
  { eapply Forall_impl; [exact Haddr|]. intros b Hb ->. simpl in Hb. lia. }
  assert (len head = len addr + 1 + Z.of_nat pad1) as Hhead.
  { unfold head, len. rewrite length_app. simpl. rewrite length_replicate. lia. }
  assert (len tags = len tag + 1 + Z.of_nat pad2) as Htags.
  { unfold tags, len. rewrite length_app. simpl. rewrite length_replicate. lia. }
  assert (frame = head ++ tags ++ payload) as Hframe.
  { unfold frame, head, tags. by rewrite <- !app_assoc. }
  assert (len frame = len head + len tags + len payload) as Hlen
    by (rewrite Hframe; unfold len; rewrite !length_app; lia).
  assert (address_end frame = len addr) as Hend.
  { unfold address_end. apply (find_app x00 [] addr _ Hnz). }
  assert (data_offset frame = len head) as Hoff.
  { unfold data_offset. rewrite Hend, align_next_multiple.
    rewrite Hhead. Z.to_euclidean_division_equations; lia. }
  assert (data_tag_end frame = len head + len tag) as Hte.
  { unfold data_tag_end. rewrite Hoff, Hframe. unfold tags.
    rewrite <- (app_assoc tag), <- app_comm_cons, find_app by done.
    destruct (Z.eqb_spec (len head + len tag) (-1)); [|done].
    unfold len in *. lia. }
  assert (input_offset frame = len head + len tags) as Hin.
  { unfold input_offset. rewrite Hte, align_next_multiple, Htags.
    assert (0 ≤ len tag) by (unfold len; lia).
    rewrite Hhead in *. Z.to_euclidean_division_equations; lia. }
  assert (0 ≤ len addr ∧ 0 ≤ len tag ∧ 0 ≤ len payload) as (? & ? & ?)
    by (unfold len; lia).
  unfold _decode_osc_message, decode_osc_message_body.
  destruct (Z.eqb_spec (address_end frame) (-1)); [lia|].
  destruct (Z.geb_spec (data_offset frame) (len frame)); [lia|].
  rewrite Hend.
  replace (Z.to_nat (len addr)) with (length addr) by (unfold len; lia).
  assert (decode_utf8_replace (take (length addr) frame) = Byte.to_N <$> addr)
    as ->.
  { unfold frame. rewrite take_app_length.
    unfold decode_utf8_replace. by rewrite decode_utf8_ascii. }
  destruct (Z.geb_spec (input_offset frame) (len frame)) as [Hge|Hlt].
  - f_equal. assert (length payload = 0%nat) as Hnil by (unfold len in *; lia).
    unfold payload in Hnil. rewrite length_app in Hnil.
    destruct txt; [done|simpl in Hnil; lia].
  - f_equal. unfold input_data_bytes. rewrite Hin, Hframe, app_assoc.
    replace (Z.to_nat (len head + len tags)) with (length (head ++ tags))
      by (unfold len; rewrite length_app; lia).
    rewrite drop_app_length. unfold decode_input_data, decode_utf8.
    rewrite decode_utf8_below_128.
    + unfold payload. rewrite fmap_app, fmap_replicate.
      apply strip_nul_padded. eapply Forall_fmap, Forall_impl; [exact Htxt|].
      intros b Hb. unfold compose. cbv beta in Hb |- *. clear -Hb. lia.
    + unfold payload. apply Forall_app. split.
      * eapply Forall_impl; [exact Htxt|]. intros b Hb. simpl in Hb. lia.
      * apply Forall_replicate. simpl. lia.
Qed.

(** [b"/uin1\0\0\0,s\0\0ABC\0"]. *)
Lemma decode_uin1_ABC :
  _decode_osc_message
    [x2f; x75; x69; x6e; x31; x00; x00; x00; x2c; x73; x00; x00;
     x41; x42; x43; x00]
  = (codepoints "/uin1", codepoints "ABC").
Proof.
  apply (decode_string_frame [x2f; x75; x69; x6e; x31] [x2c; x73]
           [x41; x42; x43] 2 1 1);
    try (repeat constructor; simpl; (lia || discriminate));
    try reflexivity; lia.
Defined.

Lemma codepoints_inj (s1 s2 : string) : codepoints s1 = codepoints s2 → s1 = s2.
Proof.
  unfold codepoints. intros Heq.
  rewrite <- (String.string_of_list_ascii_of_string s1),
    <- (String.string_of_list_ascii_of_string s2). f_equal.
  revert Heq. generalize (String.list_ascii_of_string s2).
  induction (String.list_ascii_of_string s1) as [|a l IH];
    intros [|a' l']; simpl; try done.
  intros [= Ha Hl]. f_equal; [|by apply IH].
  by rewrite <- (ascii_N_embedding a), <- (ascii_N_embedding a'), Ha.
Qed.

(** X16.  Different messages have different frames: two ASCII addresses
    (no NUL) with two 32-bit values that encode to the same bytes are the
    same address and the same value. *)
Theorem encode_injective (address1 address2 : string) (value1 value2 : Z)
    (frame : bytes) :
  ascii_no_nul address1 → ascii_no_nul address2 →
  _encode_osc_message address1 value1 = Ok frame →
  _encode_osc_message address2 value2 = Ok frame →
  address1 = address2 ∧ value1 = value2.
Proof.
  intros Hascii1 Hascii2 Hframe1 Hframe2.
  assert (∀ address value,
            ascii_no_nul address →
            _encode_osc_message address value = Ok frame →
            - 2 ^ 31 ≤ value < 2 ^ 31 ∧
            Byte.to_N <$> take (Z.to_nat (address_end frame)) frame
              = codepoints address ∧
            from_bytes_be (input_data_bytes frame) = value mod 2 ^ 32)
    as Hread.
  { intros address value Hascii Hframe.
    assert (- 2 ^ 31 ≤ value < 2 ^ 31) as Hrange.
    { revert Hframe. unfold _encode_osc_message. rewrite to_bytes_4.
      destruct (Z.leb_spec (- 2 ^ 31) value), (Z.ltb_spec value (2 ^ 31));
        simpl; try done; lia. }
    split; [done|].
    destruct (encode_osc_message_layout address value Hrange)
      as (pad & payload & Hpayload & Hpad & Hlt & Hlayout).
    destruct (from_bytes_be_to_bytes _ _ Hpayload) as [Hlen Hvalue].
    destruct (utf8_encode_ascii address Hascii) as [Hbytes Hpoints].
    assert (Forall (λ b, b ≠ x00) (utf8_encode address)) as Hnz.
    { eapply Forall_impl; [exact Hbytes|]. intros b Hb ->. simpl in Hb. lia. }
    destruct (decode_locals_on_layout _ payload pad Hnz Hpad Hlt Hlen)
      as (Hend & _ & _ & _ & Hdata).
    rewrite Hframe in Hlayout. injection Hlayout as ->.
    simpl in Hend, Hdata. rewrite Hend, Hdata. unfold len. rewrite Nat2Z.id, take_app_length.
    done. }
  destruct (Hread _ _ Hascii1 Hframe1) as (Hr1 & Ha1 & Hv1).
  destruct (Hread _ _ Hascii2 Hframe2) as (Hr2 & Ha2 & Hv2).
  split.
  - apply codepoints_inj. congruence.
  - rewrite Hv1 in Hv2. clear -Hr1 Hr2 Hv2.
    change (2 ^ 31) with 2147483648 in *.
    change (2 ^ 32) with 4294967296 in *.
    Z.to_euclidean_division_equations; lia.
Qed.

Lemma encode_injective_example :
  ∃ frame,
    _encode_osc_message "/sustain" 5 = Ok frame ∧
    _encode_osc_message "/keyCenter" 5 ≠ Ok frame.
Proof.
  eexists. split; [reflexivity|]. intros Hframe.
  assert (ascii_no_nul "/sustain" ∧ ascii_no_nul "/keyCenter") as [Hs Hk]
    by (unfold ascii_no_nul; simpl; split; repeat constructor).
  destruct (encode_injective "/sustain" "/keyCenter" 5 5 _ Hs Hk eq_refl Hframe)
    as [Haddress _].
  discriminate Haddress.
Defined.

End WireFrames.

(** ** From the two halves to the messages *)

Section Pipeline.
Import State.

Lemma update_ok_all_hex (combined_hex : string) (self self' : SystemState) :
  update_from_combined_input combined_hex self = (Ok tt, self') →
  Forall (λ c, is_Some (hex_value c))
         (String.list_ascii_of_string combined_hex).
Proof.
  intros Hok.
  destruct (decide (Exists (λ c, hex_value c = None)
                      (String.list_ascii_of_string combined_hex)))
    as [Hbad|Hgood].
  - destruct (update_non_hex_raises _ self Hbad) as (e & s' & Hraise).
    congruence.
  - apply Forall_Exists_neg in Hgood.
    eapply Forall_impl; [exact Hgood|]. intros c Hc. simpl in Hc.
    by destruct (hex_value c); [eexists|].
Qed.

(** The scalar fields after an update that returned. *)
Lemma update_ok_scalars (combined_hex : string) (self self' : SystemState) :
  update_from_combined_input combined_hex self = (Ok tt, self') →
  let chars := String.list_ascii_of_string combined_hex in
  chars !! 0%nat ≫= hex_value = Some (sustain self') ∧
  chars !! 1%nat ≫= hex_value = Some (density_function self') ∧
  chars !! 2%nat ≫= hex_value = Some (key_center self').
Proof.
  intros Hok chars.
  pose proof (update_ok_hex _ _ _ Hok) as (Hlen & _ & _).
  rewrite update_unfold in Hok by done. cbv zeta in Hok. fold chars in Hok.
  destruct (chars !! 0%nat) as [c0|] eqn:H0; [|done].
  destruct (chars !! 1%nat) as [c1|] eqn:H1; [|done].
  destruct (chars !! 2%nat) as [c2|] eqn:H2; [|done].
  destruct (hex_value c0) as [v0|] eqn:Hv0; [|done].
  destruct (hex_value c1) as [v1|] eqn:Hv1; [|done].
  destruct (hex_value c2) as [v2|] eqn:Hv2; [|done].
  apply for_each_ranks_ok in Hok as (Hs & Hd & Hk & _).
  simpl in Hs, Hd, Hk. rewrite Hs, Hd, Hk. done.
Qed.

Lemma run_dbn_algorithm_sends (self : DBNEngine) :
  (_run_dbn_algorithm self).2 =
  [("/sustain"%string, sustain (current_state self));
   ("/keyCenter"%string, key_center (current_state self))].
Proof. unfold _run_dbn_algorithm. by repeat case_match. Qed.

(** A call of [process_input] that got as far as sending. *)
Lemma process_input_sent (combined_hex : string) (self self' : DBNEngine)
    calls messages :
  process_input combined_hex self = (self', Sent calls messages) →
  update_from_combined_input combined_hex (current_state self)
    = (Ok tt, current_state self') ∧
  previous_state self' = current_state self ∧
  messages = [("/sustain"%string, sustain (current_state self'));
              ("/keyCenter"%string, key_center (current_state self'))].
Proof.
  unfold process_input. simpl. rewrite State_copy_value.
  destruct (update_from_combined_input _ _) as [[[]|e] current]; [|done].
  pose proof (run_dbn_algorithm_sends
                {| current_state := current;
                   previous_state := current_state self |}) as Hsends.
  destruct (_run_dbn_algorithm _) as [calls' messages'].
  intros [= <- <- <-]. done.
Qed.

(** A valid input is sent on. *)
Lemma process_input_valid (combined_hex : string) (self : DBNEngine) :
  String.length combined_hex = 35%nat →
  Forall (λ c, is_Some (hex_value c))
         (String.list_ascii_of_string combined_hex) →
  (8 ≤ length (ranks (current_state self)))%nat →
  ∃ self' calls messages,
    process_input combined_hex self = (self', Sent calls messages).
Proof.
  intros Hlen Hhex Hranks.
  assert (∃ current,
            update_from_combined_input combined_hex (current_state self)
              = (Ok tt, current)) as [current Hok].
  { rewrite update_unfold by done. cbv zeta.
    assert (length (String.list_ascii_of_string combined_hex) = 35%nat) as Hl
      by by rewrite length_list_ascii_of_string.
    destruct (lookup_lt_is_Some_2 (String.list_ascii_of_string combined_hex) 0)
      as [c0 H0]; [lia|].
    destruct (lookup_lt_is_Some_2 (String.list_ascii_of_string combined_hex) 1)
      as [c1 H1]; [lia|].
    destruct (lookup_lt_is_Some_2 (String.list_ascii_of_string combined_hex) 2)
      as [c2 H2]; [lia|].
    rewrite H0, H1, H2.
    destruct (proj1 (Forall_lookup _ _) Hhex _ _ H0) as [v0 ->].
    destruct (proj1 (Forall_lookup _ _) Hhex _ _ H1) as [v1 ->].
    destruct (proj1 (Forall_lookup _ _) Hhex _ _ H2) as [v2 ->].
    apply for_each_ranks_succeeds. intros i Hi%elem_of_seq. simpl.
    split; [lia|]. by apply slice_hex. }
  unfold process_input. simpl. rewrite State_copy_value, Hok.
  destruct (_run_dbn_algorithm _) as [calls messages]. by eexists _, _, _.
Qed.

(** The frame of a nibble sent to one of the two addresses. *)
Lemma encode_nibble (address : string) (value : Z) :
  address = "/sustain"%string ∨ address = "/keyCenter"%string →
  nibble value →
  ∃ frame,
    Codec._encode_osc_message address value = Ok frame ∧
    len frame = 20 ∧
    (Codec._decode_osc_message frame).1 = codepoints address ∧
    Codec.from_bytes_be (Codec.input_data_bytes frame) = value.
Proof.
  intros Haddress Hvalue. unfold nibble in Hvalue.
  assert (value ∈ [0; 1; 2; 3; 4; 5; 6; 7; 8; 9; 10; 11; 12; 13; 14; 15])
    as Hcases.
  { assert (∃ n, value = Z.of_nat n ∧ (n < 16)%nat) as (n & -> & Hn)
      by (exists (Z.to_nat value); lia).
    do 16 (destruct n as [|n];
           [apply (bool_decide_unpack _); vm_compute; exact I|]).
    lia. }
  destruct Haddress as [-> | ->];
    repeat (apply elem_of_cons in Hcases as [-> | Hcases];
            [eexists; split; [reflexivity|]; vm_compute; done|]);
    by apply elem_of_nil in Hcases.
Qed.

(** X17.  Whatever [process_input] sends can be sent: each message goes
    to [/sustain] or [/keyCenter] and carries a nibble, so
    [_encode_osc_message] raises no [OverflowError] on it; the frame has 20
    bytes, and its address and its integer read back as they were
    given. *)
Theorem sent_messages_encode (combined_hex : string) (self self' : DBNEngine)
    calls messages :
  process_input combined_hex self = (self', Sent calls messages) →
  Forall (λ message : string * Z,
            nibble message.2 ∧
            ∃ frame,
              Codec._encode_osc_message message.1 message.2 = Ok frame ∧
              len frame = 20 ∧
              (Codec._decode_osc_message frame).1 = codepoints message.1 ∧
              Codec.from_bytes_be (Codec.input_data_bytes frame) = message.2)
         messages.
Proof.
  intros (Hok & _ & ->)%process_input_sent.
  destruct (update_ok_scalars _ _ _ Hok) as (Hs & _ & Hk).
  assert (nibble (sustain (current_state self'))) as Hsn.
  { destruct (_ !! 0%nat) as [c|]; [|done]. by eapply hex_value_nibble. }
  assert (nibble (key_center (current_state self'))) as Hkn.
  { destruct (_ !! 2%nat) as [c|]; [|done]. by eapply hex_value_nibble. }
  constructor; [|constructor; [|constructor]];
    (split; [done|apply encode_nibble; auto]).
Qed.

Lemma sent_messages_encode_example :
  Forall (λ message : string * Z,
            ∃ frame, Codec._encode_osc_message message.1 message.2 = Ok frame)
         (messages_of (process_input example_hex DBNEngine_new).2).
Proof.
  eapply Forall_impl.
  - apply (sent_messages_encode example_hex DBNEngine_new
             (process_input example_hex DBNEngine_new).1
             [Execute_full_dbn; Send_current_values]).
    vm_compute. reflexivity.
  - intros message (_ & frame & Hframe & _). by exists frame.
Defined.

(** X18.  The whole path.  A sender with no half waiting sends [/uin1]
    and then [/uin2], both non-empty, whose concatenation is 35
    hexadecimal digits.  Then the combined input is the last entry of the
    buffer, and the next turn of the buffer loop gives exactly that input
    to the engine, which sends the values of its characters 0 and 2 as
    [/sustain] and [/keyCenter]; older entries of the buffer are dropped
    unprocessed, the buffer is empty with its event cleared, and the
    handler keeps no entry for the sender. *)
Theorem two_halves_reach_engine (self : Controller.NecromoireController)
    (sender : Reassembly.addr) (part1 part2 : string) (t1 t2 t3 t4 : Z) :
  let old := default Reassembly.InputState_new
                     (Controller.pending_inputs self !! sender) in
  let chars := String.list_ascii_of_string (part1 +:+ part2) in
  Reassembly.uin1 old = EmptyString → Reassembly.uin2 old = EmptyString →
  part1 ≠ EmptyString → part2 ≠ EmptyString →
  String.length (part1 +:+ part2) = 35%nat →
  Forall (λ c, is_Some (hex_value c)) chars →
  (8 ≤ length (ranks (current_state (Controller.dbn_engine self))))%nat →
  let first := {| Reassembly.f_flag := "/uin1"; Reassembly.f_data := part1;
                  Reassembly.f_sender := sender; Reassembly.f_now := t1 |} in
  let second := {| Reassembly.f_flag := "/uin2"; Reassembly.f_data := part2;
                   Reassembly.f_sender := sender; Reassembly.f_now := t2 |} in
  let self1 := (Controller._handle_user_input first t3 self).1 in
  let self2 := (Controller._handle_user_input second t4 self1).1 in
  let self3 := (Controller.process_buffer self2).1 in
  Buffer.buffer (Controller.input_buffer self2)
    = Buffer.buffer (Controller.input_buffer self)
      ++ [{| Buffer.data := part1 +:+ part2; Buffer.timestamp := t4 |}] ∧
  (∃ calls v0 v2,
     (Controller.process_buffer self2).2
       = [Sent calls [("/sustain"%string, v0); ("/keyCenter"%string, v2)]] ∧
     chars !! 0%nat ≫= hex_value = Some v0 ∧
     chars !! 2%nat ≫= hex_value = Some v2) ∧
  Controller.input_buffer self3
    = {| Buffer.buffer := []; Buffer.buffer_event := false |} ∧
  Controller.pending_inputs self3
    = delete sender (Controller.pending_inputs self) ∧
  previous_state (Controller.dbn_engine self3)
    = current_state (Controller.dbn_engine self).
Proof.
  intros old chars Hold1 Hold2 H1%truthy_spec H2%truthy_spec Hlen Hhex Hranks
    first second self1 self2 self3.
  subst old.
  assert (self1 =
          {| Controller.pending_inputs :=
               <[sender := {| Reassembly.uin1 := part1;
                              Reassembly.uin2 := EmptyString;
                              Reassembly.timestamp := t1;
                              Reassembly.is_complete := false |}]>
                 (Controller.pending_inputs self);
             Controller.input_buffer := Controller.input_buffer self;
             Controller.dbn_engine := Controller.dbn_engine self |}) as Hself1.
  { unfold self1, Controller._handle_user_input, first. simpl.
    rewrite handle_user_input_step. unfold recorded. simpl.
    rewrite Hold2, H1. simpl. by rewrite truthy_py_and, H1. }
  assert (self2 =
          {| Controller.pending_inputs :=
               delete sender (Controller.pending_inputs self);
             Controller.input_buffer :=
               Buffer.add_combined_input (part1 +:+ part2) t4
                 (Controller.input_buffer self);
             Controller.dbn_engine := Controller.dbn_engine self |}) as Hself2.
  { unfold self2, Controller._handle_user_input, second. rewrite Hself1. simpl.
    rewrite handle_user_input_step. unfold recorded. simpl.
    rewrite lookup_insert_eq. simpl. rewrite H1, H2. simpl.
    by rewrite delete_insert_eq. }
  destruct (process_input_valid _ (Controller.dbn_engine self) Hlen Hhex Hranks)
    as (engine' & calls & messages & Hprocess).
  pose proof (process_input_sent _ _ _ _ _ Hprocess) as (Hok & Hprev & ->).
  destruct (update_ok_scalars _ _ _ Hok) as (Hs & _ & Hk).
  assert (Controller.process_buffer self2 =
          ({| Controller.pending_inputs :=
                delete sender (Controller.pending_inputs self);
              Controller.input_buffer :=
                {| Buffer.buffer := []; Buffer.buffer_event := false |};
              Controller.dbn_engine := engine' |},
           [Sent calls
              [("/sustain"%string, sustain (current_state engine'));
               ("/keyCenter"%string, key_center (current_state engine'))]]))
    as Hturn.
  { rewrite Hself2. unfold Controller.process_buffer, Buffer.process_buffer.
    simpl. rewrite last_snoc.
    destruct (Buffer.buffer (Controller.input_buffer self)); simpl;
      by rewrite Hprocess. }
  unfold self3. rewrite Hturn. simpl. split_and!; try done.
  - by rewrite Hself2.
  - by eexists _, _, _.
Qed.

Lemma two_halves_reach_engine_example :
  let sender : Reassembly.addr := ("127.0.0.1"%string, 50000) in
  let first := {| Reassembly.f_flag := "/uin1"; Reassembly.f_data := "012000A0";
                  Reassembly.f_sender := sender; Reassembly.f_now := 0 |} in
  let second := {| Reassembly.f_flag := "/uin2";
                   Reassembly.f_data := "000000000000000000000000000";
                   Reassembly.f_sender := sender; Reassembly.f_now := 1 |} in
  let self1 :=
    (Controller._handle_user_input first 0
       Controller.NecromoireController_new).1 in
  let self2 := (Controller._handle_user_input second 1 self1).1 in
  messages_of <$> (Controller.process_buffer self2).2
    = [[("/sustain"%string, 0); ("/keyCenter"%string, 2)]].
Proof.
  intros sender first second self1 self2.
  assert (Forall (λ c, is_Some (hex_value c))
            (String.list_ascii_of_string example_hex)) as Hhex
    by (apply (bool_decide_unpack _); vm_compute; exact I).
  assert (8 ≤ length (ranks (current_state DBNEngine_new)))%nat as Hranks
    by (simpl; lia).
  destruct (two_halves_reach_engine Controller.NecromoireController_new sender
              "012000A0" "000000000000000000000000000" 0 1 0 1
              eq_refl eq_refl ltac:(discriminate) ltac:(discriminate)
              eq_refl Hhex Hranks)
    as (_ & (calls & v0 & v2 & Hout & Hv0 & Hv2) & _).
  fold first second self1 self2 in Hout. rewrite Hout. simpl.
  injection Hv0 as <-. injection Hv2 as <-. reflexivity.
Defined.

End Pipeline.

(** ** The older variant: parsing and commit *)

Section LegacyEngine.
Import State.

Lemma legacy_scan_same i (ranks : list (list Z * list Z)) :
  Forall (λ rank, rank.1 = rank.2) ranks → Legacy.scan_ranks i ranks = 0.
Proof.
  intros Hsame. revert i.
  induction Hsame as [|rank rest Hrank _ IH]; intros i; simpl; [done|].
  by rewrite bool_decide_eq_false_2 by (by intros []).
Qed.

Lemma legacy_committed (ranks : list (list Z * list Z)) :
  Forall (λ rank : list Z * list Z, rank.1 = rank.2)
         ((λ rank : list Z * list Z, (rank.2, rank.2)) <$> ranks).
Proof. apply Forall_fmap, Forall_true. done. Qed.

(** What [updateNextsToCurrents] returns, whoever called it. *)
Lemma legacy_DBN_unfold (g : Legacy.globals) :
  ∃ calls,
    Legacy.DBN g =
    ({| Legacy.sustain := ((Legacy.sustain g).2, (Legacy.sustain g).2);
        Legacy.densityFunction :=
          ((Legacy.densityFunction g).2, (Legacy.densityFunction g).2);
        Legacy.keyCenter := ((Legacy.keyCenter g).2, (Legacy.keyCenter g).2);
        Legacy.ranks :=
          (λ rank : list Z * list Z, (rank.2, rank.2)) <$> Legacy.ranks g |},
     (calls ++ [Legacy.UpdateNextsToCurrents; Legacy.SendValues],
      [("/sustain"%string, (Legacy.sustain g).2);
       ("/keyCenter"%string, (Legacy.keyCenter g).2)])) ∧
    (calls = [Legacy.ActuallyRunDBN] ∨ calls = [Legacy.SubsRank]).
Proof.
  unfold Legacy.DBN.
  destruct (Z.ltb_spec (Legacy.checkBypass g) 7) as [Hlt|Hge].
  - exists [Legacy.ActuallyRunDBN]. by split; [|left].
  - destruct (Z.eqb_spec (Legacy.checkBypass g) 0) as [Hz|Hnz]; [lia|].
    exists [Legacy.SubsRank]. by split; [|right].
Qed.

(** X19.  Every call of the legacy [DBN] commits: it sends the next values
    of sustain and keyCenter, leaves every current value equal to its next
    value, so that [checkBypass] finds nothing afterwards, and a second
    call changes nothing and sends the same messages.  It always goes
    through [actuallyRunDBN] or [subsRank]: the direct call of
    [updateNextsToCurrents] on its last line is never reached. *)
Theorem DBN_commits_next_values (g : Legacy.globals) :
  let g' := (Legacy.DBN g).1 in
  let calls := (Legacy.DBN g).2.1 in
  let messages := (Legacy.DBN g).2.2 in
  messages = [("/sustain"%string, (Legacy.sustain g).2);
              ("/keyCenter"%string, (Legacy.keyCenter g).2)] ∧
  Legacy.sustain g' = ((Legacy.sustain g).2, (Legacy.sustain g).2) ∧
  Legacy.densityFunction g'
    = ((Legacy.densityFunction g).2, (Legacy.densityFunction g).2) ∧
  Legacy.keyCenter g' = ((Legacy.keyCenter g).2, (Legacy.keyCenter g).2) ∧
  Legacy.ranks g'
    = (λ rank : list Z * list Z, (rank.2, rank.2)) <$> Legacy.ranks g ∧
  Legacy.checkBypass g' = 0 ∧
  Legacy.DBN g'
    = (g', ([Legacy.ActuallyRunDBN; Legacy.UpdateNextsToCurrents;
             Legacy.SendValues], messages)) ∧
  calls ≠ [Legacy.UpdateNextsToCurrents; Legacy.SendValues].
Proof.
  intros g' calls messages. subst g' calls messages.
  destruct (legacy_DBN_unfold g) as (calls & -> & Hcalls). simpl.
  assert (∀ ranks : list (list Z * list Z),
            Legacy.scan_ranks 1
              ((λ rank : list Z * list Z, (rank.2, rank.2)) <$> ranks) = 0)
    as Hscan by (intros; apply legacy_scan_same, legacy_committed).
  split_and!; try done.
  - apply Hscan.
  - unfold Legacy.DBN, Legacy.checkBypass. simpl. rewrite Hscan. simpl.
    unfold Legacy.actuallyRunDBN, Legacy.updateNextsToCurrents. simpl.
    rewrite <- list_fmap_compose. done.
  - by destruct Hcalls as [-> | ->].
Qed.

(** The loop of [route_to_DBN] over the ranks, when it returns: the
    scalars and the current values are as before, every group parsed, and
    the next value of each rank it names is its group. *)
Lemma legacy_loop_ok (uin : string) indices (g g' : Legacy.globals) :
  for_each indices (λ i,
    next ← comprehension int16
              (slice uin (3 + (i - 1) * 4) (3 + (i - 1) * 4 + 4));
    assign (λ g,
      {| Legacy.sustain := Legacy.sustain g;
         Legacy.densityFunction := Legacy.densityFunction g;
         Legacy.keyCenter := Legacy.keyCenter g;
         Legacy.ranks :=
           alter (Legacy.set_next next) (i - 1)%nat (Legacy.ranks g) |})) g
    = (Ok tt, g') →
  Legacy.sustain g' = Legacy.sustain g ∧
  Legacy.densityFunction g' = Legacy.densityFunction g ∧
  Legacy.keyCenter g' = Legacy.keyCenter g ∧
  length (Legacy.ranks g') = length (Legacy.ranks g) ∧
  (∀ j, (∀ i, i ∈ indices → (i - 1)%nat ≠ j) →
        Legacy.ranks g' !! j = Legacy.ranks g !! j) ∧
  (∀ i, i ∈ indices →
        ∃ next,
          mapM hex_value (slice uin (3 + (i - 1) * 4) (3 + (i - 1) * 4 + 4))
            = Some next ∧
          (NoDup indices → Forall (λ i, 1 ≤ i)%nat indices →
           Legacy.ranks g' !! (i - 1)%nat
             = Legacy.set_next next <$> Legacy.ranks g !! (i - 1)%nat)).
Proof.
  revert g. induction indices as [|i rest IH]; intros g Hok.
  { simpl in Hok. injection Hok as <-. split_and!; try done.
    intros i Hi. by apply elem_of_nil in Hi. }
  cbn [for_each] in Hok. apply bind_ok in Hok as ([] & g1 & Hbody & Hrest).
  apply bind_ok in Hbody as (next & g0 & Hnext & Hset).
  rewrite comprehension_int16 in Hnext.
  destruct (mapM hex_value _) as [vals|] eqn:Hvals; [|done].
  injection Hnext as -> ->. injection Hset as <-.
  destruct (IH _ Hrest) as (Hs & Hd & Hk & Hlen & Hout & Hin).
  cbn [Legacy.sustain Legacy.densityFunction Legacy.keyCenter Legacy.ranks]
    in Hs, Hd, Hk, Hlen, Hout, Hin.
  rewrite length_alter in Hlen.
  split_and!; try done.
  - intros j Hj. rewrite Hout.
    + apply list_lookup_alter_ne. apply Hj. by left.
    + intros i' Hi'. apply Hj. by right.
  - intros i' [->|Hi']%elem_of_cons.
    + exists next. split; [done|]. intros [Hnotin Hnodup]%NoDup_cons Hpos.
      apply Forall_cons in Hpos as [Hi Hpos].
      rewrite Hout; [by rewrite list_lookup_alter_eq|].
      intros i' Hi' Heq.
      assert (1 ≤ i')%nat
        by (eapply (proj1 (Forall_forall _ _)); [exact Hpos|done]).
      assert (i' = i) as -> by lia. done.
    + destruct (Hin i' Hi') as (next' & Hnext' & Hranks).
      exists next'. split; [done|].
      intros [Hnotin Hnodup]%NoDup_cons Hpos.
      apply Forall_cons in Hpos as [Hi Hpos].
      rewrite Hranks by done. f_equal.
      apply list_lookup_alter_ne.
      assert (1 ≤ i')%nat
        by (eapply (proj1 (Forall_forall _ _)); [exact Hpos|done]).
      intros Heq. assert (i' = i) as -> by lia. done.
Qed.

(** The loop returns when every group parses. *)
Lemma legacy_loop_succeeds (uin : string) indices (g : Legacy.globals) :
  (∀ i, i ∈ indices →
        is_Some (mapM hex_value
                   (slice uin (3 + (i - 1) * 4) (3 + (i - 1) * 4 + 4)))) →
  ∃ g',
    for_each indices (λ i,
      next ← comprehension int16
                (slice uin (3 + (i - 1) * 4) (3 + (i - 1) * 4 + 4));
      assign (λ g,
        {| Legacy.sustain := Legacy.sustain g;
           Legacy.densityFunction := Legacy.densityFunction g;
           Legacy.keyCenter := Legacy.keyCenter g;
           Legacy.ranks :=
             alter (Legacy.set_next next) (i - 1)%nat (Legacy.ranks g) |})) g
      = (Ok tt, g').
Proof.
  revert g. induction indices as [|i rest IH]; intros g Hall.
  { by eexists. }
  destruct (Hall i ltac:(by left)) as [vals Hvals].
  cbn [for_each]. unfold mbind at 1, method_bind. unfold mbind at 1, method_bind.
  rewrite comprehension_int16, Hvals. unfold assign at 1.
  apply IH. intros i' Hi'. apply Hall. by right.
Qed.

(** [parse_uin]: the three leading characters are parsed and stored in
    turn, then the loop runs. *)
Lemma parse_uin_unfold (uin : string) (g : Legacy.globals) :
  Legacy.parse_uin uin g =
  let chars := String.list_ascii_of_string uin in
  let loop :=
    for_each (seq 1 (length (Legacy.ranks g))) (λ i,
      next ← comprehension int16
                (slice uin (3 + (i - 1) * 4) (3 + (i - 1) * 4 + 4));
      assign (λ g,
        {| Legacy.sustain := Legacy.sustain g;
           Legacy.densityFunction := Legacy.densityFunction g;
           Legacy.keyCenter := Legacy.keyCenter g;
           Legacy.ranks :=
             alter (Legacy.set_next next) (i - 1)%nat (Legacy.ranks g) |})) in
  let invalid := ValueError "invalid literal for int() with base 16" in
  let g0 v0 :=
    {| Legacy.sustain := Legacy.set_next v0 (Legacy.sustain g);
       Legacy.densityFunction := Legacy.densityFunction g;
       Legacy.keyCenter := Legacy.keyCenter g;
       Legacy.ranks := Legacy.ranks g |} in
  let g1 v0 v1 :=
    {| Legacy.sustain := Legacy.set_next v0 (Legacy.sustain g);
       Legacy.densityFunction := Legacy.set_next v1 (Legacy.densityFunction g);
       Legacy.keyCenter := Legacy.keyCenter g;
       Legacy.ranks := Legacy.ranks g |} in
  let g2 v0 v1 v2 :=
    {| Legacy.sustain := Legacy.set_next v0 (Legacy.sustain g);
       Legacy.densityFunction := Legacy.set_next v1 (Legacy.densityFunction g);
       Legacy.keyCenter := Legacy.set_next v2 (Legacy.keyCenter g);
       Legacy.ranks := Legacy.ranks g |} in
  match chars !! 0%nat with
  | None => (Raise IndexError, g)
  | Some c0 =>
      match hex_value c0 with
      | None => (Raise invalid, g)
      | Some v0 =>
          match chars !! 1%nat with
          | None => (Raise IndexError, g0 v0)
          | Some c1 =>
              match hex_value c1 with
              | None => (Raise invalid, g0 v0)
              | Some v1 =>
                  match chars !! 2%nat with
                  | None => (Raise IndexError, g1 v0 v1)
                  | Some c2 =>
                      match hex_value c2 with
                      | None => (Raise invalid, g1 v0 v1)
                      | Some v2 => loop (g2 v0 v1 v2)
                      end
                  end
              end
          end
      end
  end.
Proof.
  unfold Legacy.parse_uin. cbv zeta.
  unfold mbind at 1 2 3 4 5 6 7 8 9 10, method_bind, char_at, int16, assign,
    self, mret, method_ret, raise.
  destruct (_ !! 0%nat) as [c0|]; [|done].
  destruct (hex_value c0) as [v0|]; [|done].
  destruct (_ !! 1%nat) as [c1|]; [|done].
  destruct (hex_value c1) as [v1|]; [|done].
  destruct (_ !! 2%nat) as [c2|]; [|done].
  destruct (hex_value c2) as [v2|]; [|done].
  done.
Qed.

Lemma route_to_DBN_unfold (uin : string) (g : Legacy.globals) :
  Legacy.route_to_DBN uin g =
  match Legacy.parse_uin uin g with
  | (Ok _, g1) => (Ok (Legacy.DBN g1).2, (Legacy.DBN g1).1)
  | (Raise e, g1) => (Raise e, g1)
  end.
Proof.
  unfold Legacy.route_to_DBN. unfold mbind at 1, method_bind.
  destruct (Legacy.parse_uin uin g) as [[[]|e] g1]; [|done].
  by destruct (Legacy.DBN g1).
Qed.

Lemma slice_group (uin : string) i :
  slice uin (3 + (i - 1) * 4) (3 + (i - 1) * 4 + 4)
  = take 4 (drop (3 + (i - 1) * 4) (String.list_ascii_of_string uin)).
Proof. unfold slice. f_equal. lia. Qed.

(** The first [3 + 4 n] items are the three leading ones and [n] groups
    of four. *)
Lemma prefix_groups {A} (P : A → Prop) (chars : list A) n :
  Forall P (take (3 + 4 * n) chars) ↔
  Forall P (take 3 chars) ∧
  ∀ i, (1 ≤ i ≤ n)%nat → Forall P (take 4 (drop (3 + (i - 1) * 4) chars)).
Proof.
  induction n as [|n IH].
  - replace (3 + 4 * 0)%nat with 3%nat by lia.
    split; [|by intros [? _]]. intros ?. split; [done|]. intros i ?. lia.
  - replace (3 + 4 * S n)%nat with ((3 + 4 * n) + 4)%nat by lia.
    rewrite <- take_take_drop, Forall_app, IH. split.
    + intros [[H3 Hgroups] Hlast]. split; [done|]. intros i Hi.
      destruct (decide (i = S n)) as [->|Hne].
      * by replace (3 + (S n - 1) * 4)%nat with (3 + 4 * n)%nat by lia.
      * apply Hgroups. lia.
    + intros [H3 Hgroups]. split; [split; [done|]|].
      * intros i Hi. apply Hgroups. lia.
      * replace (3 + 4 * n)%nat with (3 + (S n - 1) * 4)%nat by lia.
        apply Hgroups. lia.
Qed.

(** [parse_uin], when it returns: the next values are the parsed
    characters and groups, the current values are untouched. *)
Lemma parse_uin_ok (uin : string) (g g1 : Legacy.globals) :
  Legacy.parse_uin uin g = (Ok tt, g1) →
  let chars := String.list_ascii_of_string uin in
  ∃ v0 v1 v2,
    chars !! 0%nat ≫= hex_value = Some v0 ∧
    chars !! 1%nat ≫= hex_value = Some v1 ∧
    chars !! 2%nat ≫= hex_value = Some v2 ∧
    Legacy.sustain g1 = ((Legacy.sustain g).1, v0) ∧
    Legacy.densityFunction g1 = ((Legacy.densityFunction g).1, v1) ∧
    Legacy.keyCenter g1 = ((Legacy.keyCenter g).1, v2) ∧
    length (Legacy.ranks g1) = length (Legacy.ranks g) ∧
    ∀ i rank, Legacy.ranks g !! i = Some rank →
      ∃ next,
        mapM hex_value (take 4 (drop (3 + 4 * i) chars)) = Some next ∧
        Legacy.ranks g1 !! i = Some (rank.1, next).
Proof.
  intros Hok chars. rewrite parse_uin_unfold in Hok. cbv zeta in Hok.
  fold chars in Hok.
  destruct (chars !! 0%nat) as [c0|]; [|done].
  destruct (hex_value c0) as [v0|] eqn:Hv0; [|done].
  destruct (chars !! 1%nat) as [c1|]; [|done].
  destruct (hex_value c1) as [v1|] eqn:Hv1; [|done].
  destruct (chars !! 2%nat) as [c2|]; [|done].
  destruct (hex_value c2) as [v2|] eqn:Hv2; [|done].
  apply legacy_loop_ok in Hok as (Hs & Hd & Hk & Hlen & _ & Hin).
  cbn [Legacy.sustain Legacy.densityFunction Legacy.keyCenter Legacy.ranks]
    in Hs, Hd, Hk, Hlen, Hin.
  exists v0, v1, v2. split_and!; try done.
  intros i rank Hrank.
  destruct (Hin (S i)) as (next & Hnext & Hranks).
  { apply elem_of_seq. apply lookup_lt_Some in Hrank. lia. }
  rewrite slice_group in Hnext.
  replace (3 + (S i - 1) * 4)%nat with (3 + 4 * i)%nat in Hnext by lia.
  exists next. split; [done|].
  replace (S i - 1)%nat with i in Hranks by lia.
  rewrite Hranks, Hrank; [done|apply NoDup_seq|].
  apply Forall_forall. intros k Hk'%elem_of_seq. lia.
Qed.

Lemma parse_uin_succeeds (uin : string) (g : Legacy.globals) :
  let chars := String.list_ascii_of_string uin in
  (3 ≤ length chars)%nat →
  Forall (λ c, is_Some (hex_value c))
         (take (3 + 4 * length (Legacy.ranks g)) chars) →
  ∃ g1, Legacy.parse_uin uin g = (Ok tt, g1).
Proof.
  intros chars Hlen [Hhead Hgroups]%prefix_groups.
  rewrite parse_uin_unfold. cbv zeta. fold chars.
  destruct (lookup_lt_is_Some_2 chars 0) as [c0 H0]; [lia|].
  destruct (lookup_lt_is_Some_2 chars 1) as [c1 H1]; [lia|].
  destruct (lookup_lt_is_Some_2 chars 2) as [c2 H2]; [lia|].
  assert (∀ i c, (i < 3)%nat → chars !! i = Some c → is_Some (hex_value c))
    as Hhex.
  { intros i c Hi Hc. apply (proj1 (Forall_lookup _ _) Hhead i c).
    by rewrite lookup_take_lt. }
  rewrite H0, H1, H2.
  destruct (Hhex 0%nat c0 ltac:(lia) H0) as [v0 ->].
  destruct (Hhex 1%nat c1 ltac:(lia) H1) as [v1 ->].
  destruct (Hhex 2%nat c2 ltac:(lia) H2) as [v2 ->].
  apply legacy_loop_succeeds. intros i Hi%elem_of_seq.
  rewrite slice_group. apply mapM_is_Some. apply Hgroups. lia.
Qed.

(** X20.  The legacy parser has no length check.  [route_to_DBN] returns
    exactly when the input has at least three characters and [int(c, 16)]
    accepts those of its first [3 + 4 n] characters that exist ([n] the
    number of ranks, 8 in the module): shorter and longer inputs than 35
    characters are processed, and what follows the ranks is never looked
    at.  (Which characters [int(c, 16)] accepts below code point 256 is
    [hex_value_digits].) *)
Theorem route_to_DBN_succeeds_iff (uin : string) (g : Legacy.globals) :
  let chars := String.list_ascii_of_string uin in
  (∃ r g', Legacy.route_to_DBN uin g = (Ok r, g')) ↔
  (3 ≤ length chars)%nat ∧
  Forall (λ c, is_Some (hex_value c))
         (take (3 + 4 * length (Legacy.ranks g)) chars).
Proof.
  intros chars. rewrite route_to_DBN_unfold. split.
  - intros (r & g' & Hok).
    destruct (Legacy.parse_uin uin g) as [[[]|e] g1] eqn:Hparse; [|done].
    clear Hok. rewrite parse_uin_unfold in Hparse. cbv zeta in Hparse.
    fold chars in Hparse.
    destruct (chars !! 0%nat) as [c0|] eqn:H0; [|done].
    destruct (hex_value c0) as [v0|] eqn:Hv0; [|done].
    destruct (chars !! 1%nat) as [c1|] eqn:H1; [|done].
    destruct (hex_value c1) as [v1|] eqn:Hv1; [|done].
    destruct (chars !! 2%nat) as [c2|] eqn:H2; [|done].
    destruct (hex_value c2) as [v2|] eqn:Hv2; [|done].
    apply legacy_loop_ok in Hparse as (_ & _ & _ & _ & _ & Hin).
    cbn [Legacy.ranks] in Hin.
    split; [apply lookup_lt_Some in H2; lia|].
    apply prefix_groups. split.
    + apply Forall_lookup. intros i c [Hc Hi]%lookup_take_Some.
      destruct i as [|[|[|i]]]; [| | |lia]; simplify_eq; by eexists.
    + intros i Hi. destruct (Hin i) as (next & Hnext & _).
      { apply elem_of_seq. lia. }
      rewrite slice_group in Hnext. fold chars in Hnext.
      apply (mapM_is_Some_1 hex_value). by eexists.
  - intros [Hlen Hhex].
    destruct (parse_uin_succeeds uin g Hlen Hhex) as [g1 ->]. by eexists _, _.
Qed.

(** X21.  What a call of [route_to_DBN] that returns has done: the
    messages carry the values of the characters 0 and 2; every global
    holds its parsed value as current and as next value, rank [i] the
    values of the (up to four) characters from position [3 + 4 i] on; and
    [checkBypass] finds nothing to do afterwards. *)
Theorem route_to_DBN_result (uin : string) (g g' : Legacy.globals)
    calls messages :
  Legacy.route_to_DBN uin g = (Ok (calls, messages), g') →
  let chars := String.list_ascii_of_string uin in
  ∃ v0 v1 v2,
    chars !! 0%nat ≫= hex_value = Some v0 ∧
    chars !! 1%nat ≫= hex_value = Some v1 ∧
    chars !! 2%nat ≫= hex_value = Some v2 ∧
    messages = [("/sustain"%string, v0); ("/keyCenter"%string, v2)] ∧
    Legacy.sustain g' = (v0, v0) ∧
    Legacy.densityFunction g' = (v1, v1) ∧
    Legacy.keyCenter g' = (v2, v2) ∧
    length (Legacy.ranks g') = length (Legacy.ranks g) ∧
    (∀ i, (i < length (Legacy.ranks g))%nat →
       ∃ next,
         mapM hex_value (take 4 (drop (3 + 4 * i) chars)) = Some next ∧
         Legacy.ranks g' !! i = Some (next, next)) ∧
    Legacy.checkBypass g' = 0.
Proof.
  intros Hok chars. rewrite route_to_DBN_unfold in Hok.
  destruct (Legacy.parse_uin uin g) as [[[]|e] g1] eqn:Hparse; [|done].
  destruct (parse_uin_ok _ _ _ Hparse)
    as (v0 & v1 & v2 & H0 & H1 & H2 & Hs & Hd & Hk & Hlen & Hranks).
  destruct (legacy_DBN_unfold g1) as (calls' & HDBN & _).
  rewrite HDBN in Hok. simpl in Hok. injection Hok as <- <- <-.
  rewrite Hs, Hd, Hk.
  exists v0, v1, v2.
  cbn [Legacy.sustain Legacy.densityFunction Legacy.keyCenter Legacy.ranks].
  split_and!; try done.
  - by rewrite length_fmap.
  - intros i [rank Hrank]%lookup_lt_is_Some_2.
    destruct (Hranks i rank Hrank) as (next & Hnext & Hrank1).
    exists next. split; [done|]. by rewrite list_lookup_fmap, Hrank1.
  - apply legacy_scan_same, legacy_committed.
Qed.

Lemma route_to_DBN_result_example :
  (Legacy.route_to_DBN "1a2" Legacy.globals_init).1
    = Ok ([Legacy.ActuallyRunDBN; Legacy.UpdateNextsToCurrents;
           Legacy.SendValues],
          [("/sustain"%string, 1); ("/keyCenter"%string, 2)]) ∧
  Legacy.ranks (Legacy.route_to_DBN "1a2" Legacy.globals_init).2 !! 0%nat
    = Some ([], []).
Proof.
  destruct (route_to_DBN_result "1a2" Legacy.globals_init
              (Legacy.route_to_DBN "1a2" Legacy.globals_init).2
              [Legacy.ActuallyRunDBN; Legacy.UpdateNextsToCurrents;
               Legacy.SendValues]
              [("/sustain"%string, 1); ("/keyCenter"%string, 2)])
    as (v0 & v1 & v2 & _ & _ & _ & _ & _ & _ & _ & _ & Hranks & _).
  { vm_compute. reflexivity. }
  split; [vm_compute; reflexivity|].
  destruct (Hranks 0%nat) as (next & Hnext & ->); [simpl; lia|].
  injection Hnext as <-. reflexivity.
Defined.

(** X22.  On every input the enhanced engine sends for, the legacy engine
    sends the same messages, whatever its globals hold. *)
Theorem legacy_sends_what_enhanced_sends (combined_hex : string)
    (self self' : DBNEngine) calls messages (g : Legacy.globals) :
  process_input combined_hex self = (self', Sent calls messages) →
  ∃ calls' g',
    Legacy.route_to_DBN combined_hex g = (Ok (calls', messages), g').
Proof.
  intros (Hok & _ & ->)%process_input_sent.
  pose proof (update_ok_hex _ _ _ Hok) as (Hlen & _ & _).
  pose proof (update_ok_all_hex _ _ _ Hok) as Hhex.
  destruct (update_ok_scalars _ _ _ Hok) as (Hs & _ & Hk).
  destruct (parse_uin_succeeds combined_hex g) as [g1 Hparse].
  { rewrite length_list_ascii_of_string. lia. }
  { by apply Forall_take. }
  destruct (parse_uin_ok _ _ _ Hparse)
    as (v0 & v1 & v2 & H0 & _ & H2 & Hs1 & _ & Hk1 & _).
  rewrite route_to_DBN_unfold, Hparse.
  destruct (legacy_DBN_unfold g1) as (calls' & -> & _). simpl.
  rewrite Hs1, Hk1. simpl.
  assert (v0 = sustain (current_state self')) as -> by congruence.
  assert (v2 = key_center (current_state self')) as -> by congruence.
  by eexists _, _.
Qed.

Lemma legacy_sends_what_enhanced_sends_example :
  (Legacy.route_to_DBN example_hex Legacy.globals_init).1
    = Ok ([Legacy.ActuallyRunDBN; Legacy.UpdateNextsToCurrents;
           Legacy.SendValues],
          messages_of (process_input example_hex DBNEngine_new).2).
Proof.
  destruct (legacy_sends_what_enhanced_sends example_hex DBNEngine_new
              (process_input example_hex DBNEngine_new).1
              [Execute_full_dbn; Send_current_values]
              [("/sustain"%string, 0); ("/keyCenter"%string, 2)]
              Legacy.globals_init) as (calls' & g' & Hroute).
  { vm_compute. reflexivity. }
  rewrite Hroute. vm_compute in Hroute. injection Hroute as <- _.
  reflexivity.
Defined.

End LegacyEngine.
